(** * us_xfr_sv: the UNIX-domain stream socket server of sockets/us_xfr_sv.c

    A shallow embedding of [main] of [src/tlpi-dist/sockets/us_xfr_sv.c]
    over an executable model of the part of the kernel the program talks
    to (descriptor table, one directory of path names, the byte streams of
    the clients, standard output), followed by the properties of the
    server: set-up order, the transfer loop, the fault dispositions and
    the sequencing of connections. *)

From Stdlib Require Import List ZArith Lia Bool Arith.
From Stdlib Require Import Strings.String Strings.Byte.
Import ListNotations.

Local Open Scope Z_scope.

(* ================================================================== *)
(** ** Bytes and C strings *)

Definition byte : Type := Byte.byte.
Definition NUL : byte := Byte.x00.

Definition is_nul (b : byte) : bool := Byte.eqb b NUL.

(** The characters of the C string stored at the start of [s]: everything
    before the first NUL byte.  A string literal is given by its
    characters; the terminating NUL is implicit. *)
Fixpoint cstr (s : list byte) : list byte :=
  match s with
  | [] => []
  | b :: s' => if is_nul b then [] else b :: cstr s'
  end.

(** [strlen(s)] *)
Definition strlen (s : list byte) : nat := List.length (cstr s).

(** [strncpy(dst, src, n)]: copies the characters of [src], at most [n] of
    them, and fills what is left of the [n] bytes with NUL; the bytes of
    [dst] beyond the first [n] are untouched. *)
Definition strncpy (dst src : list byte) (n : nat) : list byte :=
  let body := firstn n (cstr src) in
  body ++ repeat NUL (n - List.length body) ++ skipn n dst.

(* ================================================================== *)
(** ** Constants of the system headers (Linux values) *)

Definition AF_UNIX : Z := 1.
Definition SOCK_STREAM : Z := 1.
Definition STDOUT_FILENO : Z := 1.
Definition EXIT_FAILURE : Z := 1.
Definition ENOENT : Z := 2.
Definition EBADF : Z := 9.
Definition EADDRINUSE : Z := 98.

(** [#define BACKLOG 5] (us_xfr_sv.c, line 25) *)
Definition BACKLOG : Z := 5.

(** [struct sockaddr_un]: the family tag and the path array. *)
Record sockaddr_un : Type := mk_sockaddr_un {
  sun_family : Z;
  sun_path : list byte
}.

(* ================================================================== *)
(** ** The kernel model *)

(** What one [read] on a connection will find: a segment of at least one
    byte that the transport has delivered, or a failure with its errno. *)
Inductive read_step : Type :=
| RdChunk (b : byte) (bs : list byte)
| RdFail (errno : Z).

(** A client connection, seen from the server: the segments still to be
    read, whether the peer closes its end after the last of them (when it
    does not, a read past the last segment never returns), and the errno
    with which [close] on the descriptor fails, if it does. *)
Record conn : Type := mk_conn {
  c_reads : list read_step;
  c_shutdown : bool;
  c_close : option Z
}.

(** What one [accept] will find in the queue of the listening socket. *)
Inductive accept_step : Type :=
| AcFail (errno : Z)
| AcConn (c : conn).

(** How standard output takes one [write]: the whole request, only its
    first [k] bytes, or a failure with its errno. *)
Inductive write_step : Type :=
| WrAll
| WrShort (k : nat)
| WrFail (errno : Z).

(** An open descriptor other than the three standard streams. *)
Inductive file : Type :=
| FSock
| FConn (c : conn).

(** The calls the process has made, with arguments and results. *)
Inductive event : Type :=
| EvSocket (domain type protocol ret : Z)
| EvRemove (path : list byte) (ret : Z)
| EvBind (fd : Z) (addr : sockaddr_un) (ret : Z)
| EvListen (fd backlog ret : Z)
| EvAccept (fd ret : Z)
| EvRead (fd : Z) (count : nat) (ret : Z) (data : list byte)
| EvWrite (fd : Z) (data : list byte) (ret : Z)
| EvClose (fd ret : Z).

(** A line on standard error: which of the three error functions was
    called, with its message, and for the two that report [errno] its
    value at the call. *)
Inductive diag : Type :=
| DErrExit (msg : string) (errno : Z)
| DFatal (msg : string)
| DErrMsg (msg : string) (errno : Z).

(** The world the process runs in.  The [k_] fields say how the kernel
    will answer (they are consumed as the calls are made), the [w_] fields
    are the state the calls change. *)
Record world : Type := mk_world {
  k_socket : option Z;            (* errno of socket(), if it fails *)
  k_remove : option Z;            (* errno of remove() on an existing entry *)
  k_bind : option Z;              (* errno of bind() on a free path *)
  k_listen : option Z;            (* errno of listen() *)
  k_accept : list accept_step;    (* the connections to come, in order *)
  k_stdout : list write_step;     (* the writes to come; all accepted after *)
  w_fs : list (list byte);        (* the path names that exist *)
  w_fds : list (Z * file);        (* the descriptor table, newest first *)
  w_errno : Z;
  w_stdout : list byte;           (* the output sink *)
  w_stderr : list diag;
  w_trace : list event            (* oldest first *)
}.

(** Field updates. *)
Definition set_errno (e : Z) (w : world) : world :=
  mk_world (k_socket w) (k_remove w) (k_bind w) (k_listen w) (k_accept w)
           (k_stdout w) (w_fs w) (w_fds w) e (w_stdout w) (w_stderr w)
           (w_trace w).

Definition log_event (ev : event) (w : world) : world :=
  mk_world (k_socket w) (k_remove w) (k_bind w) (k_listen w) (k_accept w)
           (k_stdout w) (w_fs w) (w_fds w) (w_errno w) (w_stdout w)
           (w_stderr w) (w_trace w ++ [ev]).

Definition set_fs (fs : list (list byte)) (w : world) : world :=
  mk_world (k_socket w) (k_remove w) (k_bind w) (k_listen w) (k_accept w)
           (k_stdout w) fs (w_fds w) (w_errno w) (w_stdout w) (w_stderr w)
           (w_trace w).

Definition set_fds (fds : list (Z * file)) (w : world) : world :=
  mk_world (k_socket w) (k_remove w) (k_bind w) (k_listen w) (k_accept w)
           (k_stdout w) (w_fs w) fds (w_errno w) (w_stdout w) (w_stderr w)
           (w_trace w).

Definition set_accept (q : list accept_step) (w : world) : world :=
  mk_world (k_socket w) (k_remove w) (k_bind w) (k_listen w) q
           (k_stdout w) (w_fs w) (w_fds w) (w_errno w) (w_stdout w)
           (w_stderr w) (w_trace w).

Definition set_kstdout (q : list write_step) (w : world) : world :=
  mk_world (k_socket w) (k_remove w) (k_bind w) (k_listen w) (k_accept w)
           q (w_fs w) (w_fds w) (w_errno w) (w_stdout w) (w_stderr w)
           (w_trace w).

Definition put_stdout (data : list byte) (w : world) : world :=
  mk_world (k_socket w) (k_remove w) (k_bind w) (k_listen w) (k_accept w)
           (k_stdout w) (w_fs w) (w_fds w) (w_errno w) (w_stdout w ++ data)
           (w_stderr w) (w_trace w).

Definition put_stderr (d : diag) (w : world) : world :=
  mk_world (k_socket w) (k_remove w) (k_bind w) (k_listen w) (k_accept w)
           (k_stdout w) (w_fs w) (w_fds w) (w_errno w) (w_stdout w)
           (w_stderr w ++ [d]) (w_trace w).

(** *** Path names and descriptors *)

Fixpoint path_eqb (p q : list byte) : bool :=
  match p, q with
  | [], [] => true
  | a :: p', b :: q' => Byte.eqb a b && path_eqb p' q'
  | _, _ => false
  end.

Definition fs_mem (p : list byte) (fs : list (list byte)) : bool :=
  existsb (path_eqb p) fs.

Definition fs_del (p : list byte) (fs : list (list byte)) : list (list byte) :=
  filter (fun q => negb (path_eqb p q)) fs.

Fixpoint fd_lookup (fd : Z) (fds : list (Z * file)) : option file :=
  match fds with
  | [] => None
  | (k, f) :: rest => if k =? fd then Some f else fd_lookup fd rest
  end.

Definition fd_put (fd : Z) (f : file) (fds : list (Z * file)) : list (Z * file) :=
  (fd, f) :: filter (fun kf => negb (fst kf =? fd)) fds.

Definition fd_del (fd : Z) (fds : list (Z * file)) : list (Z * file) :=
  filter (fun kf => negb (fst kf =? fd)) fds.

Definition fd_used (fds : list (Z * file)) (fd : Z) : bool :=
  existsb (fun kf => fst kf =? fd) fds.

(** The lowest descriptor from [fd] upwards that is not open, looking at
    [fuel] candidates at most. *)
Fixpoint lowest_free (fuel : nat) (fd : Z) (fds : list (Z * file)) : Z :=
  match fuel with
  | O => fd
  | S fuel' => if fd_used fds fd then lowest_free fuel' (fd + 1) fds else fd
  end.

(** A new descriptor is the lowest one that is not open; 0, 1 and 2 are
    the standard streams.  A table of [n] entries leaves one of the [n + 1]
    candidates free. *)
Definition fd_fresh (fds : list (Z * file)) : Z :=
  lowest_free (List.length fds) 3 fds.

(** The number of open descriptors from [fd] upwards. *)
Definition fd_above (fd : Z) (fds : list (Z * file)) : nat :=
  List.length (filter (fun kf => fd <=? fst kf) fds).

(* ================================================================== *)
(** ** The process monad *)

(** A computation of the process either returns a value, or ends the
    process with an exit status, or never returns because a call blocks
    for ever.  [Fuel] is the model's own: the iteration budget of a loop
    ran out. *)
Inductive outcome (A : Type) : Type :=
| Ret (a : A) (w : world)
| Exit (status : Z) (w : world)
| Blocked (w : world)
| Fuel (w : world).

Arguments Ret {A} a w.
Arguments Exit {A} status w.
Arguments Blocked {A} w.
Arguments Fuel {A} w.

Definition M (A : Type) : Type := world -> outcome A.

Definition ret {A : Type} (a : A) : M A := fun w => Ret a w.

Definition bind {A B : Type} (m : M A) (f : A -> M B) : M B :=
  fun w =>
    match m w with
    | Ret a w' => f a w'
    | Exit s w' => Exit s w'
    | Blocked w' => Blocked w'
    | Fuel w' => Fuel w'
    end.

Notation "x <- m ;; k" := (bind m (fun x => k))
  (at level 61, m at next level, right associativity).
Notation "m ;;; k" := (bind m (fun _ => k))
  (at level 61, right associativity).

Definition when (b : bool) (m : M unit) : M unit :=
  if b then m else ret tt.

Definition get_errno : M Z := fun w => Ret (w_errno w) w.

(** The world in which an outcome leaves the process. *)
Definition final {A : Type} (o : outcome A) : world :=
  match o with
  | Ret _ w | Exit _ w | Blocked w | Fuel w => w
  end.

(* ================================================================== *)
(** ** The system calls *)

(** A call that fails returns -1 and leaves its errno. *)
Definition sys_fail (e : Z) (ev : Z -> event) : M Z :=
  fun w => Ret (-1) (log_event (ev (-1)) (set_errno e w)).

Definition sys_done (r : Z) (ev : Z -> event) : M Z :=
  fun w => Ret r (log_event (ev r) w).

(** [socket(domain, type, protocol)] *)
Definition sys_socket (domain type protocol : Z) : M Z :=
  fun w =>
    match k_socket w with
    | Some e => sys_fail e (EvSocket domain type protocol) w
    | None =>
        let fd := fd_fresh (w_fds w) in
        sys_done fd (EvSocket domain type protocol)
                 (set_fds (fd_put fd FSock (w_fds w)) w)
    end.

(** [remove(path)]: an entry that does not exist gives ENOENT. *)
Definition sys_remove (path : list byte) : M Z :=
  fun w =>
    let p := cstr path in
    if fs_mem p (w_fs w) then
      match k_remove w with
      | Some e => sys_fail e (EvRemove p) w
      | None => sys_done 0 (EvRemove p) (set_fs (fs_del p (w_fs w)) w)
      end
    else sys_fail ENOENT (EvRemove p) w.

(** [bind(fd, &addr, sizeof(struct sockaddr_un))]: creates the entry named
    by the C string in [sun_path]; a name that exists gives EADDRINUSE. *)
Definition sys_bind (fd : Z) (addr : sockaddr_un) : M Z :=
  fun w =>
    match fd_lookup fd (w_fds w) with
    | Some FSock =>
        let p := cstr (sun_path addr) in
        if fs_mem p (w_fs w) then sys_fail EADDRINUSE (EvBind fd addr) w
        else
          match k_bind w with
          | Some e => sys_fail e (EvBind fd addr) w
          | None => sys_done 0 (EvBind fd addr) (set_fs (p :: w_fs w) w)
          end
    | _ => sys_fail EBADF (EvBind fd addr) w
    end.

(** [listen(fd, backlog)] *)
Definition sys_listen (fd backlog : Z) : M Z :=
  fun w =>
    match fd_lookup fd (w_fds w) with
    | Some FSock =>
        match k_listen w with
        | Some e => sys_fail e (EvListen fd backlog) w
        | None => sys_done 0 (EvListen fd backlog) w
        end
    | _ => sys_fail EBADF (EvListen fd backlog) w
    end.

(** [accept(fd, NULL, NULL)]: takes the next connection of the queue on a
    new descriptor; with an empty queue the call does not return. *)
Definition sys_accept (fd : Z) : M Z :=
  fun w =>
    match fd_lookup fd (w_fds w) with
    | Some FSock =>
        match k_accept w with
        | [] => Blocked w
        | AcFail e :: q => sys_fail e (EvAccept fd) (set_accept q w)
        | AcConn c :: q =>
            let cfd := fd_fresh (w_fds w) in
            sys_done cfd (EvAccept fd)
                     (set_fds (fd_put cfd (FConn c) (w_fds w)) (set_accept q w))
        end
    | _ => sys_fail EBADF (EvAccept fd) w
    end.

(** What is left of a connection once [count] bytes of its first segment
    [b :: bs] have been read. *)
Definition after_read (count : nat) (b : byte) (bs : list byte)
    (rest : list read_step) (c : conn) : conn :=
  match skipn count (b :: bs) with
  | [] => mk_conn rest (c_shutdown c) (c_close c)
  | b' :: bs' => mk_conn (RdChunk b' bs' :: rest) (c_shutdown c) (c_close c)
  end.

(** [read(fd, buf, count)]: returns the count and the buffer with the
    bytes read stored at its start.  At most [count] bytes of the first
    segment are taken and the others stay for the next read; past the last
    segment the read returns 0 once the peer has closed. *)
Definition sys_read (fd : Z) (buf : list byte) (count : nat) : M (Z * list byte) :=
  fun w =>
    match fd_lookup fd (w_fds w) with
    | Some (FConn c) =>
        match count, c_reads c with
        | O, _ => Ret (0, buf) (log_event (EvRead fd count 0 []) w)
        | _, [] =>
            if c_shutdown c
            then Ret (0, buf) (log_event (EvRead fd count 0 []) w)
            else Blocked w
        | _, RdFail e :: rest =>
            Ret (-1, buf)
                (log_event (EvRead fd count (-1) [])
                   (set_errno e
                      (set_fds (fd_put fd (FConn (mk_conn rest (c_shutdown c) (c_close c)))
                                       (w_fds w)) w)))
        | _, RdChunk b bs :: rest =>
            let data := firstn count (b :: bs) in
            Ret (Z.of_nat (List.length data), data ++ skipn (List.length data) buf)
                (log_event (EvRead fd count (Z.of_nat (List.length data)) data)
                   (set_fds (fd_put fd (FConn (after_read count b bs rest c))
                                    (w_fds w)) w))
        end
    | _ => Ret (-1, buf) (log_event (EvRead fd count (-1) []) (set_errno EBADF w))
    end.

(** [write(fd, buf, count)] on standard output: the bytes taken are
    appended to the sink and their number is returned. *)
Definition sys_write (fd : Z) (buf : list byte) (count : nat) : M Z :=
  fun w =>
    let data := firstn count buf in
    if fd =? STDOUT_FILENO then
      match k_stdout w with
      | [] => sys_done (Z.of_nat (List.length data)) (EvWrite fd data)
                       (put_stdout data w)
      | WrAll :: q =>
          sys_done (Z.of_nat (List.length data)) (EvWrite fd data)
                   (put_stdout data (set_kstdout q w))
      | WrShort k :: q =>
          sys_done (Z.of_nat (List.length (firstn k data))) (EvWrite fd data)
                   (put_stdout (firstn k data) (set_kstdout q w))
      | WrFail e :: q => sys_fail e (EvWrite fd data) (set_kstdout q w)
      end
    else sys_fail EBADF (EvWrite fd data) w.

(** [close(fd)]: the descriptor is released whether or not the call
    reports an error. *)
Definition sys_close (fd : Z) : M Z :=
  fun w =>
    match fd_lookup fd (w_fds w) with
    | Some (FConn c) =>
        match c_close c with
        | Some e => sys_fail e (EvClose fd) (set_fds (fd_del fd (w_fds w)) w)
        | None => sys_done 0 (EvClose fd) (set_fds (fd_del fd (w_fds w)) w)
        end
    | Some FSock => sys_done 0 (EvClose fd) (set_fds (fd_del fd (w_fds w)) w)
    | None => sys_fail EBADF (EvClose fd) w
    end.

(* ================================================================== *)
(** ** The error functions *)

(** [errExit], [fatal] and [errMsg] are defined in the library file
    error_functions.c, which is not among the sources.  The spec gives
    their behaviour: a fatal condition prints a diagnostic naming the
    failed operation and ends the process with a non-zero status; a logged
    condition is reported on the error stream and the program goes on. *)

(** Modelled from the spec: [errExit] (error_functions.c is missing)
    prints the message with the current [errno] and ends the process with
    [EXIT_FAILURE]. *)
Definition errExit (msg : string) : M unit :=
  fun w => Exit EXIT_FAILURE (put_stderr (DErrExit msg (w_errno w)) w).

(** Modelled from the spec: [fatal] (error_functions.c is missing) prints
    the message and ends the process with [EXIT_FAILURE].  It is the one
    the program calls for the two conditions that are not the failure of
    a call, a path that is too long and a write that did not take the
    whole chunk; its line is the message alone. *)
Definition fatal (msg : string) : M unit :=
  fun w => Exit EXIT_FAILURE (put_stderr (DFatal msg) w).

(** Modelled from the spec: [errMsg] (error_functions.c is missing) prints
    the message with the current [errno] and returns. *)
Definition errMsg (msg : string) : M unit :=
  fun w => Ret tt (put_stderr (DErrMsg msg (w_errno w)) w).

(* ================================================================== *)
(** ** Clients and traces *)

(** The bytes a client has sent on a connection: its segments, in order. *)
Fixpoint sent_steps (l : list read_step) : list byte :=
  match l with
  | [] => []
  | RdChunk b bs :: l' => (b :: bs) ++ sent_steps l'
  | RdFail _ :: l' => sent_steps l'
  end.

Definition sent (c : conn) : list byte := sent_steps (c_reads c).

(** No read of the connection fails. *)
Fixpoint reads_ok (l : list read_step) : bool :=
  match l with
  | [] => true
  | RdChunk _ _ :: l' => reads_ok l'
  | RdFail _ :: _ => false
  end.

(** A client that writes its bytes and closes its end. *)
Definition orderly (c : conn) : Prop :=
  reads_ok (c_reads c) = true /\ c_shutdown c = true.

(** An upper bound on the number of reads a connection can take. *)
Fixpoint work_steps (l : list read_step) : nat :=
  match l with
  | [] => 1
  | RdChunk b bs :: l' => S (List.length bs) + work_steps l'
  | RdFail _ :: l' => S (work_steps l')
  end.

Definition work (c : conn) : nat := work_steps (c_reads c).

(** The segments in which a client's bytes arrive. *)
Fixpoint segments (l : list (list byte)) : list read_step :=
  match l with
  | [] => []
  | [] :: l' => segments l'
  | (b :: bs) :: l' => RdChunk b bs :: segments l'
  end.

(** A client that writes the given segments and closes. *)
Definition client (l : list (list byte)) : conn :=
  mk_conn (segments l) true None.

Definition bytes (s : string) : list byte := list_byte_of_string s.

(** The configuration of the sample runs: the path of us_xfr.h, a small
    buffer, and the size of [sun_path] on Linux. *)
Definition sock_path : list byte := bytes "/tmp/us_xfr".
Definition sample_buf : nat := 4%nat.
Definition sample_size : nat := 108%nat.

(** What the automatic variables may hold on entry. *)
Definition garbage_addr : sockaddr_un := mk_sockaddr_un 77 (bytes "junk").
Definition garbage_buf : list byte := bytes "zzzz".

(** A world at the start of the process: the given directory, no
    descriptor open, the given answer of [remove], connections to come
    and behaviour of the sink. *)
Definition boot (fs : list (list byte)) (kremove : option Z)
    (q : list accept_step) (wr : list write_step) : world :=
  mk_world None kremove None None q wr fs [] 0 [] [] [].

(** A client that sends "hello world" in two segments and closes. *)
Definition hello_conn : conn := client [bytes "hello"; bytes " world"].

(** A client that sends "hi" and whose connection then fails. *)
Definition reset_conn : conn :=
  mk_conn [RdChunk "h"%byte [ "i"%byte ]; RdFail 104] true None.

(** A client that sends "hi" and closes; [close] on the server's side
    fails with EIO. *)
Definition unclosable_conn : conn :=
  mk_conn [RdChunk "h"%byte [ "i"%byte ]] true (Some 5).

(** A client that sends "hi" and then neither sends nor closes. *)
Definition silent_conn : conn :=
  mk_conn [RdChunk "h"%byte [ "i"%byte ]] false None.

(** A world at the start of the process whose kernel refuses [bind] or
    [listen] with the given errors. *)
Definition refusing (kbind klisten : option Z) (q : list accept_step) : world :=
  mk_world None None kbind klisten q [] [] [] 0 [] [] [].

(** A world in which descriptor 3 is the listening socket. *)
Definition listening (q : list accept_step) (wr : list write_step) : world :=
  mk_world None None None None q wr [sock_path] [(3, FSock)] ENOENT [] [] [].

(** The events that end a run: a failed [accept], a failed [read], a
    [write] that did not take the whole request. *)
Definition fatal_ev (e : event) : bool :=
  match e with
  | EvAccept _ r => r =? -1
  | EvRead _ _ r _ => r =? -1
  | EvWrite _ d r => negb (r =? Z.of_nat (List.length d))
  | _ => false
  end.

Definition clean (evs : list event) : Prop :=
  forallb (fun e => negb (fatal_ev e)) evs = true.

(** Is a socket open? *)
Definition socket_open (w : world) : bool :=
  existsb (fun kf => match snd kf with FSock => true | FConn _ => false end)
          (w_fds w).

(** The two calls that forward one chunk [d] read from [cfd]. *)
Definition relay_pair (count : nat) (cfd : Z) (d : list byte) : list event :=
  [EvRead cfd count (Z.of_nat (List.length d)) d;
   EvWrite STDOUT_FILENO d (Z.of_nat (List.length d))].

(** The calls of a transfer loop that forwards the chunks one after the
    other and then reads the end of the stream. *)
Definition relay_events (count : nat) (cfd : Z) (chunks : list (list byte))
    : list event :=
  flat_map (relay_pair count cfd) chunks ++ [EvRead cfd count 0 []].

(** A chunk that a read of [count] bytes can return. *)
Definition chunk_ok (count : nat) (d : list byte) : Prop :=
  d <> [] /\ (List.length d <= count)%nat.

(** The calls of one complete pass over connection [c]: the [accept] that
    returned its descriptor, the transfer of all the client sent, and the
    [close]. *)
Definition pass_of (count : nat) (sfd : Z) (c : conn) (blk : list event)
    : Prop :=
  exists cfd chunks r,
    List.concat chunks = sent c
    /\ Forall (chunk_ok count) chunks
    /\ blk = [EvAccept sfd cfd] ++ relay_events count cfd chunks
                                ++ [EvClose cfd r].

(** What a failed [close] leaves on standard error. *)
Definition close_diag (c : conn) : list diag :=
  match c_close c with
  | None => []
  | Some e => [DErrMsg "close" e]
  end.

(** How a run that has ended on a fault ends: the last calls in its trace
    and the line that the error function printed.  [count] is the size of
    the read requests and [errno] the value at exit. *)
Inductive fatal_end (count : nat) (errno : Z) : list event -> diag -> Prop :=
| end_accept (sfd : Z) :
    fatal_end count errno [EvAccept sfd (-1)] (DErrExit "accept" errno)
| end_read (cfd : Z) (d : list byte) :
    fatal_end count errno [EvRead cfd count (-1) d] (DErrExit "read" errno)
| end_write (cfd : Z) (d : list byte) (r : Z) :
    d <> [] -> r <> Z.of_nat (List.length d) ->
    fatal_end count errno
      [EvRead cfd count (Z.of_nat (List.length d)) d;
       EvWrite STDOUT_FILENO d r]
      (DFatal "partial/failed write").

(** The outcome [o] is an exit with [EXIT_FAILURE] after the calls [evs],
    of which only the last is a fatal one. *)
Definition aborted {A : Type} (count : nat) (o : outcome A)
    (evs : list event) : Prop :=
  exists pre tail dg ds,
    evs = pre ++ tail /\ clean pre
    /\ fatal_end count (w_errno (final o)) tail dg
    /\ o = Exit EXIT_FAILURE (final o)
    /\ w_stderr (final o) = ds ++ [dg].

(** The bytes that the reads of a trace have returned, in order. *)
Fixpoint read_bytes (evs : list event) : list byte :=
  match evs with
  | [] => []
  | EvRead _ _ _ d :: evs' => d ++ read_bytes evs'
  | _ :: evs' => read_bytes evs'
  end.

(** A call of the accept loop of a server that listens on [sfd] and reads
    [count] bytes at a time: an [accept] on [sfd]; a [read] of [count]
    bytes that returns the length of what it delivered, or -1 and
    nothing; a [write] to standard output of a non-empty chunk of at most
    [count] bytes; a [close]. *)
Definition loop_call (count : nat) (sfd : Z) (e : event) : Prop :=
  match e with
  | EvAccept fd _ => fd = sfd
  | EvRead _ cnt r d =>
      cnt = count /\ (List.length d <= count)%nat
      /\ (r = Z.of_nat (List.length d) \/ (r = -1 /\ d = []))
  | EvWrite fd d _ =>
      fd = STDOUT_FILENO /\ d <> [] /\ (List.length d <= count)%nat
  | EvClose _ _ => True
  | _ => False
  end.

(** A client that sends its bytes and then neither sends more nor
    closes. *)
Definition silent (c : conn) : Prop :=
  reads_ok (c_reads c) = true /\ c_shutdown c = false.

(** A call of the set-up. *)
Definition setup_call (e : event) : Prop :=
  match e with
  | EvSocket _ _ _ _ | EvRemove _ _ | EvBind _ _ _ | EvListen _ _ _ => True
  | _ => False
  end.

(** A [socket], [bind] or [listen] that has failed. *)
Definition setup_failed (e : event) : bool :=
  match e with
  | EvSocket _ _ _ r | EvBind _ _ r | EvListen _ _ r => r =? -1
  | _ => false
  end.

(** The line [errExit] prints for a failed call of the set-up. *)
Definition setup_diag (e : event) (errno : Z) : diag :=
  match e with
  | EvSocket _ _ _ _ => DErrExit "socket" errno
  | EvBind _ _ _ => DErrExit "bind" errno
  | _ => DErrExit "listen" errno
  end.

Definition none_failed (evs : list event) : Prop :=
  forallb (fun e => negb (setup_failed e)) evs = true.

(** The bounds of the transfer buffer: a [read] asks for [count] bytes
    and delivers at most as many; a [write] goes to standard output and
    carries a non-empty chunk of at most [count] bytes. *)
Definition io_bounded (count : nat) (e : event) : Prop :=
  match e with
  | EvRead _ cnt _ d => cnt = count /\ (List.length d <= count)%nat
  | EvWrite fd d _ =>
      fd = STDOUT_FILENO /\ d <> [] /\ (List.length d <= count)%nat
  | _ => True
  end.

(* ================================================================== *)
(** ** The server *)

Notation "' pat <- m ;; k" :=
  (bind m (fun x => match x with pat => k end))
  (at level 61, pat pattern, m at next level, right associativity).

Local Open Scope string_scope.
Local Open Scope Z_scope.

(** [printf]-style [%s]: the message followed by the characters of a C
    string. *)
Definition fmt_s (msg : string) (s : list byte) : string :=
  String.append msg (string_of_list_byte (cstr s)).

(* ================================================================== *)
(** ** The other programs: processes that run to an exit *)

(** The three other programs of the collection make their calls in a
    straight line and end with [exit]; each has its own state.  A
    computation either goes on with a value or has ended the process. *)
Inductive run (S A : Type) : Type :=
| Go (a : A) (s : S)
| Stop (status : Z) (s : S).

Arguments Go {S A} a s.
Arguments Stop {S A} status s.

Definition P (S A : Type) : Type := S -> run S A.

Definition pret {S A : Type} (a : A) : P S A := fun s => Go a s.

Definition pbind {S A B : Type} (m : P S A) (f : A -> P S B) : P S B :=
  fun s =>
    match m s with
    | Go a s' => f a s'
    | Stop st s' => Stop st s'
    end.

Definition pwhen {S : Type} (b : bool) (m : P S unit) : P S unit :=
  if b then m else pret tt.

(** The state in which a run leaves the process. *)
Definition last_state {S A : Type} (r : run S A) : S :=
  match r with
  | Go _ s | Stop _ s => s
  end.

Declare Scope proc_scope.
Notation "x <- m ;; k" := (pbind m (fun x => k))
  (at level 61, m at next level, right associativity) : proc_scope.
Notation "m ;;; k" := (pbind m (fun _ => k))
  (at level 61, right associativity) : proc_scope.

Definition EXIT_SUCCESS : Z := 0.
Definition ENOMEM : Z := 12.
Definition EINVAL : Z := 22.

(* ================================================================== *)
(** ** modify_env: proc/modify_env.c *)

Module ModifyEnv.

Local Open Scope proc_scope.

(** The process: the environment list [environ] (its strings, in order),
    whether the next allocations of the C library fail, [errno], the
    lines written by [puts] and standard error. *)
Record state : Type := mk_state {
  environ : list (list byte);
  k_nomem : list bool;
  errno : Z;
  out : list (list byte);
  err : list diag
}.

Definition set_environ (env : list (list byte)) (s : state) : state :=
  mk_state env (k_nomem s) (errno s) (out s) (err s).

Definition set_nomem (q : list bool) (s : state) : state :=
  mk_state (environ s) q (errno s) (out s) (err s).

Definition set_errno (e : Z) (s : state) : state :=
  mk_state (environ s) (k_nomem s) e (out s) (err s).

Definition EQUALS : byte := "="%byte.

(** [strchr(s, '=')]: the index of the first '=' of [s], if any. *)
Fixpoint strchr_eq (s : list byte) : option nat :=
  match s with
  | [] => None
  | b :: s' =>
      if Byte.eqb b EQUALS then Some O else option_map S (strchr_eq s')
  end.

(** The test by which the C library finds the definition of a name:
    [!strncmp(entry, name, len) && entry[len] == '=']. *)
Fixpoint defines (name entry : list byte) : bool :=
  match name, entry with
  | [], b :: _ => Byte.eqb b EQUALS
  | a :: name', b :: entry' => Byte.eqb a b && defines name' entry'
  | _, [] => false
  end.

(** The first definition of [name] replaced by [combined]. *)
Fixpoint replace_first (name combined : list byte) (env : list (list byte))
    : list (list byte) :=
  match env with
  | [] => []
  | e :: env' =>
      if defines name e then combined :: env'
      else e :: replace_first name combined env'
  end.

(** The common part of [putenv] and [setenv] in the C library: a name
    that is defined has its first definition replaced, when asked to; a
    name that is not is added at the end, which needs memory. *)
Definition add_to_environ (name combined : list byte) (replace : bool)
    : P state Z :=
  fun s =>
    if existsb (defines name) (environ s) then
      Go 0 (if replace
            then set_environ (replace_first name combined (environ s)) s
            else s)
    else
      match k_nomem s with
      | true :: q => Go (-1) (set_errno ENOMEM (set_nomem q s))
      | false :: q =>
          Go 0 (set_environ (environ s ++ [combined]) (set_nomem q s))
      | [] => Go 0 (set_environ (environ s ++ [combined]) s)
      end.

(** [unsetenv(name)]: every definition of [name] is removed; an empty
    name or one with an '=' is refused. *)
Definition unsetenv (name : list byte) : P state Z :=
  fun s =>
    match name, strchr_eq name with
    | [], _ | _, Some _ => Go (-1) (set_errno EINVAL s)
    | _, None =>
        Go 0 (set_environ
                (filter (fun e => negb (defines name e)) (environ s)) s)
    end.

(** [putenv(string)]: with an '=' the string itself becomes the
    definition of the name before it; without, the name is removed from
    the environment and the call returns 0. *)
Definition putenv (string : list byte) : P state Z :=
  match strchr_eq string with
  | Some i => add_to_environ (firstn i string) string true
  | None => unsetenv string ;;; pret 0
  end.

(** [setenv(name, value, overwrite)] *)
Definition setenv (name value : list byte) (overwrite : Z) : P state Z :=
  match name, strchr_eq name with
  | [], _ | _, Some _ => fun s => Go (-1) (set_errno EINVAL s)
  | _, None =>
      add_to_environ name (name ++ EQUALS :: value) (negb (overwrite =? 0))
  end.

(** [clearenv()] *)
Definition clearenv : P state Z := fun s => Go 0 (set_environ [] s).

(** [puts(line)] *)
Definition puts (line : list byte) : P state Z :=
  fun s =>
    Go 0 (mk_state (environ s) (k_nomem s) (errno s) (out s ++ [line]) (err s)).

(** [exit(status)] *)
Definition exit (status : Z) : P state unit := fun s => Stop status s.

(** Modelled from the spec: [errExit] (error_functions.c is missing), as
    for the server: the message with [errno], and the process ends with
    [EXIT_FAILURE]. *)
Definition errExit (msg : string) : P state unit :=
  fun s =>
    Stop EXIT_FAILURE
         (mk_state (environ s) (k_nomem s) (errno s) (out s)
                   (err s ++ [DErrExit msg (errno s)])).

(** Lines 38-40: [for (j = 1; j < argc; j++)], over [argv[1]] and the
    following. *)
Fixpoint put_args (args : list (list byte)) : P state unit :=
  match args with
  | [] => pret tt
  | a :: args' =>
      r <- putenv (cstr a) ;;
      pwhen (negb (r =? 0)) (errExit (fmt_s "putenv: " a)) ;;;
      put_args args'
  end.

(** Lines 57-58: the loop over [environ] up to its NULL, with [puts] on
    each string. *)
Fixpoint print_env (ep : list (list byte)) : P state unit :=
  match ep with
  | [] => pret tt
  | e :: ep' => puts e ;;; print_env ep'
  end.

Definition GREET : list byte := bytes "GREET".
Definition BYE : list byte := bytes "BYE".
Definition hello : list byte := bytes "Hello world".

(** [main]; [argv] is the argument vector, program name first. *)
Definition main (argv : list (list byte)) : P state unit :=
  clearenv ;;;
  put_args (tl argv) ;;;
  r <- setenv GREET hello 0 ;;
  pwhen (r =? -1) (errExit "setenv") ;;;
  unsetenv BYE ;;;
  (fun s => print_env (environ s) s) ;;;
  exit EXIT_SUCCESS.

(** The variable a string of the form name=value is about, and the name
    of a bare string. *)
Definition name_of (s : list byte) : list byte :=
  match strchr_eq s with
  | Some i => firstn i s
  | None => s
  end.

(** A process that starts with the given environment and a C library
    that never runs out of memory. *)
Definition start (env : list (list byte)) : state :=
  mk_state env [] 0 [] [].

(** What a [putenv] that succeeds makes of the environment. *)
Definition env_put (env : list (list byte)) (a : list byte)
    : list (list byte) :=
  match strchr_eq a with
  | Some i =>
      if existsb (defines (firstn i a)) env
      then replace_first (firstn i a) a env
      else (env ++ [a])%list
  | None =>
      match a with
      | [] => env
      | _ => filter (fun e => negb (defines a e)) env
      end
  end.

(** What [setenv("GREET", "Hello world", 0)] makes of the environment. *)
Definition env_greet (env : list (list byte)) : list (list byte) :=
  if existsb (defines GREET) env then env
  else (env ++ [GREET ++ EQUALS :: hello])%list.

(** The lines the program prints for its arguments when no call fails. *)
Definition printed (args : list (list byte)) : list (list byte) :=
  filter (fun e => negb (defines BYE e))
         (env_greet (fold_left env_put (map cstr args) [])).

End ModifyEnv.

(* ================================================================== *)
(** ** bad_exclusive_open: fileio/bad_exclusive_open.c *)

(** A line on standard error of the two file programs: from [errExit],
    with [errno], or from [usageErr]. *)
Inductive notice : Type :=
| NErrExit (msg : string) (errno : Z)
| NUsage (prog : list byte).

(** [strcmp(a, b) == 0] *)
Definition streq (a b : list byte) : bool := path_eqb (cstr a) (cstr b).

Module BadExclusiveOpen.

Local Open Scope proc_scope.

Definition O_WRONLY : Z := 1.
Definition O_CREAT : Z := 64.
Definition S_IRUSR : Z := 256.
Definition S_IWUSR : Z := 128.

(** Who has created the file. *)
Inductive creator : Type :=
| ThisProcess
| AnotherProcess.

(** The four messages of the program; each is printed with the process
    ID and, but for the third, the file name. *)
Inductive message : Type :=
| AlreadyExists
| NotYet
| DoneSleeping
| CreatedExclusively.

Inductive line : Type :=
| Printed (m : message) (pid : Z).

(** The process and the one file it names.  [file] says whether the file
    named by [argv[1]] exists and who created it.  [k_sched] says, for
    each call of the program in turn, whether another process gets to
    create the file just before the call takes effect; [k_open], for each
    [open] in turn that could succeed, the errno with which it fails if
    it does. *)
Record state : Type := mk_state {
  file : option creator;
  k_sched : list bool;
  k_open : list (option Z);
  pid : Z;
  fds : list Z;
  slept : Z;
  errno : Z;
  out : list line;
  err : list notice
}.

(** The other processes run. *)
Definition others : P state unit :=
  fun s =>
    match k_sched s with
    | [] => Go tt s
    | b :: q =>
        Go tt (mk_state (match file s with
                         | None => if b then Some AnotherProcess else None
                         | Some c => Some c
                         end)
                        q (k_open s) (pid s) (fds s) (slept s) (errno s)
                        (out s) (err s))
    end.

Definition fail (e : Z) : P state Z :=
  fun s =>
    Go (-1) (mk_state (file s) (k_sched s) (k_open s) (pid s) (fds s)
                      (slept s) e (out s) (err s)).

(** The descriptor that the next [open] returns. *)
Definition next_fd (fds : list Z) : Z := 3 + Z.of_nat (List.length fds).

Arguments next_fd : simpl never.

(** An [open] that has found or made its file: the next answer of
    [k_open] decides whether it fails; the descriptor is a new one. *)
Definition grant (f : option creator) : P state Z :=
  fun s =>
    match k_open s with
    | Some e :: q =>
        Go (-1) (mk_state (file s) (k_sched s) q (pid s) (fds s) (slept s) e
                          (out s) (err s))
    | None :: q =>
        Go (next_fd (fds s))
           (mk_state f (k_sched s) q (pid s)
                     ((next_fd (fds s)) :: fds s)
                     (slept s) (errno s) (out s) (err s))
    | [] =>
        Go (next_fd (fds s))
           (mk_state f (k_sched s) [] (pid s)
                     ((next_fd (fds s)) :: fds s)
                     (slept s) (errno s) (out s) (err s))
    end.

(** [open(path, flags, mode)] on the file of the program: a file that
    exists is opened; one that does not is created when [O_CREAT] is
    among the flags, and gives ENOENT when it is not. *)
Definition open (path : list byte) (flags mode : Z) : P state Z :=
  others ;;;
  (fun s =>
     match file s with
     | Some c => grant (Some c) s
     | None =>
         if Z.testbit flags 6 then grant (Some ThisProcess) s
         else fail ENOENT s
     end).

(** [close(fd)] *)
Definition close (fd : Z) : P state Z :=
  others ;;;
  (fun s =>
     Go 0 (mk_state (file s) (k_sched s) (k_open s) (pid s)
                    (filter (fun k => negb (k =? fd)) (fds s))
                    (slept s) (errno s) (out s) (err s))).

(** [sleep(seconds)] *)
Definition sleep (seconds : Z) : P state Z :=
  others ;;;
  (fun s =>
     Go 0 (mk_state (file s) (k_sched s) (k_open s) (pid s) (fds s)
                    (slept s + seconds) (errno s) (out s) (err s))).

(** [printf] of one of the messages with [(long) getpid()]. *)
Definition printf (m : message) : P state unit :=
  fun s =>
    Go tt (mk_state (file s) (k_sched s) (k_open s) (pid s) (fds s)
                    (slept s) (errno s) (out s ++ [Printed m (pid s)]) (err s)).

Definition get_errno : P state Z := fun s => Go (errno s) s.

Definition exit (status : Z) : P state unit := fun s => Stop status s.

(** Modelled from the spec: [errExit] (error_functions.c is missing), as
    for the server. *)
Definition errExit (msg : string) : P state unit :=
  fun s =>
    Stop EXIT_FAILURE
         (mk_state (file s) (k_sched s) (k_open s) (pid s) (fds s) (slept s)
                   (errno s) (out s) (err s ++ [NErrExit msg (errno s)])).

(** [usageErr] is defined in the missing error_functions.c too, and
    nothing describes it; it is taken here to print the usage line for
    the program name and to end the process with [EXIT_FAILURE].  Every
    property below is about runs that do not call it. *)
Definition usageErr (prog : list byte) : P state unit :=
  fun s =>
    Stop EXIT_FAILURE
         (mk_state (file s) (k_sched s) (k_open s) (pid s) (fds s) (slept s)
                   (errno s) (out s) (err s ++ [NUsage prog])).

(** [argv[j]] *)
Definition arg (argv : list (list byte)) (j : nat) : list byte :=
  nth j argv [].

(** [main] *)
Definition main (argv : list (list byte)) : P state unit :=
  let argc := Z.of_nat (List.length argv) in
  pwhen ((argc <? 2) || streq (arg argv 1) (bytes "--help"))
        (usageErr (arg argv 0)) ;;;
  fd <- open (arg argv 1) O_WRONLY 0 ;;
  (if negb (fd =? -1) then
     printf AlreadyExists ;;;
     close fd ;;;
     pret tt
   else
     e <- get_errno ;;
     if negb (e =? ENOENT) then errExit "open"
     else
       printf NotYet ;;;
       pwhen (argc >? 2) (sleep 5 ;;; printf DoneSleeping) ;;;
       fd <- open (arg argv 1) (Z.lor O_WRONLY O_CREAT) (Z.lor S_IRUSR S_IWUSR) ;;
       pwhen (fd =? -1) (errExit "open") ;;;
       printf CreatedExclusively) ;;;
  exit EXIT_SUCCESS.

(** Did another process get to create the file at one of the first
    [n] calls to come? *)
Definition raced (n : nat) (sched : list bool) : bool :=
  existsb (fun b => b) (firstn n sched).

End BadExclusiveOpen.

(* ================================================================== *)
(** ** t_readv: fileio/t_readv.c *)

Module TReadv.

Local Open Scope proc_scope.

Definition O_RDONLY : Z := 0.

(** [#define STR_SIZE 100] (line 37) and [sizeof(int)]. *)
Definition STR_SIZE : nat := 100.
Definition INT_SIZE : nat := 4.

(** [struct iovec]: the buffer, by its number among the three of the
    program, and its length. *)
Record iovec : Type := mk_iovec {
  iov_base : nat;
  iov_len : nat
}.

Inductive line : Type :=
| Fewer
| Totals (requested read : Z).

(** The process: the bytes of the file named by [argv[1]], or the errno
    with which it cannot be opened; the errno with which [readv] fails,
    if it does; a limit on what one [readv] delivers, if there is one;
    the three buffers [myStruct], [x] and [str], as bytes; [errno];
    standard output and standard error. *)
Record state : Type := mk_state {
  file : list byte + Z;
  k_readv : option Z;
  k_deliver : option nat;
  bufs : list (list byte);
  opened : bool;
  errno : Z;
  out : list line;
  err : list notice
}.

(** [open(path, O_RDONLY)] *)
Definition open (path : list byte) (flags : Z) : P state Z :=
  fun s =>
    match file s with
    | inl _ =>
        Go 3 (mk_state (file s) (k_readv s) (k_deliver s) (bufs s) true
                       (errno s) (out s) (err s))
    | inr e =>
        Go (-1) (mk_state (file s) (k_readv s) (k_deliver s) (bufs s)
                          (opened s) e (out s) (err s))
    end.

(** [data] stored at the start of [buf]. *)
Definition store (data buf : list byte) : list byte :=
  data ++ skipn (List.length data) buf.

(** The bytes [data] scattered over the buffers named by [iov], each
    filled up to its [iov_len] before the next is touched. *)
Fixpoint scatter (data : list byte) (iov : list iovec)
    (mem : list (list byte)) : list (list byte) :=
  match iov with
  | [] => mem
  | v :: iov' =>
      let part := firstn (iov_len v) data in
      scatter (skipn (iov_len v) data) iov'
              (firstn (iov_base v) mem
                 ++ store part (nth (iov_base v) mem [])
                 :: skipn (S (iov_base v)) mem)
  end.

Definition total (iov : list iovec) : nat :=
  fold_right (fun v n => (iov_len v + n)%nat) O iov.

(** [readv(fd, iov, iovcnt)] on the file, read from its start. *)
Definition readv (fd : Z) (iov : list iovec) : P state Z :=
  fun s =>
    match file s, k_readv s with
    | inl content, None =>
        if opened s && (fd =? 3) then
          let want := match k_deliver s with
                      | Some k => Nat.min k (total iov)
                      | None => total iov
                      end in
          let data := firstn want content in
          Go (Z.of_nat (List.length data))
             (mk_state (file s) (k_readv s) (k_deliver s)
                       (scatter data iov (bufs s)) (opened s) (errno s)
                       (out s) (err s))
        else
          Go (-1) (mk_state (file s) (k_readv s) (k_deliver s) (bufs s)
                            (opened s) EBADF (out s) (err s))
    | _, Some e =>
        Go (-1) (mk_state (file s) (k_readv s) (k_deliver s) (bufs s)
                          (opened s) e (out s) (err s))
    | inr _, None =>
        Go (-1) (mk_state (file s) (k_readv s) (k_deliver s) (bufs s)
                          (opened s) EBADF (out s) (err s))
    end.

Definition printf (l : line) : P state unit :=
  fun s =>
    Go tt (mk_state (file s) (k_readv s) (k_deliver s) (bufs s) (opened s)
                    (errno s) (out s ++ [l]) (err s)).

Definition exit (status : Z) : P state unit := fun s => Stop status s.

(** Modelled from the spec: [errExit] (error_functions.c is missing), as
    for the server. *)
Definition errExit (msg : string) : P state unit :=
  fun s =>
    Stop EXIT_FAILURE
         (mk_state (file s) (k_readv s) (k_deliver s) (bufs s) (opened s)
                   (errno s) (out s) (err s ++ [NErrExit msg (errno s)])).

(** [usageErr] is defined in the missing error_functions.c too, and
    nothing describes it; it is taken here to print the usage line for
    the program name and to end the process with [EXIT_FAILURE].  Every
    property below is about runs that do not call it. *)
Definition usageErr (prog : list byte) : P state unit :=
  fun s =>
    Stop EXIT_FAILURE
         (mk_state (file s) (k_readv s) (k_deliver s) (bufs s) (opened s)
                   (errno s) (out s) (err s ++ [NUsage prog])).

Definition arg (argv : list (list byte)) (j : nat) : list byte :=
  nth j argv [].

(** Lines 48-60: the three entries of [iov], for [myStruct] (buffer 0),
    [x] (buffer 1) and [str] (buffer 2).  [STAT_SIZE] is
    [sizeof(struct stat)], a constant of the platform. *)
Definition iov (STAT_SIZE : nat) : list iovec :=
  [mk_iovec 0 STAT_SIZE; mk_iovec 1 INT_SIZE; mk_iovec 2 STR_SIZE].

(** Lines 48-60: [totRequired], summed up entry by entry. *)
Definition totRequired (STAT_SIZE : nat) : Z :=
  0 + Z.of_nat STAT_SIZE + Z.of_nat INT_SIZE + Z.of_nat STR_SIZE.

(** [main] *)
Definition main (STAT_SIZE : nat) (argv : list (list byte)) : P state unit :=
  let argc := Z.of_nat (List.length argv) in
  pwhen (negb (argc =? 2) || streq (arg argv 1) (bytes "--help"))
        (usageErr (arg argv 0)) ;;;
  fd <- open (arg argv 1) O_RDONLY ;;
  pwhen (fd =? -1) (errExit "open") ;;;
  numRead <- readv fd (iov STAT_SIZE) ;;
  pwhen (numRead =? -1) (errExit "readv") ;;;
  pwhen (numRead <? totRequired STAT_SIZE) (printf Fewer) ;;;
  printf (Totals (totRequired STAT_SIZE) numRead) ;;;
  exit EXIT_SUCCESS.

(** What one [readv] of the program is given: at most [k_deliver] bytes
    if that limit is set, at most the total of the three lengths, and at
    most what the file holds. *)
Definition delivered (STAT_SIZE : nat) (s : state) (content : list byte)
  : list byte :=
  firstn (match k_deliver s with
          | Some k => Nat.min k (total (iov STAT_SIZE))
          | None => total (iov STAT_SIZE)
          end) content.

(** The call of [main] that fails in [s], if one does, and its errno. *)
Definition failing (s : state) : option (string * Z) :=
  match file s, k_readv s with
  | inr e, _ => Some ("open", e)
  | inl _, Some e => Some ("readv", e)
  | inl _, None => None
  end.

End TReadv.

Section Server.

(** [BUF_SIZE] and [SV_SOCK_PATH] are macros of us_xfr.h, which is not
    among the sources; [SUN_PATH_SIZE] is [sizeof(addr.sun_path)], a
    constant of the platform (the size of an array, so at least 1). *)
Variable BUF_SIZE : nat.
Variable SV_SOCK_PATH : list byte.
Variable SUN_PATH_SIZE : nat.

(** Line 52: [memset(&addr, 0, sizeof(struct sockaddr_un))].  [addr0] is
    what the automatic variable [addr] holds on entry. *)
Definition memset_addr (addr0 : sockaddr_un) : sockaddr_un :=
  mk_sockaddr_un 0 (repeat NUL SUN_PATH_SIZE).

(** Lines 52-54: the address handed to [bind]: the [memset], the
    assignment of [sun_family], and
    [strncpy(addr.sun_path, SV_SOCK_PATH, sizeof(addr.sun_path) - 1)]. *)
Definition server_addr (addr0 : sockaddr_un) : sockaddr_un :=
  let addr := memset_addr addr0 in
  let addr := mk_sockaddr_un AF_UNIX (sun_path addr) in
  mk_sockaddr_un (sun_family addr)
    (strncpy (sun_path addr) SV_SOCK_PATH (SUN_PATH_SIZE - 1)).

(** Line 45: [strlen(SV_SOCK_PATH) > sizeof(addr.sun_path) - 1].  The
    size of an array is at least 1, so the subtraction does not wrap. *)
Definition path_too_long : bool :=
  (SUN_PATH_SIZE - 1 <? strlen SV_SOCK_PATH)%nat.

(** Lines 35-60: everything before the [for] loop; returns [sfd]. *)
Definition setup (addr0 : sockaddr_un) : M Z :=
  sfd <- sys_socket AF_UNIX SOCK_STREAM 0 ;;
  when (sfd =? -1) (errExit "socket") ;;;
  when path_too_long
       (fatal (fmt_s "Server socket path too long: " SV_SOCK_PATH)) ;;;
  r <- sys_remove SV_SOCK_PATH ;;
  e <- get_errno ;;
  when ((r =? -1) && negb (e =? ENOENT))
       (errExit (fmt_s "remove-" SV_SOCK_PATH)) ;;;
  r <- sys_bind sfd (server_addr addr0) ;;
  when (r =? -1) (errExit "bind") ;;;
  r <- sys_listen sfd BACKLOG ;;
  when (r =? -1) (errExit "listen") ;;;
  ret sfd.

(** Lines 74-76: the [while] loop; returns the [numRead] that ended it
    and the buffer. *)
Fixpoint transfer (fuel : nat) (cfd : Z) (buf : list byte)
    : M (Z * list byte) :=
  match fuel with
  | O => fun w => Fuel w
  | S fuel' =>
      '(numRead, buf) <- sys_read cfd buf BUF_SIZE ;;
      if numRead >? 0 then
        n <- sys_write STDOUT_FILENO buf (Z.to_nat numRead) ;;
        when (negb (n =? numRead)) (fatal "partial/failed write") ;;;
        transfer fuel' cfd buf
      else ret (numRead, buf)
  end.

(** Lines 68-82: the body of the [for] loop, one connection. *)
Definition serve (fuel : nat) (sfd : Z) (buf : list byte) : M (list byte) :=
  cfd <- sys_accept sfd ;;
  when (cfd =? -1) (errExit "accept") ;;;
  '(numRead, buf) <- transfer fuel cfd buf ;;
  when (numRead =? -1) (errExit "read") ;;;
  r <- sys_close cfd ;;
  when (r =? -1) (errMsg "close") ;;;
  ret buf.

(** Line 62: [for (;;)] *)
Fixpoint accept_loop (fuel : nat) (sfd : Z) (buf : list byte) : M unit :=
  match fuel with
  | O => fun w => Fuel w
  | S fuel' =>
      buf <- serve fuel' sfd buf ;;
      accept_loop fuel' sfd buf
  end.

(** [main]; [buf0] is the content of the automatic array [buf] on
    entry. *)
Definition main (fuel : nat) (addr0 : sockaddr_un) (buf0 : list byte)
    : M unit :=
  sfd <- setup addr0 ;;
  accept_loop fuel sfd buf0.

Local Close Scope string_scope.


(* ================================================================== *)
(** ** What each call leaves in the trace and on standard error *)

Lemma firstn_own_length (d x : list byte) :
  firstn (Z.to_nat (Z.of_nat (List.length d))) (d ++ x) = d.
Proof.
  rewrite Nat2Z.id, firstn_app, firstn_all, Nat.sub_diag.
  simpl. apply app_nil_r.
Qed.

Lemma sys_read_shape (fd : Z) (buf : list byte) (count : nat) (w : world) :
  match sys_read fd buf count w with
  | Ret (n, buf') w' =>
      exists d, w_trace w' = w_trace w ++ [EvRead fd count n d]
                /\ w_stderr w' = w_stderr w
                /\ w_stdout w' = w_stdout w
                /\ (n = -1 \/ n = 0
                    \/ (0 < n /\ n = Z.of_nat (List.length d)
                        /\ firstn (Z.to_nat n) buf' = d /\ d <> []
                        /\ (List.length d <= count)%nat))
  | Blocked w' => w' = w
  | _ => False
  end.
Proof.
  unfold sys_read.
  destruct (fd_lookup fd (w_fds w)) as [[|c]|]; simpl;
    try (exists []; repeat split; auto).
  destruct count as [|k].
  { exists []; repeat split; auto. }
  destruct (c_reads c) as [|[b bs|e] rest].
  - destruct (c_shutdown c); simpl; auto.
    exists []; repeat split; auto.
  - remember (firstn (S k) (b :: bs)) as d eqn:Hd.
    exists d. cbn [w_trace w_stderr w_stdout log_event set_fds].
    repeat split; auto.
    right; right.
    assert (Hne : d <> []) by (subst d; simpl; discriminate).
    repeat split; auto.
    + destruct d; [congruence | simpl; lia].
    + apply firstn_own_length.
    + subst d. rewrite length_firstn. lia.
  - exists []; repeat split; auto.
Qed.

Lemma sys_write_shape (fd : Z) (buf : list byte) (count : nat) (w : world) :
  exists r w',
    sys_write fd buf count w = Ret r w'
    /\ w_trace w' = w_trace w ++ [EvWrite fd (firstn count buf) r]
    /\ w_stderr w' = w_stderr w.
Proof.
  unfold sys_write, sys_done, sys_fail.
  destruct (fd =? STDOUT_FILENO); [destruct (k_stdout w) as [|[|k|e] q]|];
    eexists; eexists; repeat split; reflexivity.
Qed.

Lemma sys_accept_shape (fd : Z) (w : world) :
  match sys_accept fd w with
  | Ret r w' => w_trace w' = w_trace w ++ [EvAccept fd r]
                /\ w_stderr w' = w_stderr w
  | Blocked w' => w' = w
  | _ => False
  end.
Proof.
  unfold sys_accept, sys_done, sys_fail.
  destruct (fd_lookup fd (w_fds w)) as [[|c]|]; simpl; auto.
  destruct (k_accept w) as [|[e|c] q]; simpl; auto.
Qed.

Lemma sys_close_shape (fd : Z) (w : world) :
  exists r w',
    sys_close fd w = Ret r w'
    /\ w_trace w' = w_trace w ++ [EvClose fd r]
    /\ w_stderr w' = w_stderr w
    /\ w_stdout w' = w_stdout w
    /\ k_accept w' = k_accept w
    /\ k_stdout w' = k_stdout w.
Proof.
  unfold sys_close, sys_done, sys_fail.
  destruct (fd_lookup fd (w_fds w)) as [[|c]|];
    [ | destruct (c_close c) | ];
    eexists; eexists; repeat split; reflexivity.
Qed.

(** *** Clean and fatal events *)

Lemma clean_app (l1 l2 : list event) :
  clean (l1 ++ l2) <-> clean l1 /\ clean l2.
Proof.
  unfold clean. rewrite forallb_app, andb_true_iff. tauto.
Qed.

Lemma clean_nil : clean [].
Proof. reflexivity. Qed.

Lemma clean_one (e : event) : fatal_ev e = false -> clean [e].
Proof. unfold clean. simpl. intros ->. reflexivity. Qed.

Lemma fatal_is_last (p post c : list event) (e f : event) :
  clean c -> fatal_ev e = true ->
  p ++ e :: post = c ++ [f] ->
  post = [] /\ p = c /\ e = f.
Proof.
  intros Hc He Heq.
  destruct post as [|y post].
  - apply (app_inj_tail p c e f) in Heq. tauto.
  - exfalso.
    destruct (exists_last (l := y :: post)) as [l2 [z Hz]]; [discriminate|].
    rewrite Hz in Heq.
    change (p ++ e :: l2 ++ [z]) with (p ++ (e :: l2) ++ [z]) in Heq.
    rewrite app_assoc in Heq.
    apply app_inj_tail in Heq. destruct Heq as [Heq _].
    subst c. apply clean_app in Hc. destruct Hc as [_ Hc].
    unfold clean in Hc. simpl in Hc. rewrite He in Hc. discriminate.
Qed.

Lemma fatal_not_clean (p post : list event) (e : event) :
  fatal_ev e = true -> ~ clean (p ++ e :: post).
Proof.
  intros He Hc. apply clean_app in Hc. destruct Hc as [_ Hc].
  unfold clean in Hc. simpl in Hc. rewrite He in Hc. discriminate.
Qed.

(** *** The loops, one iteration at a time *)

Lemma transfer_S (fuel : nat) (cfd : Z) (buf : list byte) (w : world) :
  transfer (S fuel) cfd buf w =
  match sys_read cfd buf BUF_SIZE w with
  | Ret (n, b) w1 =>
      if n >? 0 then
        match sys_write STDOUT_FILENO b (Z.to_nat n) w1 with
        | Ret r w2 =>
            if r =? n then transfer fuel cfd b w2
            else Exit EXIT_FAILURE
                      (put_stderr (DFatal "partial/failed write") w2)
        | Exit s w2 => Exit s w2
        | Blocked w2 => Blocked w2
        | Fuel w2 => Fuel w2
        end
      else Ret (n, b) w1
  | Exit s w1 => Exit s w1
  | Blocked w1 => Blocked w1
  | Fuel w1 => Fuel w1
  end.
Proof.
  cbn [transfer]. unfold bind.
  destruct (sys_read cfd buf BUF_SIZE w) as [[n b] w1| | |]; auto.
  destruct (n >? 0); auto.
  destruct (sys_write STDOUT_FILENO b (Z.to_nat n) w1); auto.
  unfold when. destruct (a =? n); reflexivity.
Qed.

Lemma serve_eq (fuel : nat) (sfd : Z) (buf : list byte) (w : world) :
  serve fuel sfd buf w =
  match sys_accept sfd w with
  | Ret cfd w1 =>
      if cfd =? -1
      then Exit EXIT_FAILURE (put_stderr (DErrExit "accept" (w_errno w1)) w1)
      else
        match transfer fuel cfd buf w1 with
        | Ret (n, b) w2 =>
            if n =? -1
            then Exit EXIT_FAILURE
                      (put_stderr (DErrExit "read" (w_errno w2)) w2)
            else
              match sys_close cfd w2 with
              | Ret r w3 =>
                  if r =? -1
                  then Ret b (put_stderr (DErrMsg "close" (w_errno w3)) w3)
                  else Ret b w3
              | Exit s w3 => Exit s w3
              | Blocked w3 => Blocked w3
              | Fuel w3 => Fuel w3
              end
        | Exit s w2 => Exit s w2
        | Blocked w2 => Blocked w2
        | Fuel w2 => Fuel w2
        end
  | Exit s w1 => Exit s w1
  | Blocked w1 => Blocked w1
  | Fuel w1 => Fuel w1
  end.
Proof.
  unfold serve, bind.
  destruct (sys_accept sfd w) as [cfd w1| | |]; auto.
  unfold when. destruct (cfd =? -1); auto. unfold ret at 1.
  destruct (transfer fuel cfd buf w1) as [[n b] w2| | |]; auto.
  destruct (n =? -1); auto. unfold ret at 1.
  destruct (sys_close cfd w2) as [r w3| | |]; auto.
  destruct (r =? -1); reflexivity.
Qed.

Lemma accept_loop_S (fuel : nat) (sfd : Z) (buf : list byte) (w : world) :
  accept_loop (S fuel) sfd buf w =
  match serve fuel sfd buf w with
  | Ret b w1 => accept_loop fuel sfd b w1
  | Exit s w1 => Exit s w1
  | Blocked w1 => Blocked w1
  | Fuel w1 => Fuel w1
  end.
Proof. reflexivity. Qed.

(** *** The shape of every run of the loops *)

Lemma transfer_shape (fuel : nat) :
  forall (cfd : Z) (buf : list byte) (w : world),
  exists evs,
    w_trace (final (transfer fuel cfd buf w)) = w_trace w ++ evs
    /\ match transfer fuel cfd buf w with
       | Ret (n, _) w' =>
           (n = 0 /\ clean evs)
           \/ (n = -1 /\ exists pre d,
                 evs = pre ++ [EvRead cfd BUF_SIZE (-1) d] /\ clean pre)
       | Exit _ _ => aborted BUF_SIZE (transfer fuel cfd buf w) evs
       | _ => clean evs
       end.
Proof.
  induction fuel as [|fuel IH]; intros cfd buf w.
  { exists []. simpl. rewrite app_nil_r. split; [reflexivity | apply clean_nil]. }
  rewrite transfer_S.
  pose proof (sys_read_shape cfd buf BUF_SIZE w) as Hr.
  destruct (sys_read cfd buf BUF_SIZE w) as [[n buf1] w1| | w1 |]; try contradiction.
  2:{ subst w1. exists []. simpl. rewrite app_nil_r.
      split; [reflexivity | apply clean_nil]. }
  destruct Hr as [d [Htr [Herr [Hout Hn]]]].
  destruct (n >? 0) eqn:Hpos.
  - (* a chunk was read *)
    destruct Hn as [Hn | [Hn | [_ [Hn [Hbuf [Hne Hle]]]]]];
      try (subst n; discriminate).
    destruct (sys_write_shape STDOUT_FILENO buf1 (Z.to_nat n) w1)
      as [r [w2 [Hw [Htr2 Herr2]]]].
    rewrite Hw, Hbuf in *. clear Hw.
    destruct (r =? n) eqn:Hrn.
    + (* the write took everything: next iteration *)
      apply Z.eqb_eq in Hrn. subst r.
      destruct (IH cfd buf1 w2) as [evs [Hevs Hsh]].
      exists ([EvRead cfd BUF_SIZE n d; EvWrite STDOUT_FILENO d n] ++ evs).
      split.
      { rewrite Hevs, Htr2, Htr, <- !app_assoc. reflexivity. }
      assert (Hc2 : clean [EvRead cfd BUF_SIZE n d; EvWrite STDOUT_FILENO d n]).
      { unfold clean. simpl. rewrite Hn at 2. rewrite Z.eqb_refl.
        replace (n =? -1) with false by (symmetry; apply Z.eqb_neq; lia).
        reflexivity. }
      destruct (transfer fuel cfd buf1 w2) as [[n' b'] w3 | s w3 | w3 | w3].
      * destruct Hsh as [[H0 Hc] | [H1 [pre [d' [He Hc]]]]].
        -- left. split; [assumption | apply clean_app; auto].
        -- right. split; [assumption|].
           exists ([EvRead cfd BUF_SIZE n d; EvWrite STDOUT_FILENO d n] ++ pre), d'.
           split; [rewrite He, app_assoc; reflexivity | apply clean_app; auto].
      * destruct Hsh as [pre [tail [dg [ds [He [Hc [Hf [Ho Hs]]]]]]]].
        exists ([EvRead cfd BUF_SIZE n d; EvWrite STDOUT_FILENO d n] ++ pre),
               tail, dg, ds.
        repeat split; auto.
        -- rewrite He, app_assoc. reflexivity.
        -- apply clean_app; auto.
      * apply clean_app; auto.
      * apply clean_app; auto.
    + (* short or failed write *)
      apply Z.eqb_neq in Hrn.
      cbn [final].
      exists [EvRead cfd BUF_SIZE n d; EvWrite STDOUT_FILENO d r].
      split.
      { cbn [w_trace put_stderr]. rewrite Htr2, Htr, <- app_assoc. reflexivity. }
      exists [], [EvRead cfd BUF_SIZE n d; EvWrite STDOUT_FILENO d r],
             (DFatal "partial/failed write"), (w_stderr w2).
      repeat split; auto; try apply clean_nil.
      rewrite Hn. apply end_write; [assumption | congruence].
  - (* end of file or error: the loop ends *)
    cbn [final].
    exists [EvRead cfd BUF_SIZE n d]. split; [assumption|].
    destruct Hn as [Hn | [Hn | [Hn _]]].
    + right. split; [assumption|]. exists [], d. subst n.
      split; [reflexivity | apply clean_nil].
    + left. split; [assumption|]. subst n. apply clean_one. reflexivity.
    + rewrite Z.gtb_ltb in Hpos. apply Z.ltb_ge in Hpos. lia.
Qed.

Lemma serve_shape (fuel : nat) (sfd : Z) (buf : list byte) (w : world) :
  exists evs,
    w_trace (final (serve fuel sfd buf w)) = w_trace w ++ evs
    /\ match serve fuel sfd buf w with
       | Exit _ _ => aborted BUF_SIZE (serve fuel sfd buf w) evs
       | _ => clean evs
       end.
Proof.
  rewrite serve_eq.
  pose proof (sys_accept_shape sfd w) as Ha.
  destruct (sys_accept sfd w) as [cfd w1| | w1 |]; try contradiction.
  2:{ subst w1. exists []. simpl. rewrite app_nil_r.
      split; [reflexivity | apply clean_nil]. }
  destruct Ha as [Htr1 Herr1].
  destruct (cfd =? -1) eqn:Hcfd.
  { apply Z.eqb_eq in Hcfd. subst cfd.
    exists [EvAccept sfd (-1)]. split; [assumption|].
    exists [], [EvAccept sfd (-1)], (DErrExit "accept" (w_errno w1)), (w_stderr w1).
    repeat split; auto; try apply clean_nil. apply end_accept. }
  destruct (transfer_shape fuel cfd buf w1) as [evs [Htr2 Hsh]].
  assert (Hacc : clean [EvAccept sfd cfd]).
  { apply clean_one. simpl. assumption. }
  destruct (transfer fuel cfd buf w1) as [[n b] w2 | s w2 | w2 | w2];
    cbn [final] in *.
  - destruct (n =? -1) eqn:Hn.
    + destruct Hsh as [[H0 _] | [_ [pre [d [He Hc]]]]].
      { subst n. discriminate. }
      exists ([EvAccept sfd cfd] ++ evs). split.
      { cbn [final w_trace put_stderr]. rewrite Htr2, Htr1, <- app_assoc.
        reflexivity. }
      exists ([EvAccept sfd cfd] ++ pre), [EvRead cfd BUF_SIZE (-1) d],
             (DErrExit "read" (w_errno w2)), (w_stderr w2).
      repeat split; auto.
      * rewrite He, app_assoc. reflexivity.
      * apply clean_app; auto.
      * apply end_read.
    + destruct Hsh as [[H0 Hc] | [H1 _]].
      2:{ subst n. discriminate. }
      destruct (sys_close_shape cfd w2) as [r [w3 [Hcl [Htr3 _]]]].
      rewrite Hcl.
      exists ([EvAccept sfd cfd] ++ evs ++ [EvClose cfd r]).
      split.
      { destruct (r =? -1); cbn [final w_trace put_stderr];
          rewrite Htr3, Htr2, Htr1, <- !app_assoc; reflexivity. }
      assert (clean ([EvAccept sfd cfd] ++ evs ++ [EvClose cfd r])).
      { apply clean_app; split; auto. apply clean_app; split; auto.
        apply clean_one. reflexivity. }
      destruct (r =? -1); assumption.
  - destruct Hsh as [pre [tail [dg [ds [He [Hc [Hf [Ho Hs]]]]]]]].
    exists ([EvAccept sfd cfd] ++ evs). split.
    { rewrite Htr2, Htr1, <- app_assoc. reflexivity. }
    exists ([EvAccept sfd cfd] ++ pre), tail, dg, ds.
    cbn [final] in *. injection Ho as ->.
    repeat split; auto.
    + rewrite He, app_assoc. reflexivity.
    + apply clean_app; auto.
  - exists ([EvAccept sfd cfd] ++ evs). split.
    { rewrite Htr2, Htr1, <- app_assoc. reflexivity. }
    apply clean_app; auto.
  - exists ([EvAccept sfd cfd] ++ evs). split.
    { rewrite Htr2, Htr1, <- app_assoc. reflexivity. }
    apply clean_app; auto.
Qed.

Lemma accept_loop_shape (fuel : nat) :
  forall (sfd : Z) (buf : list byte) (w : world),
  exists evs,
    w_trace (final (accept_loop fuel sfd buf w)) = w_trace w ++ evs
    /\ match accept_loop fuel sfd buf w with
       | Ret _ _ => False
       | Exit _ _ => aborted BUF_SIZE (accept_loop fuel sfd buf w) evs
       | _ => clean evs
       end.
Proof.
  induction fuel as [|fuel IH]; intros sfd buf w.
  { exists []. simpl. rewrite app_nil_r. split; [reflexivity | apply clean_nil]. }
  rewrite accept_loop_S.
  destruct (serve_shape fuel sfd buf w) as [evs [Htr Hsh]].
  destruct (serve fuel sfd buf w) as [b w1 | s w1 | w1 | w1];
    cbn [final] in *; try (exists evs; split; assumption).
  2:{ exists evs. split; [assumption|].
      destruct Hsh as [pre [tail [dg [ds [He [Hc [Hf [Ho Hs]]]]]]]].
      exists pre, tail, dg, ds. cbn [final] in *. injection Ho as ->.
      repeat split; auto. }
  destruct (IH sfd b w1) as [evs2 [Htr2 Hsh2]].
  exists (evs ++ evs2). split.
  { rewrite Htr2, Htr, <- app_assoc. reflexivity. }
  destruct (accept_loop fuel sfd b w1) as [u w2 | s w2 | w2 | w2];
    try contradiction; try (apply clean_app; auto).
  destruct Hsh2 as [pre [tail [dg [ds [He [Hc [Hf [Ho Hs]]]]]]]].
  exists (evs ++ pre), tail, dg, ds.
  cbn [final] in *.
  repeat split; auto.
  - rewrite He, app_assoc. reflexivity.
  - apply clean_app; auto.
Qed.

(** *** The set-up, call by call *)

Lemma sys_socket_shape (d t p : Z) (w : world) :
  exists r w',
    sys_socket d t p w = Ret r w'
    /\ w_trace w' = w_trace w ++ [EvSocket d t p r]
    /\ w_fs w' = w_fs w.
Proof.
  unfold sys_socket, sys_done, sys_fail.
  destruct (k_socket w); eexists; eexists; repeat split; reflexivity.
Qed.

Lemma sys_remove_shape (path : list byte) (w : world) :
  exists r w',
    sys_remove path w = Ret r w'
    /\ w_trace w' = w_trace w ++ [EvRemove (cstr path) r].
Proof.
  unfold sys_remove, sys_done, sys_fail.
  destruct (fs_mem (cstr path) (w_fs w)); [destruct (k_remove w)|];
    eexists; eexists; repeat split; reflexivity.
Qed.

Lemma sys_bind_shape (fd : Z) (addr : sockaddr_un) (w : world) :
  exists r w',
    sys_bind fd addr w = Ret r w'
    /\ w_trace w' = w_trace w ++ [EvBind fd addr r].
Proof.
  unfold sys_bind, sys_done, sys_fail.
  destruct (fd_lookup fd (w_fds w)) as [[|c]|];
    [destruct (fs_mem (cstr (sun_path addr)) (w_fs w)); [|destruct (k_bind w)]| |];
    eexists; eexists; repeat split; reflexivity.
Qed.

Lemma sys_listen_shape (fd backlog : Z) (w : world) :
  exists r w',
    sys_listen fd backlog w = Ret r w'
    /\ w_trace w' = w_trace w ++ [EvListen fd backlog r].
Proof.
  unfold sys_listen, sys_done, sys_fail.
  destruct (fd_lookup fd (w_fds w)) as [[|c]|];
    [destruct (k_listen w)| |];
    eexists; eexists; repeat split; reflexivity.
Qed.

Lemma setup_eq (addr0 : sockaddr_un) (w : world) :
  setup addr0 w =
  match sys_socket AF_UNIX SOCK_STREAM 0 w with
  | Ret sfd w1 =>
      if sfd =? -1
      then Exit EXIT_FAILURE (put_stderr (DErrExit "socket" (w_errno w1)) w1)
      else if path_too_long
      then Exit EXIT_FAILURE
                (put_stderr
                   (DFatal (fmt_s "Server socket path too long: " SV_SOCK_PATH))
                   w1)
      else
        match sys_remove SV_SOCK_PATH w1 with
        | Ret r w2 =>
            if (r =? -1) && negb (w_errno w2 =? ENOENT)
            then Exit EXIT_FAILURE
                      (put_stderr
                         (DErrExit (fmt_s "remove-" SV_SOCK_PATH) (w_errno w2))
                         w2)
            else
              match sys_bind sfd (server_addr addr0) w2 with
              | Ret r3 w3 =>
                  if r3 =? -1
                  then Exit EXIT_FAILURE
                            (put_stderr (DErrExit "bind" (w_errno w3)) w3)
                  else
                    match sys_listen sfd BACKLOG w3 with
                    | Ret r4 w4 =>
                        if r4 =? -1
                        then Exit EXIT_FAILURE
                                  (put_stderr (DErrExit "listen" (w_errno w4)) w4)
                        else Ret sfd w4
                    | Exit s w4 => Exit s w4
                    | Blocked w4 => Blocked w4
                    | Fuel w4 => Fuel w4
                    end
              | Exit s w3 => Exit s w3
              | Blocked w3 => Blocked w3
              | Fuel w3 => Fuel w3
              end
        | Exit s w2 => Exit s w2
        | Blocked w2 => Blocked w2
        | Fuel w2 => Fuel w2
        end
  | Exit s w1 => Exit s w1
  | Blocked w1 => Blocked w1
  | Fuel w1 => Fuel w1
  end.
Proof.
  unfold setup, bind, when, get_errno.
  destruct (sys_socket AF_UNIX SOCK_STREAM 0 w) as [sfd w1| | |]; auto.
  destruct (sfd =? -1); auto. unfold ret at 1.
  destruct path_too_long; auto. unfold ret at 1.
  destruct (sys_remove SV_SOCK_PATH w1) as [r w2| | |]; auto.
  destruct ((r =? -1) && negb (w_errno w2 =? ENOENT)); auto. unfold ret at 1.
  destruct (sys_bind sfd (server_addr addr0) w2) as [r3 w3| | |]; auto.
  destruct (r3 =? -1); auto. unfold ret at 1.
  destruct (sys_listen sfd BACKLOG w3) as [r4 w4| | |]; auto.
  destruct (r4 =? -1); auto.
Qed.

(** The set-up makes none of the calls of the loop, and when it ends the
    process the status is [EXIT_FAILURE]. *)
Lemma setup_shape (addr0 : sockaddr_un) (w : world) :
  exists evs,
    w_trace (final (setup addr0 w)) = w_trace w ++ evs
    /\ clean evs
    /\ match setup addr0 w with
       | Ret _ _ => True
       | Exit s _ => s = EXIT_FAILURE
       | _ => False
       end.
Proof.
  rewrite setup_eq.
  destruct (sys_socket_shape AF_UNIX SOCK_STREAM 0 w) as [sfd [w1 [E1 [T1 _]]]].
  rewrite E1.
  destruct (sfd =? -1).
  { eexists. split; [exact T1|]. split; reflexivity. }
  destruct path_too_long.
  { eexists. split; [exact T1|]. split; reflexivity. }
  destruct (sys_remove_shape SV_SOCK_PATH w1) as [r [w2 [E2 T2]]].
  rewrite E2. rewrite T1 in T2.
  destruct ((r =? -1) && negb (w_errno w2 =? ENOENT)).
  { eexists. split; [cbn [final w_trace put_stderr]; rewrite T2, <- app_assoc;
                     reflexivity|]. split; reflexivity. }
  destruct (sys_bind_shape sfd (server_addr addr0) w2) as [r3 [w3 [E3 T3]]].
  rewrite E3. rewrite T2 in T3.
  destruct (r3 =? -1).
  { eexists. split; [cbn [final w_trace put_stderr]; rewrite T3, <- !app_assoc;
                     reflexivity|]. split; reflexivity. }
  destruct (sys_listen_shape sfd BACKLOG w3) as [r4 [w4 [E4 T4]]].
  rewrite E4. rewrite T3 in T4.
  destruct (r4 =? -1).
  { eexists. split; [cbn [final w_trace put_stderr]; rewrite T4, <- !app_assoc;
                     reflexivity|]. split; reflexivity. }
  eexists. split; [cbn [final]; rewrite T4, <- !app_assoc; reflexivity|].
  split; reflexivity.
Qed.

(** Every run of [main]: it never returns; if it ends, the status is
    [EXIT_FAILURE]; and a fatal event of the loop is the last call of the
    run. *)
Lemma main_shape (fuel : nat) (addr0 : sockaddr_un) (buf0 : list byte)
    (w : world) :
  exists evs,
    w_trace (final (main fuel addr0 buf0 w)) = w_trace w ++ evs
    /\ match main fuel addr0 buf0 w with
       | Ret _ _ => False
       | Exit s _ =>
           s = EXIT_FAILURE
           /\ (clean evs \/ aborted BUF_SIZE (main fuel addr0 buf0 w) evs)
       | _ => clean evs
       end.
Proof.
  unfold main, bind.
  destruct (setup_shape addr0 w) as [evs [Htr [Hc Hsh]]].
  destruct (setup addr0 w) as [sfd w1 | s w1 | w1 | w1];
    cbn [final] in *; try contradiction.
  2:{ exists evs. auto. }
  destruct (accept_loop_shape fuel sfd buf0 w1) as [evs2 [Htr2 Hsh2]].
  exists (evs ++ evs2). split.
  { rewrite Htr2, Htr, <- app_assoc. reflexivity. }
  destruct (accept_loop fuel sfd buf0 w1) as [u w2 | s w2 | w2 | w2];
    try contradiction; try (apply clean_app; auto).
  destruct Hsh2 as [pre [tail [dg [ds [He [Hc2 [Hf [Ho Hs]]]]]]]].
  cbn [final] in *. injection Ho as ->.
  split; [reflexivity|]. right.
  exists (evs ++ pre), tail, dg, ds.
  repeat split; auto.
  - rewrite He, app_assoc. reflexivity.
  - apply clean_app; auto.
Qed.

(* ================================================================== *)
(** ** Fatal events end the server *)

(** A fatal event anywhere in a run of [main] is its last call, and the
    run is an exit with [EXIT_FAILURE] whose last line on standard error
    is the one of that fault. *)
Lemma fatal_event_ends_run (fuel : nat) (addr0 : sockaddr_un)
    (buf0 : list byte) (w : world) (pre post : list event) (e : event) :
  w_trace (final (main fuel addr0 buf0 w)) = w_trace w ++ pre ++ e :: post ->
  fatal_ev e = true ->
  post = []
  /\ exists w' tail dg ds c,
       main fuel addr0 buf0 w = Exit EXIT_FAILURE w'
       /\ fatal_end BUF_SIZE (w_errno w') (tail ++ [e]) dg
       /\ pre = c ++ tail /\ clean pre
       /\ w_stderr w' = ds ++ [dg].
Proof.
  intros Htr He.
  destruct (main_shape fuel addr0 buf0 w) as [evs [Hevs Hsh]].
  rewrite Htr in Hevs. apply app_inv_head in Hevs. subst evs.
  destruct (main fuel addr0 buf0 w) as [u w' | s w' | w' | w'];
    try contradiction;
    try (exfalso; revert Hsh; apply fatal_not_clean; assumption).
  destruct Hsh as [-> [Hc | Hab]].
  { exfalso; revert Hc; apply fatal_not_clean; assumption. }
  destruct Hab as [c [tail [dg [ds [Heq [Hc [Hf [_ Hs]]]]]]]].
  cbn [final] in *.
  inversion Hf; subst tail dg.
  - destruct (fatal_is_last _ _ _ _ _ Hc He Heq) as [-> [-> ->]].
    split; [reflexivity|].
    exists w', [], (DErrExit "accept" (w_errno w')), ds, c.
    rewrite app_nil_r. repeat split; auto.
  - destruct (fatal_is_last _ _ _ _ _ Hc He Heq) as [-> [-> ->]].
    split; [reflexivity|].
    exists w', [], (DErrExit "read" (w_errno w')), ds, c.
    rewrite app_nil_r. repeat split; auto.
  - change [EvRead cfd BUF_SIZE (Z.of_nat (Datatypes.length d)) d;
            EvWrite STDOUT_FILENO d r]
      with ([EvRead cfd BUF_SIZE (Z.of_nat (Datatypes.length d)) d]
              ++ [EvWrite STDOUT_FILENO d r]) in Heq.
    rewrite app_assoc in Heq.
    assert (Hc' : clean (c ++ [EvRead cfd BUF_SIZE (Z.of_nat (Datatypes.length d)) d])).
    { apply clean_app. split; [assumption|]. apply clean_one. simpl.
      apply Z.eqb_neq. lia. }
    destruct (fatal_is_last _ _ _ _ _ Hc' He Heq) as [-> [-> ->]].
    split; [reflexivity|].
    exists w', [EvRead cfd BUF_SIZE (Z.of_nat (Datatypes.length d)) d],
           (DFatal "partial/failed write"), ds, c.
    repeat split; auto.
Qed.

(** A write that does not return the count it was given, whatever it
    returns instead. *)
Lemma write_fault_ends_run (fuel : nat) (addr0 : sockaddr_un)
    (buf0 : list byte) (w : world) (pre post : list event)
    (fd : Z) (data : list byte) (r : Z) :
  w_trace (final (main fuel addr0 buf0 w))
    = w_trace w ++ pre ++ EvWrite fd data r :: post ->
  r <> Z.of_nat (List.length data) ->
  post = []
  /\ fd = STDOUT_FILENO /\ data <> []
  /\ exists w' c cfd ds,
       main fuel addr0 buf0 w = Exit EXIT_FAILURE w'
       /\ pre = c ++ [EvRead cfd BUF_SIZE (Z.of_nat (List.length data)) data]
       /\ clean pre
       /\ w_stderr w' = ds ++ [DFatal "partial/failed write"].
Proof.
  intros Htr Hr.
  destruct (fatal_event_ends_run fuel addr0 buf0 w pre post _ Htr)
    as [Hpost [w' [tail [dg [ds [c [Hm [Hf [Hpre [Hc Hs]]]]]]]]]].
  { simpl. apply negb_true_iff, Z.eqb_neq. assumption. }
  split; [assumption|].
  inversion Hf as [sfd H | cfd d H | cfd d r' Hne Hr' H].
  - change [EvAccept sfd (-1)] with ([] ++ [EvAccept sfd (-1)]) in H.
    apply app_inj_tail in H. destruct H as [_ H]. discriminate H.
  - change [EvRead cfd BUF_SIZE (-1) d]
      with ([] ++ [EvRead cfd BUF_SIZE (-1) d]) in H.
    apply app_inj_tail in H. destruct H as [_ H]. discriminate H.
  - change [EvRead cfd BUF_SIZE (Z.of_nat (Datatypes.length d)) d;
            EvWrite STDOUT_FILENO d r']
      with ([EvRead cfd BUF_SIZE (Z.of_nat (Datatypes.length d)) d]
              ++ [EvWrite STDOUT_FILENO d r']) in H.
    apply app_inj_tail in H. destruct H as [Ht H].
    injection H as <- <- <-. subst tail dg.
    repeat split; auto.
    exists w', c, cfd, ds. repeat split; auto.
Qed.

(** C2.  In every run of [main], a [read] on a connection that returns the
    error indication -1 is the last call the process makes: the run is an
    exit with the non-zero status [EXIT_FAILURE], reported by [errExit]
    with the message "read", and no [accept] (nor anything else) follows,
    so no later connection is served. *)
Theorem read_error_aborts_server (fuel : nat) (addr0 : sockaddr_un)
    (buf0 : list byte) (w : world) (pre post : list event)
    (fd : Z) (count : nat) (data : list byte) :
  w_trace (final (main fuel addr0 buf0 w))
    = w_trace w ++ pre ++ EvRead fd count (-1) data :: post ->
  post = []
  /\ EXIT_FAILURE <> 0
  /\ exists w' ds,
       main fuel addr0 buf0 w = Exit EXIT_FAILURE w'
       /\ w_stderr w' = ds ++ [DErrExit "read" (w_errno w')].
Proof.
  intros Htr.
  destruct (fatal_event_ends_run fuel addr0 buf0 w pre post _ Htr)
    as [Hpost [w' [tail [dg [ds [c [Hm [Hf [Hpre [Hc Hs]]]]]]]]]];
    [reflexivity|].
  split; [assumption|]. split; [discriminate|].
  exists w', ds. split; [assumption|].
  inversion Hf as [sfd H | cfd d H | cfd d r' Hne Hr' H].
  - change [EvAccept sfd (-1)] with ([] ++ [EvAccept sfd (-1)]) in H.
    apply app_inj_tail in H. destruct H as [_ H]. discriminate H.
  - subst dg. assumption.
  - change [EvRead cfd BUF_SIZE (Z.of_nat (Datatypes.length d)) d;
            EvWrite STDOUT_FILENO d r']
      with ([EvRead cfd BUF_SIZE (Z.of_nat (Datatypes.length d)) d]
              ++ [EvWrite STDOUT_FILENO d r']) in H.
    apply app_inj_tail in H. destruct H as [_ H]. discriminate H.
Qed.

(** C5.  In every run of [main], a [write] of a chunk of [n] bytes that
    returns a count [r] with [0 <= r < n] is the last call the process
    makes: the chunk is the one the [read] just before it returned, the
    run is an exit with the non-zero status [EXIT_FAILURE] reported by
    [fatal] with the message "partial/failed write", and no second
    [write] for the rest of the chunk (nor any other call) follows. *)
Theorem short_write_terminates_server (fuel : nat) (addr0 : sockaddr_un)
    (buf0 : list byte) (w : world) (pre post : list event)
    (fd : Z) (data : list byte) (r : Z) :
  w_trace (final (main fuel addr0 buf0 w))
    = w_trace w ++ pre ++ EvWrite fd data r :: post ->
  0 <= r < Z.of_nat (List.length data) ->
  post = []
  /\ EXIT_FAILURE <> 0
  /\ fd = STDOUT_FILENO
  /\ exists w' c cfd ds,
       main fuel addr0 buf0 w = Exit EXIT_FAILURE w'
       /\ pre = c ++ [EvRead cfd BUF_SIZE (Z.of_nat (List.length data)) data]
       /\ w_stderr w' = ds ++ [DFatal "partial/failed write"].
Proof.
  intros Htr Hr.
  destruct (write_fault_ends_run fuel addr0 buf0 w pre post fd data r Htr)
    as [Hpost [Hfd [Hne [w' [c [cfd [ds [Hm [Hpre [Hc Hs]]]]]]]]]]; [lia|].
  split; [assumption|]. split; [discriminate|]. split; [assumption|].
  exists w', c, cfd, ds. auto.
Qed.

(** C9.  A [write] that returns the error indication -1 and a [write] that
    returns a short count are handled alike: take any run in which a
    [write] fails and any run in which a [write] is short; in both the
    faulty [write] is the last call, both are exits with the same status
    [EXIT_FAILURE], and in both the last line on standard error is the
    same one, printed by [fatal] with the message "partial/failed write"
    and without the error number. *)
Theorem failed_write_handled_as_short_write
    (fuel1 fuel2 : nat) (addr1 addr2 : sockaddr_un) (buf1 buf2 : list byte)
    (w1 w2 : world) (pre1 post1 pre2 post2 : list event)
    (fd1 fd2 : Z) (data1 data2 : list byte) (r2 : Z) :
  w_trace (final (main fuel1 addr1 buf1 w1))
    = w_trace w1 ++ pre1 ++ EvWrite fd1 data1 (-1) :: post1 ->
  w_trace (final (main fuel2 addr2 buf2 w2))
    = w_trace w2 ++ pre2 ++ EvWrite fd2 data2 r2 :: post2 ->
  0 <= r2 < Z.of_nat (List.length data2) ->
  post1 = [] /\ post2 = []
  /\ exists s d w1' w2' ds1 ds2,
       main fuel1 addr1 buf1 w1 = Exit s w1'
       /\ main fuel2 addr2 buf2 w2 = Exit s w2'
       /\ s = EXIT_FAILURE
       /\ w_stderr w1' = ds1 ++ [d]
       /\ w_stderr w2' = ds2 ++ [d]
       /\ d = DFatal "partial/failed write".
Proof.
  intros Htr1 Htr2 Hr2.
  destruct (write_fault_ends_run fuel1 addr1 buf1 w1 pre1 post1 fd1 data1 (-1) Htr1)
    as [Hp1 [_ [_ [w1' [_ [_ [ds1 [Hm1 [_ [_ Hs1]]]]]]]]]]; [lia|].
  destruct (write_fault_ends_run fuel2 addr2 buf2 w2 pre2 post2 fd2 data2 r2 Htr2)
    as [Hp2 [_ [_ [w2' [_ [_ [ds2 [Hm2 [_ [_ Hs2]]]]]]]]]]; [lia|].
  split; [assumption|]. split; [assumption|].
  exists EXIT_FAILURE, (DFatal "partial/failed write"), w1', w2', ds1, ds2.
  auto 10.
Qed.

(* ================================================================== *)
(** ** The descriptor table *)

Lemma fd_lookup_filter (fd fd' : Z) (fds : list (Z * file)) :
  fd' <> fd ->
  fd_lookup fd' (filter (fun kf => negb (fst kf =? fd)) fds) = fd_lookup fd' fds.
Proof.
  intros Hne. induction fds as [|[k f] fds IH]; [reflexivity|].
  simpl. destruct (k =? fd) eqn:Hk; simpl.
  - apply Z.eqb_eq in Hk. subst k.
    replace (fd =? fd') with false by (symmetry; apply Z.eqb_neq; congruence).
    assumption.
  - rewrite IH. reflexivity.
Qed.

Lemma fd_lookup_put_same (fd : Z) (f : file) (fds : list (Z * file)) :
  fd_lookup fd (fd_put fd f fds) = Some f.
Proof. unfold fd_put. simpl. rewrite Z.eqb_refl. reflexivity. Qed.

Lemma fd_lookup_put_other (fd fd' : Z) (f : file) (fds : list (Z * file)) :
  fd' <> fd -> fd_lookup fd' (fd_put fd f fds) = fd_lookup fd' fds.
Proof.
  intros Hne. unfold fd_put. simpl.
  replace (fd =? fd') with false by (symmetry; apply Z.eqb_neq; congruence).
  apply fd_lookup_filter. assumption.
Qed.

Lemma fd_lookup_del_other (fd fd' : Z) (fds : list (Z * file)) :
  fd' <> fd -> fd_lookup fd' (fd_del fd fds) = fd_lookup fd' fds.
Proof. apply fd_lookup_filter. Qed.

Lemma fd_lookup_used (fd : Z) (f : file) (fds : list (Z * file)) :
  fd_lookup fd fds = Some f -> fd_used fds fd = true.
Proof.
  induction fds as [|[k g] fds IH]; [discriminate|].
  unfold fd_used in *. simpl. destruct (k =? fd); auto.
Qed.

Lemma fd_above_mono (fd : Z) (fds : list (Z * file)) :
  (fd_above (fd + 1) fds <= fd_above fd fds)%nat.
Proof.
  unfold fd_above.
  induction fds as [|[k f] fds IH]; [reflexivity|]. simpl.
  destruct (fd + 1 <=? k) eqn:H1; destruct (fd <=? k) eqn:H2; simpl; lia.
Qed.

Lemma fd_above_used (fd : Z) (fds : list (Z * file)) :
  fd_used fds fd = true -> (fd_above (fd + 1) fds < fd_above fd fds)%nat.
Proof.
  induction fds as [|[k f] fds IH]; [discriminate|].
  pose proof (fd_above_mono fd fds) as Hmono.
  unfold fd_used, fd_above in *.
  simpl. destruct (k =? fd) eqn:Hk; simpl.
  - intros _. apply Z.eqb_eq in Hk. subst k.
    replace (fd + 1 <=? fd) with false by (symmetry; apply Z.leb_gt; lia).
    rewrite Z.leb_refl. simpl. lia.
  - intros Hu. specialize (IH Hu).
    destruct (fd + 1 <=? k) eqn:H1; destruct (fd <=? k) eqn:H2; simpl; lia.
Qed.

Lemma fd_above_none (fd : Z) (fds : list (Z * file)) :
  fd_above fd fds = 0%nat -> fd_used fds fd = false.
Proof.
  unfold fd_used, fd_above.
  induction fds as [|[k f] fds IH]; [reflexivity|].
  simpl. destruct (fd <=? k) eqn:Hle; simpl; [discriminate|].
  intros H. rewrite (IH H).
  replace (k =? fd) with false; [reflexivity|].
  symmetry. apply Z.eqb_neq. apply Z.leb_gt in Hle. lia.
Qed.

Lemma lowest_free_unused (fuel : nat) :
  forall (fd : Z) (fds : list (Z * file)),
    (fd_above fd fds <= fuel)%nat ->
    fd_used fds (lowest_free fuel fd fds) = false.
Proof.
  induction fuel as [|fuel IH]; intros fd fds Hle; simpl.
  - apply fd_above_none. lia.
  - destruct (fd_used fds fd) eqn:Hu; [|assumption].
    apply IH. pose proof (fd_above_used fd fds Hu). lia.
Qed.

Lemma fd_fresh_unused (fds : list (Z * file)) :
  fd_used fds (fd_fresh fds) = false.
Proof.
  apply lowest_free_unused. unfold fd_above. apply filter_length_le.
Qed.

Lemma fd_fresh_other (fd : Z) (f : file) (fds : list (Z * file)) :
  fd_lookup fd fds = Some f -> fd <> fd_fresh fds.
Proof.
  intros Hl Heq. apply fd_lookup_used in Hl.
  rewrite Heq, fd_fresh_unused in Hl. discriminate.
Qed.

Lemma lowest_free_ge (fuel : nat) :
  forall (fd : Z) (fds : list (Z * file)), fd <= lowest_free fuel fd fds.
Proof.
  induction fuel as [|fuel IH]; intros fd fds; simpl; [lia|].
  destruct (fd_used fds fd); [|lia].
  specialize (IH (fd + 1) fds). lia.
Qed.

Lemma fd_fresh_ge (fds : list (Z * file)) : 3 <= fd_fresh fds.
Proof. apply lowest_free_ge. Qed.

(* ================================================================== *)
(** ** Reading a connection, writing the sink *)

Lemma firstn_same_length (k : nat) (d : list byte) :
  List.length (firstn k d) = List.length d -> firstn k d = d.
Proof.
  intros H. rewrite length_firstn in H.
  apply firstn_all2. lia.
Qed.

Lemma sent_after_read (count : nat) (b : byte) (bs : list byte)
    (rest : list read_step) (c : conn) :
  firstn count (b :: bs) ++ sent (after_read count b bs rest c)
  = (b :: bs) ++ sent_steps rest.
Proof.
  unfold after_read, sent.
  rewrite <- (firstn_skipn count (b :: bs)) at 3.
  destruct (skipn count (b :: bs)) as [|b' bs']; cbn [c_reads sent_steps].
  - rewrite !app_nil_r. simpl. reflexivity.
  - rewrite <- app_assoc. reflexivity.
Qed.

Lemma work_after_read (count : nat) (b : byte) (bs : list byte)
    (rest : list read_step) (c : conn) :
  (0 < count)%nat ->
  (work (after_read count b bs rest c) < S (List.length bs) + work_steps rest)%nat.
Proof.
  intros Hpos. unfold after_read, work.
  pose proof (length_skipn count (b :: bs)) as Hl.
  destruct (skipn count (b :: bs)) as [|b' bs']; cbn [c_reads work_steps].
  - lia.
  - cbn [List.length] in Hl. lia.
Qed.

Lemma reads_ok_after_read (count : nat) (b : byte) (bs : list byte)
    (rest : list read_step) (c : conn) :
  reads_ok (c_reads (after_read count b bs rest c)) = reads_ok rest
  /\ c_shutdown (after_read count b bs rest c) = c_shutdown c
  /\ c_close (after_read count b bs rest c) = c_close c.
Proof.
  unfold after_read.
  destruct (skipn count (b :: bs)); repeat split; reflexivity.
Qed.

(** What a [read] of a positive count on an open connection does. *)
Lemma sys_read_conn (fd : Z) (buf : list byte) (count : nat) (w : world)
    (c : conn) :
  (0 < count)%nat ->
  fd_lookup fd (w_fds w) = Some (FConn c) ->
  match sys_read fd buf count w with
  | Ret (n, b1) w1 =>
      w_stdout w1 = w_stdout w /\ w_stderr w1 = w_stderr w
      /\ k_accept w1 = k_accept w /\ k_stdout w1 = k_stdout w
      /\ (forall fd', fd' <> fd ->
            fd_lookup fd' (w_fds w1) = fd_lookup fd' (w_fds w))
      /\ ((n = 0 /\ c_reads c = [] /\ c_shutdown c = true
           /\ w_trace w1 = w_trace w ++ [EvRead fd count 0 []]
           /\ w_fds w1 = w_fds w /\ b1 = buf)
          \/ (n = -1 /\ reads_ok (c_reads c) = false)
          \/ (exists d c',
                chunk_ok count d
                /\ n = Z.of_nat (List.length d)
                /\ firstn (Z.to_nat n) b1 = d
                /\ w_trace w1 = w_trace w ++ [EvRead fd count n d]
                /\ fd_lookup fd (w_fds w1) = Some (FConn c')
                /\ c_close c' = c_close c
                /\ c_shutdown c' = c_shutdown c
                /\ d ++ sent c' = sent c
                /\ reads_ok (c_reads c') = reads_ok (c_reads c)
                /\ (work c' < work c)%nat))
  | Blocked w1 => w1 = w /\ c_reads c = [] /\ c_shutdown c = false
  | _ => False
  end.
Proof.
  intros Hpos Hl. unfold sys_read. rewrite Hl.
  destruct count as [|k]; [lia|].
  destruct (c_reads c) as [|[b bs|e] rest] eqn:Hreads.
  - destruct (c_shutdown c); [|auto].
    repeat split; auto. left. repeat split; auto.
  - remember (firstn (S k) (b :: bs)) as d eqn:Hd.
    cbn [w_trace w_stderr w_stdout k_accept k_stdout w_fds log_event set_fds].
    repeat split; auto.
    { intros fd' Hne. apply fd_lookup_put_other. assumption. }
    right; right.
    exists d, (after_read (S k) b bs rest c).
    destruct (reads_ok_after_read (S k) b bs rest c) as [Hok [Hsh Hcl]].
    assert (Hne : d <> []) by (subst d; simpl; discriminate).
    repeat split; auto.
    + subst d. rewrite length_firstn. lia.
    + apply firstn_own_length.
    + apply fd_lookup_put_same.
    + subst d. unfold sent at 2. rewrite Hreads. apply sent_after_read.
    + unfold work at 2. rewrite Hreads. cbn [work_steps].
      apply work_after_read. lia.
  - cbn [w_trace w_stderr w_stdout k_accept k_stdout w_fds log_event set_fds
         set_errno].
    repeat split; auto.
    intros fd' Hne. apply fd_lookup_put_other. assumption.
Qed.

(** What a [write] on standard output that returns the count it was
    given has done. *)
Lemma sys_write_stdout (buf : list byte) (count : nat) (w : world) :
  exists r w2,
    sys_write STDOUT_FILENO buf count w = Ret r w2
    /\ w_trace w2 = w_trace w ++ [EvWrite STDOUT_FILENO (firstn count buf) r]
    /\ w_stderr w2 = w_stderr w /\ w_fds w2 = w_fds w
    /\ k_accept w2 = k_accept w
    /\ (k_stdout w = [] ->
        k_stdout w2 = [] /\ r = Z.of_nat (List.length (firstn count buf)))
    /\ (r = Z.of_nat (List.length (firstn count buf)) ->
        w_stdout w2 = w_stdout w ++ firstn count buf).
Proof.
  unfold sys_write, sys_done, sys_fail. rewrite Z.eqb_refl.
  destruct (k_stdout w) as [|[|k|e] q] eqn:Hk;
    eexists; eexists; (split; [reflexivity|]);
    cbn [w_trace w_stderr w_stdout k_accept k_stdout w_fds log_event set_fds
         set_errno put_stdout set_kstdout];
    repeat split; auto; try discriminate.
  - intros Hlen. apply Nat2Z.inj in Hlen.
    rewrite (firstn_same_length _ _ Hlen). reflexivity.
  - intros Hlen. lia.
Qed.

(* ================================================================== *)
(** ** A transfer loop that ends on the end of the stream *)

Lemma work_steps_pos (l : list read_step) : (1 <= work_steps l)%nat.
Proof. induction l as [|[b bs|e] l IH]; simpl; lia. Qed.

(** If the loop on an open connection returns 0, the client was orderly,
    the loop has read the whole of what it sent, chunk by chunk, each
    chunk written in full to the sink before the next read, and nothing
    else has changed but the connection. *)
Lemma transfer_eof (fuel : nat) :
  forall (cfd : Z) (buf : list byte) (w : world) (c : conn)
         (b' : list byte) (w' : world),
  (0 < BUF_SIZE)%nat ->
  fd_lookup cfd (w_fds w) = Some (FConn c) ->
  transfer fuel cfd buf w = Ret (0, b') w' ->
  orderly c
  /\ w_stdout w' = w_stdout w ++ sent c
  /\ w_stderr w' = w_stderr w
  /\ k_accept w' = k_accept w
  /\ (exists c', fd_lookup cfd (w_fds w') = Some (FConn c')
                 /\ c_close c' = c_close c)
  /\ (forall fd', fd' <> cfd ->
        fd_lookup fd' (w_fds w') = fd_lookup fd' (w_fds w))
  /\ exists chunks,
       List.concat chunks = sent c
       /\ Forall (chunk_ok BUF_SIZE) chunks
       /\ w_trace w' = w_trace w ++ relay_events BUF_SIZE cfd chunks.
Proof.
  induction fuel as [|fuel IH]; intros cfd buf w c b' w' Hpos Hl Hrun.
  { discriminate Hrun. }
  rewrite transfer_S in Hrun.
  pose proof (sys_read_conn cfd buf BUF_SIZE w c Hpos Hl) as Hr.
  destruct (sys_read cfd buf BUF_SIZE w) as [[n b1] w1| | w1 |];
    try contradiction; try discriminate Hrun.
  destruct Hr as [Hout [Herr [Hacc [Hks [Hfr Hcases]]]]].
  destruct Hcases as [[Hn [Hreads [Hsh [Htr [Hfds Hb]]]]]
                     | [[Hn Hbad] | [d [c1 Hc]]]].
  - (* end of the stream *)
    subst n. cbn in Hrun. injection Hrun as <- <-.
    unfold orderly, sent. rewrite Hreads. cbn [reads_ok sent_steps].
    rewrite app_nil_r.
    repeat split; auto.
    + exists c. rewrite Hfds. auto.
    + exists []. repeat split; auto.
  - subst n. cbn in Hrun. discriminate Hrun.
  - (* a chunk *)
    destruct Hc as [[Hne Hle] [Hn [Hbuf [Htr [Hl1 [Hcl [Hsh [Hsent [Hok Hwork]]]]]]]]].
    assert (Hgt : (n >? 0) = true).
    { rewrite Z.gtb_ltb. apply Z.ltb_lt. destruct d; [congruence|].
      rewrite Hn. simpl. lia. }
    rewrite Hgt in Hrun.
    destruct (sys_write_stdout b1 (Z.to_nat n) w1)
      as [r [w2 [Hw [Htr2 [Herr2 [Hfds2 [Hacc2 [_ Hfull]]]]]]]].
    rewrite Hw, Hbuf in *.
    destruct (r =? n) eqn:Hrn; [|discriminate Hrun].
    apply Z.eqb_eq in Hrn. subst r.
    specialize (Hfull Hn).
    assert (Hl2 : fd_lookup cfd (w_fds w2) = Some (FConn c1))
      by (rewrite Hfds2; assumption).
    destruct (IH cfd b1 w2 c1 b' w' Hpos Hl2 Hrun)
      as [[Hok1 Hsh1] [Hout' [Herr' [Hacc' [[c' [Hl' Hcl']] [Hfr' [chunks [Hcat [Hall Htr']]]]]]]]].
    split.
    { split; congruence. }
    split.
    { rewrite Hout', Hfull, Hout, <- app_assoc, Hsent. reflexivity. }
    split; [congruence|]. split; [congruence|].
    split.
    { exists c'. split; congruence. }
    split.
    { intros fd' Hne'. rewrite (Hfr' fd' Hne'), Hfds2. apply Hfr. assumption. }
    exists (d :: chunks). split; [|split].
    + simpl. rewrite Hcat. assumption.
    + constructor; [split; assumption | assumption].
    + rewrite Htr', Htr2, Htr. unfold relay_events. simpl.
      unfold relay_pair at 1. rewrite <- Hn, <- !app_assoc. reflexivity.
Qed.

(** With an orderly client, a sink that takes every write in full and
    fuel for the reads, the loop does return 0. *)
Lemma transfer_runs (fuel : nat) :
  forall (cfd : Z) (buf : list byte) (w : world) (c : conn),
  (0 < BUF_SIZE)%nat ->
  fd_lookup cfd (w_fds w) = Some (FConn c) ->
  orderly c ->
  k_stdout w = [] ->
  (work c <= fuel)%nat ->
  exists b' w',
    transfer fuel cfd buf w = Ret (0, b') w' /\ k_stdout w' = [].
Proof.
  induction fuel as [|fuel IH]; intros cfd buf w c Hpos Hl [Hok Hsh] Hks Hfuel.
  { pose proof (work_steps_pos (c_reads c)). unfold work in Hfuel. lia. }
  rewrite transfer_S.
  pose proof (sys_read_conn cfd buf BUF_SIZE w c Hpos Hl) as Hr.
  destruct (sys_read cfd buf BUF_SIZE w) as [[n b1] w1| | w1 |];
    try contradiction.
  2:{ destruct Hr as [_ [_ Hr]]. congruence. }
  destruct Hr as [Hout [Herr [Hacc [Hks1 [Hfr Hcases]]]]].
  destruct Hcases as [[Hn _] | [[Hn Hbad] | [d [c1 Hc]]]].
  - subst n. cbn. exists b1, w1. split; [reflexivity | congruence].
  - congruence.
  - destruct Hc as [[Hne Hle] [Hn [Hbuf [Htr [Hl1 [Hcl [Hsh1 [Hsent [Hok1 Hwork]]]]]]]]].
    assert (Hgt : (n >? 0) = true).
    { rewrite Z.gtb_ltb. apply Z.ltb_lt. destruct d; [congruence|].
      rewrite Hn. simpl. lia. }
    rewrite Hgt.
    destruct (sys_write_stdout b1 (Z.to_nat n) w1)
      as [r [w2 [Hw [Htr2 [Herr2 [Hfds2 [Hacc2 [Hempty _]]]]]]]].
    rewrite Hw, Hbuf in *.
    destruct Hempty as [Hks2 Hr]; [congruence|].
    rewrite Hr, <- Hn, Z.eqb_refl.
    apply (IH cfd b1 w2 c1); auto.
    + rewrite Hfds2. assumption.
    + split; congruence.
    + lia.
Qed.

(* ================================================================== *)
(** ** One pass of the accept loop *)

Lemma sys_accept_cases (sfd : Z) (w : world) :
  match sys_accept sfd w with
  | Ret cfd w1 =>
      w_stdout w1 = w_stdout w /\ w_stderr w1 = w_stderr w
      /\ k_stdout w1 = k_stdout w
      /\ w_trace w1 = w_trace w ++ [EvAccept sfd cfd]
      /\ (cfd = -1
          \/ (cfd <> -1 /\ fd_lookup sfd (w_fds w) = Some FSock
              /\ fd_lookup sfd (w_fds w1) = Some FSock
              /\ exists c, k_accept w = AcConn c :: k_accept w1
                           /\ fd_lookup cfd (w_fds w1) = Some (FConn c)))
  | Blocked w1 => w1 = w /\ k_accept w = []
  | _ => False
  end.
Proof.
  unfold sys_accept, sys_done, sys_fail.
  destruct (fd_lookup sfd (w_fds w)) as [[|c]|] eqn:Hl;
    try (repeat split; auto; fail).
  destruct (k_accept w) as [|[e|c] q] eqn:Hq; [auto | repeat split; auto |].
  cbn [w_trace w_stderr w_stdout k_accept k_stdout w_fds log_event set_fds
       set_accept].
  repeat split; auto.
  right. pose proof (fd_fresh_ge (w_fds w)) as Hge.
  split; [lia|]. split; [reflexivity|]. split.
  - rewrite fd_lookup_put_other; [assumption|].
    apply (fd_fresh_other _ _ _ Hl).
  - exists c. split; [reflexivity | apply fd_lookup_put_same].
Qed.

Lemma sys_close_conn (cfd : Z) (w : world) (c : conn) :
  fd_lookup cfd (w_fds w) = Some (FConn c) ->
  exists r w',
    sys_close cfd w = Ret r w'
    /\ w_stdout w' = w_stdout w /\ k_accept w' = k_accept w
    /\ k_stdout w' = k_stdout w
    /\ w_trace w' = w_trace w ++ [EvClose cfd r]
    /\ (forall fd', fd' <> cfd ->
          fd_lookup fd' (w_fds w') = fd_lookup fd' (w_fds w))
    /\ (r = 0 \/ r = -1)
    /\ ((r =? -1) = false
        -> c_close c = None /\ w_stderr w' = w_stderr w)
    /\ ((r =? -1) = true
        -> c_close c = Some (w_errno w') /\ w_stderr w' = w_stderr w).
Proof.
  intros Hl. unfold sys_close, sys_done, sys_fail. rewrite Hl.
  destruct (c_close c) as [e|]; eexists; eexists;
    (split; [reflexivity|]);
    cbn [w_trace w_stderr w_stdout k_accept k_stdout w_fds w_errno log_event
         set_fds set_errno];
    repeat split; auto; try discriminate;
    intros fd' Hne; apply fd_lookup_del_other; assumption.
Qed.

(** A pass that returns to the loop has copied all the client sent. *)
Lemma serve_ret (fuel : nat) (sfd : Z) (buf b' : list byte) (w w' : world)
    (c : conn) (q : list accept_step) :
  (0 < BUF_SIZE)%nat ->
  k_accept w = AcConn c :: q ->
  serve fuel sfd buf w = Ret b' w' ->
  orderly c
  /\ w_stdout w' = w_stdout w ++ sent c
  /\ w_stderr w' = w_stderr w ++ close_diag c
  /\ k_accept w' = q
  /\ fd_lookup sfd (w_fds w') = Some FSock
  /\ exists blk, pass_of BUF_SIZE sfd c blk /\ w_trace w' = w_trace w ++ blk.
Proof.
  intros Hpos Hq Hrun. rewrite serve_eq in Hrun.
  pose proof (sys_accept_cases sfd w) as Ha.
  destruct (sys_accept sfd w) as [cfd w1| | w1 |];
    try contradiction; try discriminate Hrun.
  destruct Ha as [Hout1 [Herr1 [Hks1 [Htr1 Ha]]]].
  destruct Ha as [Hm | [Hne [Hs [Hs1 [c0 [Hq0 Hl1]]]]]].
  { subst cfd. cbn in Hrun. discriminate Hrun. }
  replace (cfd =? -1) with false in Hrun
    by (symmetry; apply Z.eqb_neq; assumption).
  rewrite Hq in Hq0. injection Hq0 as <- Hq1.
  destruct (transfer fuel cfd buf w1) as [[n b1] w2| | |] eqn:Htrans;
    try discriminate Hrun.
  destruct (n =? -1) eqn:Hn1; [discriminate Hrun|].
  assert (Hn0 : n = 0).
  { destruct (transfer_shape fuel cfd buf w1) as [evs [_ Hsh]].
    rewrite Htrans in Hsh. destruct Hsh as [[H0 _] | [H1 _]]; [assumption|].
    subst n. discriminate Hn1. }
  subst n.
  destruct (transfer_eof fuel cfd buf w1 c b1 w2 Hpos Hl1 Htrans)
    as [Hord [Hout2 [Herr2 [Hacc2 [[c' [Hl2 Hcl]] [Hfr2 [chunks [Hcat [Hall Htr2]]]]]]]]].
  destruct (sys_close_conn cfd w2 c' Hl2)
    as [r [w3 [Hclose [Hout3 [Hacc3 [Hks3 [Htr3 [Hfr3 [_ [Hr0 Hr1]]]]]]]]]].
  rewrite Hclose in Hrun.
  assert (Hsfd : sfd <> cfd).
  { intros Heq. subst cfd. congruence. }
  assert (Hframe : w_stdout w3 = w_stdout w ++ sent c
                   /\ k_accept w3 = q
                   /\ fd_lookup sfd (w_fds w3) = Some FSock
                   /\ exists blk, pass_of BUF_SIZE sfd c blk
                                  /\ w_trace w3 = w_trace w ++ blk).
  { split; [congruence|]. split; [congruence|]. split.
    - rewrite (Hfr3 sfd Hsfd), (Hfr2 sfd Hsfd). assumption.
    - exists ([EvAccept sfd cfd] ++ relay_events BUF_SIZE cfd chunks
                ++ [EvClose cfd r]).
      split.
      + exists cfd, chunks, r. auto.
      + rewrite Htr3, Htr2, Htr1, <- !app_assoc. reflexivity. }
  destruct Hframe as [Hf1 [Hf2 [Hf3 Hf4]]].
  unfold close_diag.
  destruct (r =? -1) eqn:Hr; injection Hrun as <- <-.
  - destruct (Hr1 eq_refl) as [Hce Herr3].
    cbn [w_stdout w_stderr k_accept w_fds w_trace put_stderr].
    rewrite <- Hcl, Hce.
    split; [assumption|]. split; [assumption|].
    split; [congruence | auto].
  - destruct (Hr0 eq_refl) as [Hce Herr3].
    rewrite <- Hcl, Hce, app_nil_r.
    split; [assumption|]. split; [assumption|].
    split; [congruence | auto].
Qed.

Lemma sys_accept_conn (sfd : Z) (w : world) (c : conn) (q : list accept_step) :
  fd_lookup sfd (w_fds w) = Some FSock ->
  k_accept w = AcConn c :: q ->
  exists cfd w1,
    sys_accept sfd w = Ret cfd w1
    /\ (cfd =? -1) = false
    /\ fd_lookup cfd (w_fds w1) = Some (FConn c)
    /\ k_stdout w1 = k_stdout w
    /\ w_stdout w1 = w_stdout w
    /\ w_trace w1 = w_trace w ++ [EvAccept sfd cfd]
    /\ k_accept w1 = q.
Proof.
  intros Hl Hq. unfold sys_accept, sys_done. rewrite Hl, Hq.
  eexists; eexists. split; [reflexivity|].
  cbn [w_trace w_stdout k_stdout k_accept w_fds log_event set_fds set_accept].
  repeat split; auto.
  - apply Z.eqb_neq. pose proof (fd_fresh_ge (w_fds w)). lia.
  - apply fd_lookup_put_same.
Qed.

(** With an orderly client at the head of the queue, a sink that takes
    every write in full and fuel for the reads, the pass returns to the
    loop. *)
Lemma serve_runs (fuel : nat) (sfd : Z) (buf : list byte) (w : world)
    (c : conn) (q : list accept_step) :
  (0 < BUF_SIZE)%nat ->
  fd_lookup sfd (w_fds w) = Some FSock ->
  k_accept w = AcConn c :: q ->
  orderly c ->
  k_stdout w = [] ->
  (work c <= fuel)%nat ->
  exists b' w', serve fuel sfd buf w = Ret b' w' /\ k_stdout w' = [].
Proof.
  intros Hpos Hl Hq Hord Hks Hfuel. rewrite serve_eq.
  destruct (sys_accept_conn sfd w c q Hl Hq)
    as [cfd [w1 [Ha [Hne [Hl1 [Hks1 _]]]]]].
  rewrite Ha, Hne.
  destruct (transfer_runs fuel cfd buf w1 c Hpos Hl1 Hord) as [b1 [w2 [Ht Hks2]]];
    [congruence | assumption |].
  rewrite Ht. cbn [Z.eqb].
  destruct (transfer_eof fuel cfd buf w1 c b1 w2 Hpos Hl1 Ht)
    as [_ [_ [_ [_ [[c' [Hl2 _]] _]]]]].
  destruct (sys_close_conn cfd w2 c' Hl2) as [r [w3 [Hc [_ [_ [Hks3 _]]]]]].
  rewrite Hc.
  destruct (r =? -1); eexists; eexists; (split; [reflexivity|]);
    cbn [k_stdout put_stderr]; congruence.
Qed.

(** The loop serves a queue of orderly clients one after the other. *)
Lemma accept_loop_runs (conns : list conn) :
  forall (fuel : nat) (sfd : Z) (buf : list byte) (w : world)
         (q : list accept_step),
  (0 < BUF_SIZE)%nat ->
  fd_lookup sfd (w_fds w) = Some FSock ->
  k_accept w = map AcConn conns ++ q ->
  Forall orderly conns ->
  k_stdout w = [] ->
  Forall (fun c => (work c <= fuel)%nat) conns ->
  exists b' w',
    accept_loop (List.length conns + fuel) sfd buf w = accept_loop fuel sfd b' w'
    /\ k_accept w' = q /\ k_stdout w' = []
    /\ fd_lookup sfd (w_fds w') = Some FSock
    /\ w_stdout w' = w_stdout w ++ List.concat (map sent conns)
    /\ w_stderr w' = w_stderr w ++ flat_map close_diag conns
    /\ exists blocks,
         Forall2 (pass_of BUF_SIZE sfd) conns blocks
         /\ w_trace w' = w_trace w ++ List.concat blocks.
Proof.
  induction conns as [|c conns IH];
    intros fuel sfd buf w q Hpos Hl Hq Hord Hks Hfuel.
  { exists buf, w. simpl. rewrite !app_nil_r.
    repeat split; auto. exists []. simpl. rewrite app_nil_r. auto. }
  inversion Hord as [|? ? Hc Hcs]; subst.
  inversion Hfuel as [|? ? Hw Hws]; subst.
  cbn [List.length Nat.add map app] in *.
  rewrite accept_loop_S.
  destruct (serve_runs (List.length conns + fuel) sfd buf w c
              (map AcConn conns ++ q) Hpos Hl Hq Hc Hks)
    as [b1 [w1 [Hs Hks1]]]; [lia|].
  rewrite Hs.
  destruct (serve_ret _ _ _ _ _ _ _ _ Hpos Hq Hs)
    as [_ [Hout1 [Herr1 [Hq1 [Hl1 [blk [Hblk Htr1]]]]]]].
  destruct (IH fuel sfd b1 w1 q Hpos Hl1 Hq1 Hcs Hks1 Hws)
    as [b' [w' [Hloop [Hq' [Hks' [Hl' [Hout' [Herr' [blocks [Hall Htr']]]]]]]]]].
  exists b', w'. split; [assumption|]. split; [assumption|].
  split; [assumption|]. split; [assumption|]. split; [|split].
  - rewrite Hout', Hout1, <- app_assoc. reflexivity.
  - rewrite Herr', Herr1, <- app_assoc. reflexivity.
  - exists (blk :: blocks). split; [constructor; assumption|].
    simpl. rewrite Htr', Htr1, <- app_assoc. reflexivity.
Qed.

(* ================================================================== *)
(** ** The relay pass *)

(** C1.  Let a client that has sent the byte sequence [S] be at the head
    of the queue.  A pass of the loop body that returns to the loop (it
    ended on a read returning 0 and nothing was fatal) has appended
    exactly [S] to the sink.  Its calls are the [accept], then for each
    chunk a [read] returning the chunk and at once a [write] of that
    chunk returning its length, then the [read] returning 0 and the
    [close]; the chunks are non-empty, at most [BUF_SIZE] long, and their
    concatenation is [S]. *)
Theorem relay_pass_copies_stream (fuel : nat) (sfd : Z) (buf b' : list byte)
    (w w' : world) (c : conn) (q : list accept_step) (S : list byte) :
  (0 < BUF_SIZE)%nat ->
  k_accept w = AcConn c :: q ->
  sent c = S ->
  serve fuel sfd buf w = Ret b' w' ->
  w_stdout w' = w_stdout w ++ S
  /\ exists cfd chunks r,
       List.concat chunks = S
       /\ Forall (chunk_ok BUF_SIZE) chunks
       /\ w_trace w'
          = w_trace w ++ [EvAccept sfd cfd]
                      ++ flat_map (relay_pair BUF_SIZE cfd) chunks
                      ++ [EvRead cfd BUF_SIZE 0 []; EvClose cfd r].
Proof.
  intros Hpos Hq HS Hrun.
  destruct (serve_ret _ _ _ _ _ _ _ _ Hpos Hq Hrun)
    as [_ [Hout [_ [_ [_ [blk [[cfd [chunks [r [Hcat [Hall Hblk]]]]] Htr]]]]]]].
  subst S. split; [assumption|].
  exists cfd, chunks, r. split; [assumption|]. split; [assumption|].
  rewrite Htr, Hblk. unfold relay_events. rewrite <- !app_assoc. reflexivity.
Qed.

Lemma sys_read_empty (fd : Z) (buf : list byte) (count : nat) (w : world)
    (c : conn) :
  fd_lookup fd (w_fds w) = Some (FConn c) ->
  c_reads c = [] -> c_shutdown c = true ->
  sys_read fd buf count w = Ret (0, buf) (log_event (EvRead fd count 0 []) w).
Proof.
  intros Hl Hr Hs. unfold sys_read. rewrite Hl, Hr, Hs.
  destruct count; reflexivity.
Qed.

(** C7.  A client that has sent nothing and has closed its end: the pass
    is the [accept], one [read] that returns 0 and the [close]; there is
    no [write], the sink is unchanged, the pass returns to the loop (it
    neither blocks nor exits), and the loop goes on with its next
    iteration on the rest of the queue. *)
Theorem empty_client_is_served (fuel : nat) (sfd : Z) (buf : list byte)
    (w : world) (c : conn) (q : list accept_step) :
  fd_lookup sfd (w_fds w) = Some FSock ->
  k_accept w = AcConn c :: q ->
  c_reads c = [] -> c_shutdown c = true ->
  exists cfd r w',
    serve (S fuel) sfd buf w = Ret buf w'
    /\ w_stdout w' = w_stdout w
    /\ w_trace w'
       = w_trace w ++ [EvAccept sfd cfd; EvRead cfd BUF_SIZE 0 [];
                       EvClose cfd r]
    /\ k_accept w' = q
    /\ accept_loop (S (S fuel)) sfd buf w = accept_loop (S fuel) sfd buf w'.
Proof.
  intros Hl Hq Hr Hs.
  destruct (sys_accept_conn sfd w c q Hl Hq)
    as [cfd [w1 [Ha [Hne [Hl1 [_ [Hout1 [Htr1 Hq1]]]]]]]].
  set (w2 := log_event (EvRead cfd BUF_SIZE 0 []) w1).
  assert (Hl2 : fd_lookup cfd (w_fds w2) = Some (FConn c)) by exact Hl1.
  destruct (sys_close_conn cfd w2 c Hl2)
    as [r [w3 [Hc [Hout3 [Hacc3 [_ [Htr3 _]]]]]]].
  assert (Hserve : exists w',
             serve (S fuel) sfd buf w = Ret buf w'
             /\ w_stdout w' = w_stdout w3 /\ w_trace w' = w_trace w3
             /\ k_accept w' = k_accept w3).
  { rewrite serve_eq, Ha, Hne, transfer_S.
    rewrite (sys_read_empty cfd buf BUF_SIZE w1 c Hl1 Hr Hs).
    cbn [Z.gtb Z.compare Z.eqb]. fold w2. rewrite Hc.
    destruct (r =? -1); eexists; split; try reflexivity; auto. }
  destruct Hserve as [w' [Hserve [Hout' [Htr' Hacc']]]].
  exists cfd, r, w'. split; [assumption|]. split; [|split; [|split]].
  - rewrite Hout', Hout3. exact Hout1.
  - rewrite Htr', Htr3. unfold w2. cbn [w_trace log_event].
    rewrite Htr1, <- !app_assoc. reflexivity.
  - rewrite Hacc', Hacc3. exact Hq1.
  - rewrite accept_loop_S, Hserve. reflexivity.
Qed.

(** C6.  Once the transfer loop of a pass has ended on a read returning 0,
    the pass returns to the loop whatever [close] returns: a [close] that
    succeeds leaves standard error as it was, a [close] that fails adds
    the one line of [errMsg], and in both cases the loop goes on with its
    next iteration, the listening socket still open and the rest of the
    queue untouched, so that the next [accept] returns the next pending
    connection. *)
Theorem close_failure_is_logged (fuel : nat) (sfd cfd : Z)
    (buf b1 : list byte) (w w1 w2 : world) (c : conn)
    (q : list accept_step) :
  (0 < BUF_SIZE)%nat ->
  fd_lookup sfd (w_fds w) = Some FSock ->
  k_accept w = AcConn c :: q ->
  sys_accept sfd w = Ret cfd w1 ->
  transfer fuel cfd buf w1 = Ret (0, b1) w2 ->
  exists r w',
    serve fuel sfd buf w = Ret b1 w'
    /\ w_trace w' = w_trace w2 ++ [EvClose cfd r]
    /\ (c_close c = None -> r = 0 /\ w_stderr w' = w_stderr w2)
    /\ (forall e, c_close c = Some e ->
          r = -1 /\ w_stderr w' = w_stderr w2 ++ [DErrMsg "close" e])
    /\ accept_loop (S fuel) sfd buf w = accept_loop fuel sfd b1 w'
    /\ fd_lookup sfd (w_fds w') = Some FSock
    /\ k_accept w' = q
    /\ (forall c2 q2, q = AcConn c2 :: q2 ->
          exists cfd2 w2',
            sys_accept sfd w' = Ret cfd2 w2'
            /\ (cfd2 =? -1) = false
            /\ fd_lookup cfd2 (w_fds w2') = Some (FConn c2)).
Proof.
  intros Hpos Hl Hq Ha Ht.
  destruct (sys_accept_conn sfd w c q Hl Hq)
    as [cfd' [w1' [Ha' [Hne [Hl1 _]]]]].
  rewrite Ha in Ha'. injection Ha' as <- <-.
  destruct (transfer_eof fuel cfd buf w1 c b1 w2 Hpos Hl1 Ht)
    as [_ [_ [Herr2 [_ [[c' [Hl2 Hcl]] _]]]]].
  destruct (sys_close_conn cfd w2 c' Hl2)
    as [r [w3 [Hc [_ [_ [_ [Htr3 [_ [Hr [Hr0 Hr1]]]]]]]]]].
  assert (Hserve : exists w',
             serve fuel sfd buf w = Ret b1 w'
             /\ w_trace w' = w_trace w3
             /\ w' = if r =? -1
                     then put_stderr (DErrMsg "close" (w_errno w3)) w3
                     else w3).
  { rewrite serve_eq, Ha, Hne, Ht. cbn [Z.eqb]. rewrite Hc.
    destruct (r =? -1); eexists; split; try reflexivity; auto. }
  destruct Hserve as [w' [Hserve [Htr' Hw']]].
  destruct (serve_ret _ _ _ _ _ _ _ _ Hpos Hq Hserve)
    as [_ [_ [_ [Hq' [Hl' _]]]]].
  exists r, w'. split; [assumption|]. split; [congruence|].
  split; [|split; [|split; [|split; [|split]]]]; auto.
  - intros Hnone. rewrite <- Hcl in Hnone.
    destruct (r =? -1) eqn:Hr1'.
    + destruct (Hr1 eq_refl) as [Hsome _]. congruence.
    + destruct (Hr0 eq_refl) as [_ Herr3]. subst w'.
      split; [|assumption].
      destruct Hr as [Hr | Hr]; [assumption | subst r; discriminate].
  - intros e Hsome. rewrite <- Hcl in Hsome.
    destruct (r =? -1) eqn:Hr1'.
    + destruct (Hr1 eq_refl) as [Hsome' Herr3]. subst w'.
      split; [apply Z.eqb_eq; assumption|].
      cbn [w_stderr put_stderr]. rewrite Herr3. congruence.
    + destruct (Hr0 eq_refl) as [Hnone _]. congruence.
  - rewrite accept_loop_S, Hserve. reflexivity.
  - intros c2 q2 Hq2. rewrite Hq2 in Hq'.
    destruct (sys_accept_conn sfd w' c2 q2 Hl' Hq')
      as [cfd2 [w2' [Ha2 [Hne2 [Hl2' _]]]]].
    exists cfd2, w2'. auto.
Qed.

(** C8.  Take any queue of orderly clients, a sink that takes every write
    in full, and fuel for the longest of them.  The loop serves them all
    and then waits in [accept]; the sink has received the bytes of the
    first client, then those of the second, and so on, with nothing in
    between; and the calls of the run are the complete pass of the first
    connection (its [accept], its reads and writes, its [close]), then
    the complete pass of the second, and so on: no call on a connection
    is made before the pass of the one before it has ended with its
    [close]. *)
Theorem connections_are_served_in_sequence (conns : list conn) (fuel : nat)
    (sfd : Z) (buf : list byte) (w : world) :
  (0 < BUF_SIZE)%nat ->
  fd_lookup sfd (w_fds w) = Some FSock ->
  k_accept w = map AcConn conns ->
  Forall orderly conns ->
  k_stdout w = [] ->
  Forall (fun c => (work c <= fuel)%nat) conns ->
  exists w',
    accept_loop (List.length conns + S fuel) sfd buf w = Blocked w'
    /\ w_stdout w' = w_stdout w ++ List.concat (map sent conns)
    /\ exists blocks,
         Forall2 (pass_of BUF_SIZE sfd) conns blocks
         /\ w_trace w' = w_trace w ++ List.concat blocks.
Proof.
  intros Hpos Hl Hq Hord Hks Hfuel.
  destruct (accept_loop_runs conns (S fuel) sfd buf w [] Hpos Hl)
    as [b' [w' [Hloop [Hq' [_ [Hl' [Hout [_ Htr]]]]]]]]; auto.
  { rewrite app_nil_r. assumption. }
  { eapply Forall_impl; [|exact Hfuel]. simpl. intros c Hc. lia. }
  exists w'. split; [|split; assumption].
  rewrite Hloop, accept_loop_S, serve_eq.
  unfold sys_accept. rewrite Hl', Hq'. reflexivity.
Qed.

(* ================================================================== *)
(** ** The set-up *)

Lemma cstr_app_nul (s rest : list byte) :
  cstr (cstr s ++ NUL :: rest) = cstr s.
Proof.
  induction s as [|b s IH]; [reflexivity|].
  simpl. destruct (is_nul b) eqn:Hb; [reflexivity|].
  simpl. rewrite Hb, IH. reflexivity.
Qed.

Lemma skipn_repeat (n m : nat) (x : byte) :
  skipn n (repeat x m) = repeat x (m - n).
Proof.
  revert m. induction n as [|n IH]; intros m.
  - rewrite Nat.sub_0_r. reflexivity.
  - destruct m as [|m]; [reflexivity|]. simpl. apply IH.
Qed.

(** [strncpy] of a string that fits into a zeroed array. *)
Lemma strncpy_fits (src : list byte) (size : nat) :
  (1 <= size)%nat ->
  (strlen src <= size - 1)%nat ->
  strncpy (repeat NUL size) src (size - 1)
  = cstr src ++ repeat NUL (size - strlen src).
Proof.
  intros Hsize Hfit. unfold strncpy, strlen in *.
  rewrite firstn_all2 by assumption.
  rewrite skipn_repeat, <- repeat_app.
  f_equal. f_equal. lia.
Qed.

(** The calls of the set-up are a prefix of: [socket], [remove], [bind]
    with the address of lines 52-54, [listen]; with a path that is too
    long, only the first is made. *)
Lemma setup_calls (addr0 : sockaddr_un) (w : world) :
  exists sfd r2 r3 r4 k,
    w_trace (final (setup addr0 w))
    = w_trace w ++ firstn k [EvSocket AF_UNIX SOCK_STREAM 0 sfd;
                             EvRemove (cstr SV_SOCK_PATH) r2;
                             EvBind sfd (server_addr addr0) r3;
                             EvListen sfd BACKLOG r4]
    /\ (path_too_long = true -> k = 1%nat).
Proof.
  rewrite setup_eq.
  destruct (sys_socket_shape AF_UNIX SOCK_STREAM 0 w) as [sfd [w1 [E1 [T1 _]]]].
  rewrite E1.
  destruct (sfd =? -1).
  { exists sfd, 0, 0, 0, 1%nat. split; [exact T1 | reflexivity]. }
  destruct path_too_long.
  { exists sfd, 0, 0, 0, 1%nat. split; [exact T1 | reflexivity]. }
  destruct (sys_remove_shape SV_SOCK_PATH w1) as [r [w2 [E2 T2]]].
  rewrite E2. rewrite T1 in T2.
  destruct ((r =? -1) && negb (w_errno w2 =? ENOENT)).
  { exists sfd, r, 0, 0, 2%nat.
    split; [|discriminate]. cbn [final w_trace put_stderr firstn].
    rewrite T2, <- app_assoc. reflexivity. }
  destruct (sys_bind_shape sfd (server_addr addr0) w2) as [r3 [w3 [E3 T3]]].
  rewrite E3. rewrite T2 in T3.
  destruct (r3 =? -1).
  { exists sfd, r, r3, 0, 3%nat.
    split; [|discriminate]. cbn [final w_trace put_stderr firstn].
    rewrite T3, <- !app_assoc. reflexivity. }
  destruct (sys_listen_shape sfd BACKLOG w3) as [r4 [w4 [E4 T4]]].
  rewrite E4. rewrite T3 in T4.
  exists sfd, r, r3, r4, 4%nat. split; [|discriminate].
  destruct (r4 =? -1); cbn [final w_trace put_stderr firstn];
    rewrite T4, <- !app_assoc; reflexivity.
Qed.

Lemma setup_bind_arg (addr0 : sockaddr_un) (w : world)
    (pre post : list event) (fd : Z) (a : sockaddr_un) (r : Z) :
  w_trace (final (setup addr0 w)) = w_trace w ++ pre ++ EvBind fd a r :: post ->
  a = server_addr addr0 /\ path_too_long = false.
Proof.
  intros Htr.
  destruct (setup_calls addr0 w) as [sfd [r2 [r3 [r4 [k [Hk Hlong]]]]]].
  rewrite Htr in Hk. apply app_inv_head in Hk.
  assert (Hin : In (EvBind fd a r)
                   (firstn k [EvSocket AF_UNIX SOCK_STREAM 0 sfd;
                              EvRemove (cstr SV_SOCK_PATH) r2;
                              EvBind sfd (server_addr addr0) r3;
                              EvListen sfd BACKLOG r4])).
  { rewrite <- Hk. apply in_or_app. right. left. reflexivity. }
  destruct path_too_long.
  - rewrite (Hlong eq_refl) in Hin. simpl in Hin.
    destruct Hin as [H | []]. discriminate H.
  - split; [|reflexivity].
    assert (Hin' : In (EvBind fd a r)
                      [EvSocket AF_UNIX SOCK_STREAM 0 sfd;
                       EvRemove (cstr SV_SOCK_PATH) r2;
                       EvBind sfd (server_addr addr0) r3;
                       EvListen sfd BACKLOG r4]).
    { rewrite <- (firstn_skipn k). apply in_or_app. left. exact Hin. }
    simpl in Hin'.
    destruct Hin' as [H | [H | [H | [H | []]]]]; try discriminate H.
    injection H as _ <- _. reflexivity.
Qed.

Lemma server_addr_path (addr0 : sockaddr_un) :
  (1 <= SUN_PATH_SIZE)%nat ->
  (strlen SV_SOCK_PATH <= SUN_PATH_SIZE - 1)%nat ->
  sun_path (server_addr addr0)
  = cstr SV_SOCK_PATH ++ NUL :: repeat NUL (SUN_PATH_SIZE - strlen SV_SOCK_PATH - 1).
Proof.
  intros Hsize Hfit.
  unfold server_addr, memset_addr. cbn [sun_path].
  rewrite strncpy_fits by assumption.
  destruct (SUN_PATH_SIZE - strlen SV_SOCK_PATH)%nat eqn:E; [lia|].
  simpl. rewrite Nat.sub_0_r. reflexivity.
Qed.

Ltac wsimpl :=
  cbn [k_socket k_remove k_bind k_listen k_accept k_stdout w_fs w_fds w_errno
       w_stdout w_stderr w_trace set_errno log_event set_fs set_fds set_accept
       set_kstdout put_stdout put_stderr final].

(** C10.  When the configured path fits, that is [strlen(SV_SOCK_PATH)] is
    at most [sizeof(addr.sun_path) - 1], the address built by lines 52-54
    has the family [AF_UNIX] and a path array that holds the characters of
    the configured path followed by NUL bytes up to the end of the array:
    the path is there in full, it is NUL-terminated, and read as a C
    string the array is the configured path.  This is the address every
    [bind] of the set-up is called with, whatever the automatic variable
    held before. *)
Theorem bind_address_holds_path (addr0 : sockaddr_un) :
  (1 <= SUN_PATH_SIZE)%nat ->
  (strlen SV_SOCK_PATH <= SUN_PATH_SIZE - 1)%nat ->
  sun_family (server_addr addr0) = AF_UNIX
  /\ sun_path (server_addr addr0)
     = cstr SV_SOCK_PATH ++ repeat NUL (SUN_PATH_SIZE - strlen SV_SOCK_PATH)
  /\ List.length (sun_path (server_addr addr0)) = SUN_PATH_SIZE
  /\ nth_error (sun_path (server_addr addr0)) (strlen SV_SOCK_PATH) = Some NUL
  /\ cstr (sun_path (server_addr addr0)) = cstr SV_SOCK_PATH
  /\ forall w pre post fd a r,
       w_trace (final (setup addr0 w))
         = w_trace w ++ pre ++ EvBind fd a r :: post ->
       a = server_addr addr0.
Proof.
  intros Hsize Hfit.
  assert (Hpath : sun_path (server_addr addr0)
                  = cstr SV_SOCK_PATH
                      ++ repeat NUL (SUN_PATH_SIZE - strlen SV_SOCK_PATH)).
  { unfold server_addr, memset_addr. cbn [sun_path].
    apply strncpy_fits; assumption. }
  assert (Hrep : repeat NUL (SUN_PATH_SIZE - strlen SV_SOCK_PATH)
                 = NUL :: repeat NUL (SUN_PATH_SIZE - strlen SV_SOCK_PATH - 1)).
  { destruct (SUN_PATH_SIZE - strlen SV_SOCK_PATH)%nat eqn:E; [lia|].
    simpl. rewrite Nat.sub_0_r. reflexivity. }
  split; [reflexivity|]. split; [assumption|].
  rewrite Hpath. split; [|split; [|split]].
  - rewrite length_app, repeat_length. unfold strlen in *. lia.
  - rewrite Hrep. unfold strlen. rewrite nth_error_app2 by lia.
    rewrite Nat.sub_diag. reflexivity.
  - rewrite Hrep. apply cstr_app_nul.
  - intros w pre post fd a r Htr.
    apply (setup_bind_arg addr0 w pre post fd a r Htr).
Qed.

(** C3 (amended).  When the configured path is too long, [main] ends with
    the non-zero status [EXIT_FAILURE] having made one call only,
    [socket]: nothing has been removed from or created in the file
    system, and nothing is bound.  The check comes after the [socket]
    call of line 35, so when that call succeeded the (unbound) socket is
    open when [fatal] ends the process; when it failed, the process has
    ended on that failure. *)
Theorem too_long_path_fails_after_socket (fuel : nat) (addr0 : sockaddr_un)
    (buf0 : list byte) (w : world) :
  path_too_long = true ->
  exists w' r,
    main fuel addr0 buf0 w = Exit EXIT_FAILURE w'
    /\ EXIT_FAILURE <> 0
    /\ w_trace w' = w_trace w ++ [EvSocket AF_UNIX SOCK_STREAM 0 r]
    /\ w_fs w' = w_fs w
    /\ (k_socket w = None ->
        fd_lookup r (w_fds w') = Some FSock
        /\ socket_open w' = true
        /\ w_stderr w'
           = w_stderr w
               ++ [DFatal (fmt_s "Server socket path too long: " SV_SOCK_PATH)])
    /\ (forall e, k_socket w = Some e ->
          r = -1 /\ w_fds w' = w_fds w
          /\ w_stderr w' = w_stderr w ++ [DErrExit "socket" e]).
Proof.
  intros Hlong. unfold main, bind. rewrite setup_eq.
  unfold sys_socket, sys_done, sys_fail.
  destruct (k_socket w) as [e|] eqn:Hks.
  - cbn [Z.eqb]. eexists; exists (-1). split; [reflexivity|]. wsimpl.
    split; [discriminate|]. split; [reflexivity|]. split; [reflexivity|].
    split; [discriminate|]. intros e' He'. injection He' as <-. auto.
  - replace (fd_fresh (w_fds w) =? -1) with false
      by (symmetry; apply Z.eqb_neq; pose proof (fd_fresh_ge (w_fds w)); lia).
    rewrite Hlong. eexists; exists (fd_fresh (w_fds w)).
    split; [reflexivity|]. wsimpl.
    split; [discriminate|]. split; [reflexivity|]. split; [reflexivity|].
    split; [|discriminate]. intros _.
    split; [apply fd_lookup_put_same|]. split; reflexivity.
Qed.

(** The world after a successful [socket] call. *)
Lemma setup_after_socket (addr0 : sockaddr_un) (w : world) :
  k_socket w = None ->
  path_too_long = false ->
  let sfd := fd_fresh (w_fds w) in
  let w1 := log_event (EvSocket AF_UNIX SOCK_STREAM 0 sfd)
                      (set_fds (fd_put sfd FSock (w_fds w)) w) in
  setup addr0 w =
  match sys_remove SV_SOCK_PATH w1 with
  | Ret r w2 =>
      if (r =? -1) && negb (w_errno w2 =? ENOENT)
      then Exit EXIT_FAILURE
                (put_stderr
                   (DErrExit (fmt_s "remove-" SV_SOCK_PATH) (w_errno w2)) w2)
      else
        match sys_bind sfd (server_addr addr0) w2 with
        | Ret r3 w3 =>
            if r3 =? -1
            then Exit EXIT_FAILURE
                      (put_stderr (DErrExit "bind" (w_errno w3)) w3)
            else
              match sys_listen sfd BACKLOG w3 with
              | Ret r4 w4 =>
                  if r4 =? -1
                  then Exit EXIT_FAILURE
                            (put_stderr (DErrExit "listen" (w_errno w4)) w4)
                  else Ret sfd w4
              | Exit s w4 => Exit s w4
              | Blocked w4 => Blocked w4
              | Fuel w4 => Fuel w4
              end
        | Exit s w3 => Exit s w3
        | Blocked w3 => Blocked w3
        | Fuel w3 => Fuel w3
        end
  | Exit s w2 => Exit s w2
  | Blocked w2 => Blocked w2
  | Fuel w2 => Fuel w2
  end.
Proof.
  intros Hks Hlong sfd w1. rewrite setup_eq.
  unfold sys_socket, sys_done. rewrite Hks. fold sfd. fold w1.
  replace (sfd =? -1) with false
    by (symmetry; apply Z.eqb_neq; pose proof (fd_fresh_ge (w_fds w));
        unfold sfd; lia).
  rewrite Hlong. reflexivity.
Qed.

(** C4 (amended).  With the socket created and a path that fits:
    a [remove] that fails with ENOENT, because there is no entry or for
    any other cause, is not an error, and the set-up goes on to [bind];
    with no entry there and a kernel that refuses neither [bind] nor
    [listen] the set-up succeeds and the entry now exists.  A [remove]
    that fails with another error ends [main] with the non-zero status
    [EXIT_FAILURE], reported by [errExit]; the file system is unchanged,
    nothing is bound, and the socket of line 35 is open at that moment. *)
Theorem stale_path_removal (fuel : nat) (addr0 : sockaddr_un)
    (buf0 : list byte) (w : world) :
  (1 <= SUN_PATH_SIZE)%nat ->
  k_socket w = None ->
  path_too_long = false ->
  (fs_mem (cstr SV_SOCK_PATH) (w_fs w) = false \/ k_remove w = Some ENOENT ->
   exists sfd r post,
     w_trace (final (setup addr0 w))
     = w_trace w ++ [EvSocket AF_UNIX SOCK_STREAM 0 sfd;
                     EvRemove (cstr SV_SOCK_PATH) (-1);
                     EvBind sfd (server_addr addr0) r] ++ post)
  /\ (fs_mem (cstr SV_SOCK_PATH) (w_fs w) = false ->
      k_bind w = None -> k_listen w = None ->
      exists sfd w',
        setup addr0 w = Ret sfd w'
        /\ w_stderr w' = w_stderr w
        /\ w_fs w' = cstr SV_SOCK_PATH :: w_fs w
        /\ fd_lookup sfd (w_fds w') = Some FSock)
  /\ (forall e,
        fs_mem (cstr SV_SOCK_PATH) (w_fs w) = true ->
        k_remove w = Some e -> e <> ENOENT ->
        exists sfd w',
          main fuel addr0 buf0 w = Exit EXIT_FAILURE w'
          /\ EXIT_FAILURE <> 0
          /\ w_trace w'
             = w_trace w ++ [EvSocket AF_UNIX SOCK_STREAM 0 sfd;
                             EvRemove (cstr SV_SOCK_PATH) (-1)]
          /\ w_stderr w'
             = w_stderr w ++ [DErrExit (fmt_s "remove-" SV_SOCK_PATH) e]
          /\ w_fs w' = w_fs w
          /\ socket_open w' = true).
Proof.
  intros Hsize Hks Hlong.
  pose proof (setup_after_socket addr0 w Hks Hlong) as Hsetup.
  cbv zeta in Hsetup.
  set (sfd := fd_fresh (w_fds w)) in *.
  set (w1 := log_event (EvSocket AF_UNIX SOCK_STREAM 0 sfd)
                       (set_fds (fd_put sfd FSock (w_fds w)) w)) in *.
  assert (Hfit : (strlen SV_SOCK_PATH <= SUN_PATH_SIZE - 1)%nat).
  { unfold path_too_long in Hlong. apply Nat.ltb_ge in Hlong. assumption. }
  assert (Hcstr : cstr (sun_path (server_addr addr0)) = cstr SV_SOCK_PATH).
  { rewrite server_addr_path by assumption. apply cstr_app_nul. }
  split; [|split].
  - (* ENOENT: on to bind *)
    intros Hnoent.
    assert (Hrem : sys_remove SV_SOCK_PATH w1
                   = Ret (-1) (log_event (EvRemove (cstr SV_SOCK_PATH) (-1))
                                         (set_errno ENOENT w1))).
    { unfold sys_remove, sys_fail. cbn [w_fs w1 log_event set_fds k_remove].
      destruct Hnoent as [Habs | Hk].
      - rewrite Habs. reflexivity.
      - rewrite Hk. destruct (fs_mem (cstr SV_SOCK_PATH) (w_fs w)); reflexivity. }
    rewrite Hsetup, Hrem. cbn [w_errno log_event set_errno].
    change ((-1 =? -1) && negb (ENOENT =? ENOENT)) with false. cbv iota.
    set (w2 := log_event (EvRemove (cstr SV_SOCK_PATH) (-1)) (set_errno ENOENT w1)).
    destruct (sys_bind_shape sfd (server_addr addr0) w2) as [r3 [w3 [E3 T3]]].
    rewrite E3.
    destruct (r3 =? -1).
    { exists sfd, r3, []. wsimpl. rewrite T3. unfold w2, w1. wsimpl.
      rewrite <- !app_assoc. reflexivity. }
    destruct (sys_listen_shape sfd BACKLOG w3) as [r4 [w4 [E4 T4]]].
    rewrite E4.
    exists sfd, r3, [EvListen sfd BACKLOG r4].
    destruct (r4 =? -1); wsimpl; rewrite T4, T3; unfold w2, w1; wsimpl;
      rewrite <- !app_assoc; reflexivity.
  - (* no entry, bind and listen succeed *)
    intros Habs Hkb Hkl.
    rewrite Hsetup.
    unfold sys_remove, sys_fail. cbn [w_fs w1 log_event set_fds].
    rewrite Habs. cbn [w_errno log_event set_errno].
    change ((-1 =? -1) && negb (ENOENT =? ENOENT)) with false. cbv iota.
    unfold sys_bind, sys_done.
    cbn [w_fds w_fs k_bind w1 log_event set_fds set_errno].
    rewrite fd_lookup_put_same, Hcstr, Habs, Hkb.
    replace (0 =? -1) with false by reflexivity.
    unfold sys_listen, sys_done.
    cbn [w_fds w_fs k_listen w1 log_event set_fds set_errno set_fs].
    rewrite fd_lookup_put_same, Hkl.
    replace (0 =? -1) with false by reflexivity.
    eexists; eexists. split; [reflexivity|]. wsimpl.
    repeat split; auto. apply fd_lookup_put_same.
  - (* another error: fatal *)
    intros e Hmem Hkr Hne.
    unfold main, bind. rewrite Hsetup.
    unfold sys_remove, sys_fail. cbn [w_fs k_remove w1 log_event set_fds].
    rewrite Hmem, Hkr. cbn [w_errno log_event set_errno].
    replace (e =? ENOENT) with false by (symmetry; apply Z.eqb_neq; assumption).
    change ((-1 =? -1) && negb false) with true. cbv iota.
    exists sfd. eexists. split; [reflexivity|]. wsimpl. unfold w1. wsimpl.
    split; [discriminate|]. split; [rewrite <- app_assoc; reflexivity|].
    split; [reflexivity|]. split; reflexivity.
Qed.

(* ================================================================== *)
(** ** What the loop reads and what the sink receives *)

Lemma sys_read_io (fd : Z) (buf : list byte) (count : nat) (w : world) :
  match sys_read fd buf count w with
  | Ret (n, b1) w1 =>
      exists d,
        w_trace w1 = w_trace w ++ [EvRead fd count n d]
        /\ w_stdout w1 = w_stdout w
        /\ (List.length d <= count)%nat
        /\ ((n = Z.of_nat (List.length d)
             /\ (0 < n -> firstn (Z.to_nat n) b1 = d /\ d <> []))
            \/ (n = -1 /\ d = []))
        /\ ((List.length d <= List.length buf)%nat ->
            List.length b1 = List.length buf)
  | Blocked w1 => w1 = w
  | _ => False
  end.
Proof.
  assert (Hnothing : forall (n : Z) (w1 : world),
             n = 0 \/ n = -1 ->
             w_trace w1 = w_trace w ++ [EvRead fd count n []] ->
             w_stdout w1 = w_stdout w ->
             exists d,
               w_trace w1 = w_trace w ++ [EvRead fd count n d]
               /\ w_stdout w1 = w_stdout w
               /\ (List.length d <= count)%nat
               /\ ((n = Z.of_nat (List.length d)
                    /\ (0 < n -> firstn (Z.to_nat n) buf = d /\ d <> []))
                   \/ (n = -1 /\ d = []))
               /\ ((List.length d <= List.length buf)%nat ->
                   List.length buf = List.length buf)).
  { intros n w1 Hn Htr Hout. exists []. cbn [List.length].
    split; [assumption|]. split; [assumption|]. split; [lia|].
    split; [|reflexivity].
    destruct Hn as [-> | ->]; [left; split; [reflexivity | lia] | right; auto]. }
  unfold sys_read.
  destruct (fd_lookup fd (w_fds w)) as [[|c]|];
    try (apply Hnothing; [right|..]; reflexivity).
  destruct count as [|k].
  { apply Hnothing; [left|..]; reflexivity. }
  destruct (c_reads c) as [|[b bs|e] rest].
  - destruct (c_shutdown c); [|reflexivity].
    apply Hnothing; [left|..]; reflexivity.
  - remember (firstn (S k) (b :: bs)) as d eqn:Hd.
    exists d. cbn [w_trace w_stdout log_event set_fds].
    assert (Hne : d <> []) by (subst d; simpl; discriminate).
    split; [reflexivity|]. split; [reflexivity|]. split.
    { subst d. rewrite length_firstn. lia. }
    split.
    { left. split; [reflexivity|]. intros _.
      split; [apply firstn_own_length | assumption]. }
    intros Hle'. rewrite length_app, length_skipn. lia.
  - apply Hnothing; [right|..]; reflexivity.
Qed.

Lemma sys_write_io (buf : list byte) (count : nat) (w : world) :
  exists r w2 wrote rest,
    sys_write STDOUT_FILENO buf count w = Ret r w2
    /\ w_trace w2 = w_trace w ++ [EvWrite STDOUT_FILENO (firstn count buf) r]
    /\ w_stdout w2 = w_stdout w ++ wrote
    /\ firstn count buf = wrote ++ rest
    /\ (r = Z.of_nat (List.length (firstn count buf)) -> rest = []).
Proof.
  unfold sys_write, sys_done, sys_fail. rewrite Z.eqb_refl.
  destruct (k_stdout w) as [|[|k|e] q].
  - exists (Z.of_nat (List.length (firstn count buf))). eexists.
    exists (firstn count buf), [].
    rewrite app_nil_r. repeat split; reflexivity.
  - exists (Z.of_nat (List.length (firstn count buf))). eexists.
    exists (firstn count buf), [].
    rewrite app_nil_r. repeat split; reflexivity.
  - exists (Z.of_nat (List.length (firstn k (firstn count buf)))). eexists.
    exists (firstn k (firstn count buf)), (skipn k (firstn count buf)).
    rewrite firstn_skipn. repeat split; try reflexivity.
    intros Hlen. apply Nat2Z.inj in Hlen.
    rewrite length_firstn in Hlen. apply skipn_all2. lia.
  - exists (-1). eexists. exists [], (firstn count buf).
    cbn [w_stdout w_trace log_event set_errno set_kstdout].
    rewrite app_nil_r. repeat split; try reflexivity. lia.
Qed.

Lemma read_bytes_app (l1 l2 : list event) :
  read_bytes (l1 ++ l2) = read_bytes l1 ++ read_bytes l2.
Proof.
  induction l1 as [|e l1 IH]; [reflexivity|].
  destruct e; simpl; rewrite ?IH, ?app_assoc; reflexivity.
Qed.

(** Every run of the transfer loop: its calls are calls of the loop, and
    what it has added to the sink is what its reads have returned, less,
    when a write was not taken in full and ended the process, the end of
    the last chunk. *)
Lemma transfer_io (fuel : nat) :
  forall (sfd cfd : Z) (buf : list byte) (w : world),
  exists evs out rest,
    w_trace (final (transfer fuel cfd buf w)) = w_trace w ++ evs
    /\ w_stdout (final (transfer fuel cfd buf w)) = w_stdout w ++ out
    /\ read_bytes evs = out ++ rest
    /\ Forall (loop_call BUF_SIZE sfd) evs
    /\ match transfer fuel cfd buf w with
       | Exit _ _ => True
       | _ => rest = []
       end.
Proof.
  induction fuel as [|fuel IH]; intros sfd cfd buf w.
  { exists [], [], []. simpl. rewrite !app_nil_r. auto. }
  rewrite transfer_S.
  pose proof (sys_read_io cfd buf BUF_SIZE w) as Hr.
  destruct (sys_read cfd buf BUF_SIZE w) as [[n b1] w1| | w1 |];
    try contradiction.
  2:{ subst w1. exists [], [], []. simpl. rewrite !app_nil_r. auto. }
  destruct Hr as [d [Htr [Hout [Hle [Hn _]]]]].
  assert (Hcall : loop_call BUF_SIZE sfd (EvRead cfd BUF_SIZE n d)).
  { simpl. split; [reflexivity|]. split; [assumption|].
    destruct Hn as [[Hn _] | Hn]; auto. }
  destruct (n >? 0) eqn:Hpos.
  - rewrite Z.gtb_ltb in Hpos. apply Z.ltb_lt in Hpos.
    destruct Hn as [[Hn Hd] | [Hn _]]; [|lia].
    destruct (Hd Hpos) as [Hbuf Hne].
    destruct (sys_write_io b1 (Z.to_nat n) w1)
      as [r [w2 [wrote [rest [Hw [Htr2 [Hout2 [Hsplit Hfull]]]]]]]].
    rewrite Hw, Hbuf in *.
    assert (Hcall2 : loop_call BUF_SIZE sfd (EvWrite STDOUT_FILENO d r)).
    { simpl. auto. }
    destruct (r =? n) eqn:Hrn.
    + apply Z.eqb_eq in Hrn. subst r.
      rewrite (Hfull Hn), app_nil_r in Hsplit. subst wrote.
      destruct (IH sfd cfd b1 w2) as [evs [out [rest' [Htr' [Hout' [Hrb [Hall Hend]]]]]]].
      exists ([EvRead cfd BUF_SIZE n d; EvWrite STDOUT_FILENO d n] ++ evs),
             (d ++ out), rest'.
      split; [rewrite Htr', Htr2, Htr, <- !app_assoc; reflexivity|].
      split; [rewrite Hout', Hout2, Hout, <- !app_assoc; reflexivity|].
      split; [simpl; rewrite Hrb, app_assoc; reflexivity|].
      split; [constructor; [assumption | constructor; assumption]|].
      assumption.
    + exists [EvRead cfd BUF_SIZE n d; EvWrite STDOUT_FILENO d r], wrote, rest.
      cbn [final w_trace w_stdout put_stderr].
      split; [rewrite Htr2, Htr, <- !app_assoc; reflexivity|].
      split; [rewrite Hout2, Hout; reflexivity|].
      split; [simpl; rewrite app_nil_r; assumption|].
      split; [|exact I].
      constructor; [assumption | constructor; [assumption | constructor]].
  - exists [EvRead cfd BUF_SIZE n d], [], [].
    cbn [final]. rewrite app_nil_r.
    split; [assumption|]. split; [assumption|].
    split.
    { simpl. rewrite app_nil_r.
      rewrite Z.gtb_ltb in Hpos. apply Z.ltb_ge in Hpos.
      destruct Hn as [[Hn _] | [_ Hn]]; [|assumption].
      destruct d; [reflexivity | simpl in Hn; lia]. }
    split; [constructor; [assumption | constructor] | reflexivity].
Qed.


Lemma serve_io (fuel : nat) (sfd : Z) (buf : list byte) (w : world) :
  exists evs out rest,
    w_trace (final (serve fuel sfd buf w)) = w_trace w ++ evs
    /\ w_stdout (final (serve fuel sfd buf w)) = w_stdout w ++ out
    /\ read_bytes evs = out ++ rest
    /\ Forall (loop_call BUF_SIZE sfd) evs
    /\ match serve fuel sfd buf w with
       | Exit _ _ => True
       | _ => rest = []
       end.
Proof.
  rewrite serve_eq.
  pose proof (sys_accept_cases sfd w) as Ha.
  destruct (sys_accept sfd w) as [cfd w1| | w1 |]; try contradiction.
  2:{ destruct Ha as [-> _]. exists [], [], []. simpl. rewrite !app_nil_r. auto. }
  destruct Ha as [Hout1 [_ [_ [Htr1 _]]]].
  assert (Hacc : loop_call BUF_SIZE sfd (EvAccept sfd cfd)) by reflexivity.
  destruct (cfd =? -1).
  { exists [EvAccept sfd cfd], [], []. cbn [final w_trace w_stdout put_stderr].
    rewrite app_nil_r. repeat split; auto. }
  destruct (transfer_io fuel sfd cfd buf w1)
    as [evs [out [rest [Htr2 [Hout2 [Hrb [Hall Hend]]]]]]].
  destruct (transfer fuel cfd buf w1) as [[n b] w2 | s w2 | w2 | w2];
    cbn [final] in *.
  - destruct (n =? -1).
    + exists ([EvAccept sfd cfd] ++ evs), out, rest.
      cbn [final w_trace w_stdout put_stderr].
      split; [rewrite Htr2, Htr1, <- app_assoc; reflexivity|].
      split; [rewrite Hout2, Hout1; reflexivity|].
      split; [exact Hrb|]. split; [constructor; assumption | exact I].
    + destruct (sys_close_shape cfd w2) as [r [w3 [Hc [Htr3 [_ [Hout3 _]]]]]].
      rewrite Hc.
      exists ([EvAccept sfd cfd] ++ evs ++ [EvClose cfd r]), out, rest.
      assert (Hrb' : read_bytes ([EvAccept sfd cfd] ++ evs ++ [EvClose cfd r])
                     = out ++ rest).
      { simpl. rewrite read_bytes_app. simpl. rewrite app_nil_r. exact Hrb. }
      assert (Hall' : Forall (loop_call BUF_SIZE sfd)
                             ([EvAccept sfd cfd] ++ evs ++ [EvClose cfd r])).
      { constructor; [assumption|]. apply Forall_app. split; [assumption|].
        constructor; [exact I | constructor]. }
      destruct (r =? -1); cbn [final w_trace w_stdout put_stderr];
        (split; [rewrite Htr3, Htr2, Htr1, <- !app_assoc; reflexivity|]);
        (split; [rewrite Hout3, Hout2, Hout1; reflexivity|]); auto.
  - exists ([EvAccept sfd cfd] ++ evs), out, rest.
    split; [rewrite Htr2, Htr1, <- app_assoc; reflexivity|].
    split; [rewrite Hout2, Hout1; reflexivity|].
    split; [exact Hrb|]. split; [constructor; assumption | exact I].
  - exists ([EvAccept sfd cfd] ++ evs), out, rest.
    split; [rewrite Htr2, Htr1, <- app_assoc; reflexivity|].
    split; [rewrite Hout2, Hout1; reflexivity|].
    split; [exact Hrb|]. split; [constructor; assumption | exact Hend].
  - exists ([EvAccept sfd cfd] ++ evs), out, rest.
    split; [rewrite Htr2, Htr1, <- app_assoc; reflexivity|].
    split; [rewrite Hout2, Hout1; reflexivity|].
    split; [exact Hrb|]. split; [constructor; assumption | exact Hend].
Qed.

Lemma accept_loop_io (fuel : nat) :
  forall (sfd : Z) (buf : list byte) (w : world),
  exists evs out rest,
    w_trace (final (accept_loop fuel sfd buf w)) = w_trace w ++ evs
    /\ w_stdout (final (accept_loop fuel sfd buf w)) = w_stdout w ++ out
    /\ read_bytes evs = out ++ rest
    /\ Forall (loop_call BUF_SIZE sfd) evs
    /\ match accept_loop fuel sfd buf w with
       | Exit _ _ => True
       | _ => rest = []
       end.
Proof.
  induction fuel as [|fuel IH]; intros sfd buf w.
  { exists [], [], []. simpl. rewrite !app_nil_r. auto. }
  rewrite accept_loop_S.
  destruct (serve_io fuel sfd buf w)
    as [evs [out [rest [Htr [Hout [Hrb [Hall Hend]]]]]]].
  destruct (serve fuel sfd buf w) as [b w1 | s w1 | w1 | w1];
    cbn [final] in *; try (exists evs, out, rest; auto; fail).
  subst rest. rewrite app_nil_r in Hrb.
  destruct (IH sfd b w1) as [evs2 [out2 [rest2 [Htr2 [Hout2 [Hrb2 [Hall2 Hend2]]]]]]].
  exists (evs ++ evs2), (out ++ out2), rest2.
  split; [rewrite Htr2, Htr, <- app_assoc; reflexivity|].
  split; [rewrite Hout2, Hout, <- app_assoc; reflexivity|].
  split; [rewrite read_bytes_app, Hrb, Hrb2, <- app_assoc; reflexivity|].
  split; [apply Forall_app; auto | exact Hend2].
Qed.

(** *** The set-up, case by case *)

Lemma sys_socket_frame (d t p : Z) (w : world) :
  exists r w',
    sys_socket d t p w = Ret r w'
    /\ w_trace w' = w_trace w ++ [EvSocket d t p r]
    /\ w_stdout w' = w_stdout w /\ w_stderr w' = w_stderr w.
Proof.
  unfold sys_socket, sys_done, sys_fail.
  destruct (k_socket w); eexists; eexists; repeat split; reflexivity.
Qed.

Lemma sys_remove_frame (path : list byte) (w : world) :
  exists r w',
    sys_remove path w = Ret r w'
    /\ w_trace w' = w_trace w ++ [EvRemove (cstr path) r]
    /\ w_stdout w' = w_stdout w /\ w_stderr w' = w_stderr w.
Proof.
  unfold sys_remove, sys_done, sys_fail.
  destruct (fs_mem (cstr path) (w_fs w)); [destruct (k_remove w)|];
    eexists; eexists; repeat split; reflexivity.
Qed.

Lemma sys_bind_frame (fd : Z) (addr : sockaddr_un) (w : world) :
  exists r w',
    sys_bind fd addr w = Ret r w'
    /\ w_trace w' = w_trace w ++ [EvBind fd addr r]
    /\ w_stdout w' = w_stdout w /\ w_stderr w' = w_stderr w.
Proof.
  unfold sys_bind, sys_done, sys_fail.
  destruct (fd_lookup fd (w_fds w)) as [[|c]|];
    [destruct (fs_mem (cstr (sun_path addr)) (w_fs w)); [|destruct (k_bind w)]| |];
    eexists; eexists; repeat split; reflexivity.
Qed.

Lemma sys_listen_frame (fd backlog : Z) (w : world) :
  exists r w',
    sys_listen fd backlog w = Ret r w'
    /\ w_trace w' = w_trace w ++ [EvListen fd backlog r]
    /\ w_stdout w' = w_stdout w /\ w_stderr w' = w_stderr w.
Proof.
  unfold sys_listen, sys_done, sys_fail.
  destruct (fd_lookup fd (w_fds w)) as [[|c]|];
    [destruct (k_listen w)| |];
    eexists; eexists; repeat split; reflexivity.
Qed.

(** Every run of the set-up: it makes calls of the set-up only and leaves
    the sink alone; when it returns no call has failed; when a [socket],
    [bind] or [listen] has failed, that call is the last and [errExit]
    has reported it. *)
Lemma setup_cases (addr0 : sockaddr_un) (w : world) :
  exists evs,
    w_trace (final (setup addr0 w)) = w_trace w ++ evs
    /\ w_stdout (final (setup addr0 w)) = w_stdout w
    /\ Forall setup_call evs
    /\ match setup addr0 w with
       | Ret _ w' => none_failed evs /\ w_stderr w' = w_stderr w
       | Exit s w' =>
           s = EXIT_FAILURE
           /\ (none_failed evs
               \/ exists c e,
                    evs = c ++ [e] /\ none_failed c /\ setup_failed e = true
                    /\ w_stderr w'
                       = w_stderr w ++ [setup_diag e (w_errno w')])
       | _ => False
       end.
Proof.
  rewrite setup_eq.
  destruct (sys_socket_frame AF_UNIX SOCK_STREAM 0 w)
    as [sfd [w1 [E1 [T1 [O1 S1]]]]].
  rewrite E1.
  destruct (sfd =? -1) eqn:Hsfd.
  { eexists. cbn [final w_trace w_stdout w_stderr w_errno put_stderr].
    split; [exact T1|]. split; [exact O1|].
    split; [constructor; [exact I | constructor]|].
    split; [reflexivity|]. right.
    exists [], (EvSocket AF_UNIX SOCK_STREAM 0 sfd).
    split; [reflexivity|]. split; [reflexivity|]. split; [exact Hsfd|].
    rewrite S1. reflexivity. }
  assert (N1 : none_failed [EvSocket AF_UNIX SOCK_STREAM 0 sfd]).
  { unfold none_failed. simpl. rewrite Hsfd. reflexivity. }
  destruct path_too_long.
  { eexists. cbn [final w_trace w_stdout put_stderr].
    split; [exact T1|]. split; [exact O1|].
    split; [constructor; [exact I | constructor]|].
    split; [reflexivity|]. left. exact N1. }
  destruct (sys_remove_frame SV_SOCK_PATH w1) as [r [w2 [E2 [T2 [O2 S2]]]]].
  rewrite E2. rewrite T1 in T2. rewrite O1 in O2. rewrite S1 in S2.
  assert (N2 : none_failed [EvSocket AF_UNIX SOCK_STREAM 0 sfd;
                            EvRemove (cstr SV_SOCK_PATH) r]).
  { unfold none_failed. simpl. rewrite Hsfd. reflexivity. }
  destruct ((r =? -1) && negb (w_errno w2 =? ENOENT)).
  { eexists. cbn [final w_trace w_stdout put_stderr].
    split; [rewrite T2, <- app_assoc; reflexivity|]. split; [exact O2|].
    split; [constructor; [exact I | constructor; [exact I | constructor]]|].
    split; [reflexivity|]. left. exact N2. }
  destruct (sys_bind_frame sfd (server_addr addr0) w2)
    as [r3 [w3 [E3 [T3 [O3 S3]]]]].
  rewrite E3. rewrite T2 in T3. rewrite O2 in O3. rewrite S2 in S3.
  destruct (r3 =? -1) eqn:Hr3.
  { eexists. cbn [final w_trace w_stdout w_stderr w_errno put_stderr].
    split; [rewrite T3, <- !app_assoc; reflexivity|]. split; [exact O3|].
    split; [repeat (constructor; [exact I|]); constructor|].
    split; [reflexivity|]. right.
    exists [EvSocket AF_UNIX SOCK_STREAM 0 sfd; EvRemove (cstr SV_SOCK_PATH) r],
           (EvBind sfd (server_addr addr0) r3).
    split; [reflexivity|]. split; [exact N2|]. split; [exact Hr3|].
    rewrite S3. reflexivity. }
  assert (N3 : none_failed [EvSocket AF_UNIX SOCK_STREAM 0 sfd;
                            EvRemove (cstr SV_SOCK_PATH) r;
                            EvBind sfd (server_addr addr0) r3]).
  { unfold none_failed. simpl. rewrite Hsfd, Hr3. reflexivity. }
  destruct (sys_listen_frame sfd BACKLOG w3) as [r4 [w4 [E4 [T4 [O4 S4]]]]].
  rewrite E4. rewrite T3 in T4. rewrite O3 in O4. rewrite S3 in S4.
  destruct (r4 =? -1) eqn:Hr4.
  { eexists. cbn [final w_trace w_stdout w_stderr w_errno put_stderr].
    split; [rewrite T4, <- !app_assoc; reflexivity|]. split; [exact O4|].
    split; [repeat (constructor; [exact I|]); constructor|].
    split; [reflexivity|]. right.
    exists [EvSocket AF_UNIX SOCK_STREAM 0 sfd; EvRemove (cstr SV_SOCK_PATH) r;
            EvBind sfd (server_addr addr0) r3],
           (EvListen sfd BACKLOG r4).
    split; [reflexivity|]. split; [exact N3|]. split; [exact Hr4|].
    rewrite S4. reflexivity. }
  eexists. cbn [final].
  split; [rewrite T4, <- !app_assoc; reflexivity|]. split; [exact O4|].
  split; [repeat (constructor; [exact I|]); constructor|].
  split; [|exact S4].
  unfold none_failed. simpl. rewrite Hsfd, Hr3, Hr4. reflexivity.
Qed.


(* ================================================================== *)
(** ** Every run of the server *)

Lemma failed_is_last (p post c : list event) (e f : event) :
  none_failed c -> setup_failed e = true ->
  p ++ e :: post = c ++ [f] ->
  post = [] /\ p = c /\ e = f.
Proof.
  intros Hc He Heq.
  destruct post as [|y post].
  - apply (app_inj_tail p c e f) in Heq. tauto.
  - exfalso.
    destruct (exists_last (l := y :: post)) as [l2 [z Hz]]; [discriminate|].
    rewrite Hz in Heq.
    change (p ++ e :: l2 ++ [z]) with (p ++ (e :: l2) ++ [z]) in Heq.
    rewrite app_assoc in Heq.
    apply app_inj_tail in Heq. destruct Heq as [Heq _].
    subst c. unfold none_failed in Hc.
    rewrite forallb_app in Hc. apply andb_true_iff in Hc.
    destruct Hc as [_ Hc]. simpl in Hc. rewrite He in Hc. discriminate.
Qed.

Lemma none_failed_in (evs : list event) (e : event) :
  none_failed evs -> In e evs -> setup_failed e = false.
Proof.
  unfold none_failed. intros Hn Hin.
  rewrite forallb_forall in Hn. specialize (Hn e Hin).
  apply negb_true_iff in Hn. exact Hn.
Qed.

Lemma loop_call_not_failed (count : nat) (sfd : Z) (e : event) :
  loop_call count sfd e -> setup_failed e = false.
Proof. destruct e; simpl; intros H; try reflexivity; contradiction. Qed.

Lemma setup_call_no_read (evs : list event) :
  Forall setup_call evs -> read_bytes evs = [].
Proof.
  induction 1 as [|e evs He _ IH]; [reflexivity|].
  destruct e; simpl in *; try contradiction; assumption.
Qed.


(** X2.  In every run of [main], a [socket], [bind] or [listen] that
    returns -1 is the last call the process makes: the calls before it
    are calls of the set-up, so no [accept] was ever made, and the run is
    an exit with [EXIT_FAILURE] reported by [errExit] with the name of
    the call. *)
Theorem setup_failure_ends_server (fuel : nat) (addr0 : sockaddr_un)
    (buf0 : list byte) (w : world) (pre post : list event) (e : event) :
  w_trace (final (main fuel addr0 buf0 w)) = w_trace w ++ pre ++ e :: post ->
  setup_failed e = true ->
  post = []
  /\ Forall setup_call pre
  /\ exists w' ds,
       main fuel addr0 buf0 w = Exit EXIT_FAILURE w'
       /\ w_stderr w' = ds ++ [setup_diag e (w_errno w')].
Proof.
  intros Htr He. unfold main, bind in *.
  destruct (setup_cases addr0 w) as [evs [Htr1 [_ [Hcalls Hcase]]]].
  destruct (setup addr0 w) as [sfd w1 | s w1 | w1 | w1]; try contradiction.
  - exfalso. destruct Hcase as [Hnone _].
    destruct (accept_loop_io fuel sfd buf0 w1) as [evs2 [_ [_ [Htr2 [_ [_ [Hall _]]]]]]].
    cbn [final] in Htr1. rewrite Htr2, Htr1, <- app_assoc in Htr.
    apply app_inv_head in Htr.
    assert (Hin : In e (evs ++ evs2)).
    { rewrite Htr. apply in_or_app. right. left. reflexivity. }
    apply in_app_or in Hin. destruct Hin as [Hin | Hin].
    + rewrite (none_failed_in evs e Hnone Hin) in He. discriminate.
    + rewrite Forall_forall in Hall.
      rewrite (loop_call_not_failed _ _ _ (Hall e Hin)) in He. discriminate.
  - cbn [final] in *. rewrite Htr1 in Htr. apply app_inv_head in Htr.
    destruct Hcase as [-> [Hnone | [c [f [Hevs [Hnone [Hf Herr]]]]]]].
    + exfalso.
      assert (Hin : In e evs).
      { rewrite Htr. apply in_or_app. right. left. reflexivity. }
      rewrite (none_failed_in evs e Hnone Hin) in He. discriminate.
    + rewrite Hevs in Htr. symmetry in Htr.
      destruct (failed_is_last _ _ _ _ _ Hnone He Htr) as [-> [-> ->]].
      split; [reflexivity|]. split.
      * rewrite Hevs in Hcalls. apply Forall_app in Hcalls. tauto.
      * exists w1, (w_stderr w). auto.
Qed.

(** X3.  In every run of [main], an [accept] that returns -1 is the last
    call the process makes, and the run is an exit with [EXIT_FAILURE]
    reported by [errExit] with the message "accept". *)
Theorem accept_error_aborts_server (fuel : nat) (addr0 : sockaddr_un)
    (buf0 : list byte) (w : world) (pre post : list event) (fd : Z) :
  w_trace (final (main fuel addr0 buf0 w))
    = w_trace w ++ pre ++ EvAccept fd (-1) :: post ->
  post = []
  /\ exists w' ds,
       main fuel addr0 buf0 w = Exit EXIT_FAILURE w'
       /\ w_stderr w' = ds ++ [DErrExit "accept" (w_errno w')].
Proof.
  intros Htr.
  destruct (fatal_event_ends_run fuel addr0 buf0 w pre post _ Htr)
    as [Hpost [w' [tail [dg [ds [c [Hm [Hf [Hpre [Hc Hs]]]]]]]]]];
    [reflexivity|].
  split; [assumption|].
  exists w', ds. split; [assumption|].
  inversion Hf as [sfd H | cfd d H | cfd d r' Hne Hr' H].
  - subst dg. assumption.
  - change [EvRead cfd BUF_SIZE (-1) d]
      with ([] ++ [EvRead cfd BUF_SIZE (-1) d]) in H.
    apply app_inj_tail in H. destruct H as [_ H]. discriminate H.
  - change [EvRead cfd BUF_SIZE (Z.of_nat (Datatypes.length d)) d;
            EvWrite STDOUT_FILENO d r']
      with ([EvRead cfd BUF_SIZE (Z.of_nat (Datatypes.length d)) d]
              ++ [EvWrite STDOUT_FILENO d r']) in H.
    apply app_inj_tail in H. destruct H as [_ H]. discriminate H.
Qed.

(** The calls and the sink of every run of [main]. *)
Lemma main_io (fuel : nat) (addr0 : sockaddr_un) (buf0 : list byte)
    (w : world) :
  exists evs out rest,
    w_trace (final (main fuel addr0 buf0 w)) = w_trace w ++ evs
    /\ w_stdout (final (main fuel addr0 buf0 w)) = w_stdout w ++ out
    /\ read_bytes evs = out ++ rest
    /\ Forall (io_bounded BUF_SIZE) evs
    /\ match main fuel addr0 buf0 w with
       | Exit _ _ => True
       | _ => rest = []
       end.
Proof.
  assert (Hs2io : forall evs, Forall setup_call evs ->
                              Forall (io_bounded BUF_SIZE) evs).
  { intros evs H. eapply Forall_impl; [|exact H].
    intros e He. destruct e; simpl in *; auto; contradiction. }
  assert (Hl2io : forall sfd evs, Forall (loop_call BUF_SIZE sfd) evs ->
                                  Forall (io_bounded BUF_SIZE) evs).
  { intros sfd evs H. eapply Forall_impl; [|exact H].
    intros e He. destruct e; simpl in *; auto; tauto. }
  unfold main, bind.
  destruct (setup_cases addr0 w) as [evs [Htr1 [Hout1 [Hcalls Hcase]]]].
  pose proof (setup_call_no_read evs Hcalls) as Hrb1.
  destruct (setup addr0 w) as [sfd w1 | s w1 | w1 | w1]; try contradiction;
    cbn [final] in *.
  - destruct (accept_loop_io fuel sfd buf0 w1)
      as [evs2 [out [rest [Htr2 [Hout2 [Hrb2 [Hall Hend]]]]]]].
    exists (evs ++ evs2), out, rest.
    split; [rewrite Htr2, Htr1, <- app_assoc; reflexivity|].
    split; [rewrite Hout2, Hout1; reflexivity|].
    split; [rewrite read_bytes_app, Hrb1; exact Hrb2|].
    split; [apply Forall_app; split; eauto | exact Hend].
  - exists evs, [], []. rewrite app_nil_r.
    split; [exact Htr1|]. split; [exact Hout1|].
    split; [exact Hrb1|]. split; [auto | exact I].
Qed.


(** X5.  In every run of [main], every [read] asks for exactly [BUF_SIZE]
    bytes and delivers at most [BUF_SIZE], and every [write] goes to
    standard output with a non-empty chunk of at most [BUF_SIZE] bytes. *)
Theorem transfers_stay_in_buffer_bounds (fuel : nat) (addr0 : sockaddr_un)
    (buf0 : list byte) (w : world) :
  exists evs,
    w_trace (final (main fuel addr0 buf0 w)) = w_trace w ++ evs
    /\ Forall (io_bounded BUF_SIZE) evs.
Proof.
  destruct (main_io fuel addr0 buf0 w)
    as [evs [out [rest [Htr [_ [_ [Hall _]]]]]]].
  exists evs. auto.
Qed.


(* ================================================================== *)
(** ** The set-up on a kernel that refuses nothing *)





(** *** The copy of line 54 *)

Lemma cstr_firstn (n : nat) (s rest : list byte) :
  cstr (firstn n (cstr s) ++ NUL :: rest) = firstn n (cstr s).
Proof.
  revert n. induction s as [|b s IH]; intros n.
  - simpl. rewrite firstn_nil. reflexivity.
  - simpl. destruct (is_nul b) eqn:Hb.
    + rewrite firstn_nil. reflexivity.
    + destruct n as [|n]; [reflexivity|].
      simpl. rewrite Hb, IH. reflexivity.
Qed.

Lemma repeat_snoc (n : nat) (x : byte) : repeat x n ++ [x] = x :: repeat x n.
Proof. induction n as [|n IH]; simpl; [reflexivity | rewrite IH; reflexivity]. Qed.

(** X7.  Whatever the configured path, the path array of the address
    built by lines 52-54 has its full size, ends with a NUL byte, and read
    as a C string holds the first [sizeof(addr.sun_path) - 1] characters
    of the path: the copy is the whole path exactly when the check of
    line 45 lets the program go on, and a longer path would have been cut
    short. *)
Theorem bind_path_is_bounded_copy (addr0 : sockaddr_un) :
  (1 <= SUN_PATH_SIZE)%nat ->
  List.length (sun_path (server_addr addr0)) = SUN_PATH_SIZE
  /\ nth_error (sun_path (server_addr addr0)) (SUN_PATH_SIZE - 1) = Some NUL
  /\ cstr (sun_path (server_addr addr0))
     = firstn (SUN_PATH_SIZE - 1) (cstr SV_SOCK_PATH)
  /\ (cstr (sun_path (server_addr addr0)) = cstr SV_SOCK_PATH
      <-> path_too_long = false).
Proof.
  intros Hsize.
  assert (Hpath : sun_path (server_addr addr0)
                  = firstn (SUN_PATH_SIZE - 1) (cstr SV_SOCK_PATH)
                      ++ NUL :: repeat NUL
                           (SUN_PATH_SIZE - 1
                            - List.length (firstn (SUN_PATH_SIZE - 1)
                                                  (cstr SV_SOCK_PATH)))).
  { unfold server_addr, memset_addr, strncpy. cbn [sun_path].
    rewrite skipn_repeat.
    replace (SUN_PATH_SIZE - (SUN_PATH_SIZE - 1))%nat with 1%nat by lia.
    change (repeat NUL 1) with [NUL]. rewrite repeat_snoc. reflexivity. }
  assert (Hlen : (List.length (firstn (SUN_PATH_SIZE - 1) (cstr SV_SOCK_PATH))
                  <= SUN_PATH_SIZE - 1)%nat).
  { rewrite length_firstn. lia. }
  assert (Hc : cstr (sun_path (server_addr addr0))
               = firstn (SUN_PATH_SIZE - 1) (cstr SV_SOCK_PATH)).
  { rewrite Hpath. apply cstr_firstn. }
  split; [|split; [|split; [exact Hc|]]].
  - rewrite Hpath, length_app. cbn [List.length]. rewrite repeat_length. lia.
  - rewrite Hpath, nth_error_app2 by exact Hlen.
    set (k := (SUN_PATH_SIZE - 1
               - List.length (firstn (SUN_PATH_SIZE - 1) (cstr SV_SOCK_PATH)))%nat).
    change (NUL :: repeat NUL k) with (repeat NUL (S k)).
    apply nth_error_repeat. unfold k. lia.
  - rewrite Hc. unfold path_too_long, strlen. rewrite Nat.ltb_ge. split.
    + intros H. apply (f_equal (@List.length byte)) in H.
      rewrite length_firstn in H. lia.
    + intros H. apply firstn_all2. exact H.
Qed.


(* ================================================================== *)
(** ** Descriptors, the buffer, and clients that do not close *)

Lemma fd_lookup_del_same (fd : Z) (fds : list (Z * file)) :
  fd_lookup fd (fd_del fd fds) = None.
Proof.
  unfold fd_del. induction fds as [|[k f] fds IH]; [reflexivity|].
  simpl. destruct (k =? fd) eqn:E; simpl; [assumption|].
  rewrite E. assumption.
Qed.

Lemma fd_lookup_unused (fd : Z) (fds : list (Z * file)) :
  fd_used fds fd = false -> fd_lookup fd fds = None.
Proof.
  unfold fd_used. induction fds as [|[k f] fds IH]; [reflexivity|].
  simpl. destruct (k =? fd); simpl; [discriminate | assumption].
Qed.

Lemma sys_accept_fresh (sfd cfd : Z) (w w1 : world) :
  sys_accept sfd w = Ret cfd w1 ->
  (cfd =? -1) = false ->
  fd_lookup cfd (w_fds w) = None
  /\ (exists c, fd_lookup cfd (w_fds w1) = Some (FConn c))
  /\ forall fd, fd <> cfd -> fd_lookup fd (w_fds w1) = fd_lookup fd (w_fds w).
Proof.
  unfold sys_accept, sys_done, sys_fail.
  destruct (fd_lookup sfd (w_fds w)) as [[|c]|];
    try (intros H; injection H as <- _; discriminate).
  destruct (k_accept w) as [|[e|c] q]; [discriminate | |].
  { intros H; injection H as <- _; discriminate. }
  intros H _. injection H as <- <-.
  cbn [w_fds log_event set_fds set_accept].
  split; [apply fd_lookup_unused, fd_fresh_unused|].
  split; [exists c; apply fd_lookup_put_same|].
  intros fd Hne. apply fd_lookup_put_other. assumption.
Qed.

Lemma sys_close_gone (cfd r : Z) (w w' : world) :
  sys_close cfd w = Ret r w' ->
  fd_lookup cfd (w_fds w') = None.
Proof.
  unfold sys_close, sys_done, sys_fail.
  destruct (fd_lookup cfd (w_fds w)) as [[|c]|] eqn:Hl;
    [ | destruct (c_close c) | ];
    intros H; injection H as _ <-;
    cbn [w_fds log_event set_fds set_errno];
    try apply fd_lookup_del_same.
  exact Hl.
Qed.

(** X8.  A pass of the loop body that returns to the loop leaves no
    descriptor behind: the connection it accepted is closed, also when
    [close] reported an error, and every descriptor is open or not as it
    was before the pass. *)
Theorem pass_leaves_no_descriptor (fuel : nat) (sfd : Z) (buf b' : list byte)
    (w w' : world) :
  (0 < BUF_SIZE)%nat ->
  serve fuel sfd buf w = Ret b' w' ->
  forall fd, fd_lookup fd (w_fds w') = fd_lookup fd (w_fds w).
Proof.
  intros Hpos Hrun fd. rewrite serve_eq in Hrun.
  destruct (sys_accept sfd w) as [cfd w1| | w1 |] eqn:Ha;
    try discriminate Hrun.
  destruct (cfd =? -1) eqn:Hcfd; [discriminate Hrun|].
  destruct (sys_accept_fresh sfd cfd w w1 Ha Hcfd) as [Hnew [[c Hl1] Hfr1]].
  destruct (transfer fuel cfd buf w1) as [[n b1] w2| | |] eqn:Htrans;
    try discriminate Hrun.
  destruct (n =? -1) eqn:Hn1; [discriminate Hrun|].
  assert (Hn0 : n = 0).
  { destruct (transfer_shape fuel cfd buf w1) as [evs [_ Hsh]].
    rewrite Htrans in Hsh. destruct Hsh as [[H0 _] | [H1 _]]; [assumption|].
    subst n. discriminate Hn1. }
  subst n.
  destruct (transfer_eof fuel cfd buf w1 c b1 w2 Hpos Hl1 Htrans)
    as [_ [_ [_ [_ [[c' [Hl2 _]] [Hfr2 _]]]]]].
  destruct (sys_close_conn cfd w2 c' Hl2)
    as [r [w3 [Hclose [_ [_ [_ [_ [Hfr3 _]]]]]]]].
  pose proof (sys_close_gone cfd r w2 w3 Hclose) as Hgone.
  rewrite Hclose in Hrun.
  assert (Hfds : w_fds w' = w_fds w3).
  { destruct (r =? -1); injection Hrun as _ <-; reflexivity. }
  rewrite Hfds.
  destruct (Z.eq_dec fd cfd) as [-> | Hne].
  - rewrite Hgone, Hnew. reflexivity.
  - rewrite (Hfr3 fd Hne), (Hfr2 fd Hne). apply Hfr1. assumption.
Qed.

(** The transfer loop on a client that stops sending without closing. *)
Lemma transfer_blocks (fuel : nat) :
  forall (cfd : Z) (buf : list byte) (w : world) (c : conn),
  (0 < BUF_SIZE)%nat ->
  fd_lookup cfd (w_fds w) = Some (FConn c) ->
  silent c ->
  k_stdout w = [] ->
  (work c <= fuel)%nat ->
  exists w',
    transfer fuel cfd buf w = Blocked w'
    /\ w_stdout w' = w_stdout w ++ sent c
    /\ w_stderr w' = w_stderr w
    /\ k_accept w' = k_accept w.
Proof.
  induction fuel as [|fuel IH]; intros cfd buf w c Hpos Hl [Hok Hsh] Hks Hfuel.
  { pose proof (work_steps_pos (c_reads c)). unfold work in Hfuel. lia. }
  rewrite transfer_S.
  pose proof (sys_read_conn cfd buf BUF_SIZE w c Hpos Hl) as Hr.
  destruct (sys_read cfd buf BUF_SIZE w) as [[n b1] w1| | w1 |];
    try contradiction.
  2:{ destruct Hr as [-> [Hreads _]]. exists w.
      unfold sent. rewrite Hreads. simpl. rewrite app_nil_r. auto. }
  destruct Hr as [Hout [Herr [Hacc [Hks1 [Hfr Hcases]]]]].
  destruct Hcases as [[_ [_ [Hsh' _]]] | [[Hn Hbad] | [d [c1 Hc]]]];
    try congruence.
  destruct Hc as [[Hne Hle] [Hn [Hbuf [Htr [Hl1 [Hcl [Hsh1 [Hsent [Hok1 Hwork]]]]]]]]].
  assert (Hgt : (n >? 0) = true).
  { rewrite Z.gtb_ltb. apply Z.ltb_lt. destruct d; [congruence|].
    rewrite Hn. simpl. lia. }
  rewrite Hgt.
  destruct (sys_write_stdout b1 (Z.to_nat n) w1)
    as [r [w2 [Hw [Htr2 [Herr2 [Hfds2 [Hacc2 [Hempty Hfull]]]]]]]].
  rewrite Hw, Hbuf in *.
  destruct Hempty as [Hks2 Hr]; [congruence|].
  specialize (Hfull Hr).
  rewrite Hr, <- Hn, Z.eqb_refl.
  destruct (IH cfd b1 w2 c1) as [w' [Hb [Hout' [Herr' Hacc']]]]; auto.
  - rewrite Hfds2. assumption.
  - split; congruence.
  - lia.
  - exists w'. split; [assumption|].
    split; [rewrite Hout', Hfull, Hout, <- app_assoc, Hsent; reflexivity|].
    split; congruence.
Qed.

(** X9.  A client that stops sending without closing its end holds the
    server: once what it has sent is forwarded to the sink the pass never
    returns, no diagnostic is printed, the process does not exit, and the
    connections queued behind it are never accepted. *)
Theorem silent_client_blocks_server (fuel : nat) (sfd : Z)
    (buf : list byte) (w : world) (c : conn) (q : list accept_step) :
  (0 < BUF_SIZE)%nat ->
  fd_lookup sfd (w_fds w) = Some FSock ->
  k_accept w = AcConn c :: q ->
  silent c ->
  k_stdout w = [] ->
  (work c <= fuel)%nat ->
  exists w',
    accept_loop (S fuel) sfd buf w = Blocked w'
    /\ w_stdout w' = w_stdout w ++ sent c
    /\ w_stderr w' = w_stderr w
    /\ k_accept w' = q.
Proof.
  intros Hpos Hl Hq Hsil Hks Hfuel.
  destruct (sys_accept_conn sfd w c q Hl Hq)
    as [cfd [w1 [Ha [Hne [Hl1 [Hks1 [Hout1 [_ Hq1]]]]]]]].
  destruct (transfer_blocks fuel cfd buf w1 c Hpos Hl1 Hsil) as
    [w' [Hb [Hout [Herr Hacc]]]]; [congruence | assumption |].
  exists w'. rewrite accept_loop_S, serve_eq, Ha, Hne, Hb.
  split; [reflexivity|].
  split; [rewrite Hout, Hout1; reflexivity|].
  split; [|congruence].
  rewrite Herr.
  pose proof (sys_accept_cases sfd w) as Hc. rewrite Ha in Hc.
  destruct Hc as [_ [Herr1 _]]. exact Herr1.
Qed.

(** The buffer of the transfer loop keeps its size. *)
Lemma transfer_buffer (fuel : nat) :
  forall (cfd : Z) (buf b' : list byte) (w w' : world) (n : Z),
  List.length buf = BUF_SIZE ->
  transfer fuel cfd buf w = Ret (n, b') w' ->
  List.length b' = BUF_SIZE.
Proof.
  induction fuel as [|fuel IH]; intros cfd buf b' w w' n Hlen Hrun.
  { discriminate Hrun. }
  rewrite transfer_S in Hrun.
  pose proof (sys_read_io cfd buf BUF_SIZE w) as Hr.
  destruct (sys_read cfd buf BUF_SIZE w) as [[m b1] w1| | w1 |];
    try contradiction; try discriminate Hrun.
  destruct Hr as [d [_ [_ [Hle [_ Hb1]]]]].
  assert (Hlen1 : List.length b1 = BUF_SIZE).
  { rewrite Hb1; [assumption | rewrite Hlen; assumption]. }
  destruct (m >? 0).
  - destruct (sys_write STDOUT_FILENO b1 (Z.to_nat m) w1) as [r w2| | |];
      try discriminate Hrun.
    destruct (r =? m); [|discriminate Hrun].
    apply (IH cfd b1 b' w2 w' n Hlen1 Hrun).
  - injection Hrun as _ <- _. assumption.
Qed.

(** X10.  The buffer is never grown: when [buf] has its [BUF_SIZE] bytes
    at the start of a pass and the pass returns to the loop, it has
    [BUF_SIZE] bytes for the next pass, whatever the client sent. *)
Theorem pass_keeps_buffer_size (fuel : nat) (sfd : Z) (buf b' : list byte)
    (w w' : world) :
  List.length buf = BUF_SIZE ->
  serve fuel sfd buf w = Ret b' w' ->
  List.length b' = BUF_SIZE.
Proof.
  intros Hlen Hrun. rewrite serve_eq in Hrun.
  destruct (sys_accept sfd w) as [cfd w1| | w1 |]; try discriminate Hrun.
  destruct (cfd =? -1); [discriminate Hrun|].
  destruct (transfer fuel cfd buf w1) as [[n b1] w2| | |] eqn:Htrans;
    try discriminate Hrun.
  pose proof (transfer_buffer fuel cfd buf b1 w1 w2 n Hlen Htrans) as Hb.
  destruct (n =? -1); [discriminate Hrun|].
  destruct (sys_close cfd w2) as [r w3| | |]; try discriminate Hrun.
  destruct (r =? -1); injection Hrun as <- _; assumption.
Qed.

End Server.

Local Close Scope string_scope.

(* ================================================================== *)
(** ** Chunking does not show in the sink *)

(** X11.  What a pass adds to the sink depends on the bytes the client
    sent, not on how the transport delivered them nor on the size of the
    buffer: two servers with buffers of any two positive sizes, each
    serving an orderly client, the two clients having sent the same
    bytes in whatever segments, both return to their loop and have added
    the same bytes to their sinks. *)
Theorem sink_independent_of_chunking (size1 size2 fuel1 fuel2 : nat)
    (sfd1 sfd2 : Z) (buf1 buf2 : list byte) (w1 w2 : world)
    (c1 c2 : conn) (q1 q2 : list accept_step) :
  (0 < size1)%nat -> (0 < size2)%nat ->
  fd_lookup sfd1 (w_fds w1) = Some FSock ->
  fd_lookup sfd2 (w_fds w2) = Some FSock ->
  k_accept w1 = AcConn c1 :: q1 ->
  k_accept w2 = AcConn c2 :: q2 ->
  orderly c1 -> orderly c2 ->
  sent c1 = sent c2 ->
  k_stdout w1 = [] -> k_stdout w2 = [] ->
  (work c1 <= fuel1)%nat -> (work c2 <= fuel2)%nat ->
  exists b1 b2 w1' w2' out,
    serve size1 fuel1 sfd1 buf1 w1 = Ret b1 w1'
    /\ serve size2 fuel2 sfd2 buf2 w2 = Ret b2 w2'
    /\ w_stdout w1' = w_stdout w1 ++ out
    /\ w_stdout w2' = w_stdout w2 ++ out
    /\ out = sent c1.
Proof.
  intros Hp1 Hp2 Hl1 Hl2 Hq1 Hq2 Ho1 Ho2 Hsent Hk1 Hk2 Hf1 Hf2.
  destruct (serve_runs size1 fuel1 sfd1 buf1 w1 c1 q1 Hp1 Hl1 Hq1 Ho1 Hk1 Hf1)
    as [b1 [w1' [Hs1 _]]].
  destruct (serve_runs size2 fuel2 sfd2 buf2 w2 c2 q2 Hp2 Hl2 Hq2 Ho2 Hk2 Hf2)
    as [b2 [w2' [Hs2 _]]].
  destruct (serve_ret _ _ _ _ _ _ _ _ _ Hp1 Hq1 Hs1) as [_ [Hout1 _]].
  destruct (serve_ret _ _ _ _ _ _ _ _ _ Hp2 Hq2 Hs2) as [_ [Hout2 _]].
  exists b1, b2, w1', w2', (sent c1).
  rewrite Hsent at 2. auto.
Qed.

(* ================================================================== *)
(** ** modify_env *)

Lemma unsetenv_goes (name : list byte) (s : ModifyEnv.state) :
  exists r s',
    ModifyEnv.unsetenv name s = Go r s'
    /\ ModifyEnv.out s' = ModifyEnv.out s
    /\ ModifyEnv.err s' = ModifyEnv.err s
    /\ ModifyEnv.environ s'
       = match ModifyEnv.strchr_eq name, name with
         | None, _ :: _ =>
             filter (fun e => negb (ModifyEnv.defines name e))
                    (ModifyEnv.environ s)
         | _, _ => ModifyEnv.environ s
         end.
Proof.
  unfold ModifyEnv.unsetenv.
  destruct name as [|b l].
  - eexists; eexists. split; [reflexivity|]. simpl. auto.
  - destruct (ModifyEnv.strchr_eq (b :: l));
      eexists; eexists; (split; [reflexivity|]); simpl; auto.
Qed.

Lemma putenv_goes (a : list byte) (s : ModifyEnv.state) :
  exists r s',
    ModifyEnv.putenv a s = Go r s'
    /\ ModifyEnv.out s' = ModifyEnv.out s
    /\ ModifyEnv.err s' = ModifyEnv.err s
    /\ ((r =? 0) = true ->
        ModifyEnv.environ s' = ModifyEnv.env_put (ModifyEnv.environ s) a).
Proof.
  unfold ModifyEnv.putenv, ModifyEnv.env_put.
  destruct (ModifyEnv.strchr_eq a) as [i|] eqn:Hi.
  - unfold ModifyEnv.add_to_environ.
    destruct (existsb (ModifyEnv.defines (firstn i a)) (ModifyEnv.environ s)).
    + eexists; eexists. split; [reflexivity|]. simpl. auto.
    + destruct (ModifyEnv.k_nomem s) as [|[|] q];
        eexists; eexists; (split; [reflexivity|]); simpl; auto.
      repeat split; auto. discriminate.
  - unfold pbind, pret.
    destruct (unsetenv_goes a s) as [r [s' [Hu [Ho [Hx He]]]]].
    rewrite Hu. exists 0, s'. split; [reflexivity|].
    split; [assumption|]. split; [assumption|]. intros _.
    rewrite He, Hi. destruct a; reflexivity.
Qed.

Lemma put_args_env (args : list (list byte)) :
  forall (s s1 : ModifyEnv.state),
  ModifyEnv.put_args args s = Go tt s1 ->
  ModifyEnv.environ s1
    = fold_left ModifyEnv.env_put (map cstr args) (ModifyEnv.environ s)
  /\ ModifyEnv.out s1 = ModifyEnv.out s
  /\ ModifyEnv.err s1 = ModifyEnv.err s.
Proof.
  induction args as [|a args IH]; intros s s1 Hrun.
  { injection Hrun as <-. auto. }
  cbn [ModifyEnv.put_args map fold_left] in *.
  unfold pbind at 1 in Hrun.
  destruct (putenv_goes (cstr a) s) as [r [s2 [Hp [Ho [Hx He]]]]].
  rewrite Hp in Hrun.
  unfold pbind at 1, pwhen in Hrun.
  destruct (r =? 0) eqn:Hr; cbn [negb] in Hrun; [|discriminate Hrun].
  unfold pret at 1 in Hrun.
  destruct (IH s2 s1 Hrun) as [He1 [Ho1 Hx1]].
  rewrite He1, (He eq_refl), Ho1, Ho, Hx1, Hx. auto.
Qed.

Lemma put_args_fails (args : list (list byte)) :
  forall (s s1 : ModifyEnv.state) (st : Z),
  ModifyEnv.put_args args s = Stop st s1 ->
  st = EXIT_FAILURE
  /\ ModifyEnv.out s1 = ModifyEnv.out s
  /\ exists msg e, ModifyEnv.err s1 = ModifyEnv.err s ++ [DErrExit msg e].
Proof.
  induction args as [|a args IH]; intros s s1 st Hrun.
  { discriminate Hrun. }
  cbn [ModifyEnv.put_args] in Hrun. unfold pbind at 1 in Hrun.
  destruct (putenv_goes (cstr a) s) as [r [s2 [Hp [Ho [Hx _]]]]].
  rewrite Hp in Hrun.
  unfold pbind at 1, pwhen in Hrun.
  destruct (r =? 0); cbn [negb] in Hrun.
  - unfold pret at 1 in Hrun.
    destruct (IH s2 s1 st Hrun) as [Hst [Ho1 [msg [e Hx1]]]].
    split; [assumption|]. split; [congruence|].
    exists msg, e. congruence.
  - unfold ModifyEnv.errExit in Hrun. injection Hrun as <- <-.
    cbn [ModifyEnv.out ModifyEnv.err].
    split; [reflexivity|]. split; [assumption|].
    eexists; eexists. rewrite Hx. reflexivity.
Qed.

Lemma print_env_out (ep : list (list byte)) :
  forall s : ModifyEnv.state,
  exists s1,
    ModifyEnv.print_env ep s = Go tt s1
    /\ ModifyEnv.out s1 = ModifyEnv.out s ++ ep
    /\ ModifyEnv.err s1 = ModifyEnv.err s.
Proof.
  induction ep as [|e ep IH]; intros s.
  { exists s. rewrite app_nil_r. auto. }
  cbn [ModifyEnv.print_env]. unfold pbind at 1, ModifyEnv.puts.
  destruct (IH (ModifyEnv.mk_state (ModifyEnv.environ s) (ModifyEnv.k_nomem s)
                  (ModifyEnv.errno s) (ModifyEnv.out s ++ [e]) (ModifyEnv.err s)))
    as [s1 [Hp [Ho Hx]]].
  exists s1. split; [exact Hp|]. cbn [ModifyEnv.out ModifyEnv.err] in *.
  rewrite Ho, <- app_assoc. auto.
Qed.

Lemma setenv_greet_goes (s : ModifyEnv.state) :
  exists r s',
    ModifyEnv.setenv ModifyEnv.GREET ModifyEnv.hello 0 s = Go r s'
    /\ ModifyEnv.out s' = ModifyEnv.out s
    /\ ModifyEnv.err s' = ModifyEnv.err s
    /\ ((r =? -1) = false ->
        ModifyEnv.environ s' = ModifyEnv.env_greet (ModifyEnv.environ s)).
Proof.
  change (ModifyEnv.setenv ModifyEnv.GREET ModifyEnv.hello 0)
    with (ModifyEnv.add_to_environ ModifyEnv.GREET
            (ModifyEnv.GREET ++ ModifyEnv.EQUALS :: ModifyEnv.hello) false).
  unfold ModifyEnv.add_to_environ, ModifyEnv.env_greet.
  destruct (existsb (ModifyEnv.defines ModifyEnv.GREET) (ModifyEnv.environ s)).
  - eexists; eexists. split; [reflexivity|]. auto.
  - destruct (ModifyEnv.k_nomem s) as [|[|] q];
      eexists; eexists; (split; [reflexivity|]); simpl; auto.
    repeat split; auto. discriminate.
Qed.

Lemma modify_env_main_eq (argv : list (list byte)) (s : ModifyEnv.state) :
  ModifyEnv.main argv s =
  match ModifyEnv.put_args (tl argv) (ModifyEnv.set_environ [] s) with
  | Go _ s1 =>
      match ModifyEnv.setenv ModifyEnv.GREET ModifyEnv.hello 0 s1 with
      | Go r s2 =>
          if r =? -1 then ModifyEnv.errExit "setenv" s2
          else
            match ModifyEnv.unsetenv ModifyEnv.BYE s2 with
            | Go _ s3 =>
                match ModifyEnv.print_env (ModifyEnv.environ s3) s3 with
                | Go _ s4 => Stop EXIT_SUCCESS s4
                | Stop st s4 => Stop st s4
                end
            | Stop st s3 => Stop st s3
            end
      | Stop st s2 => Stop st s2
      end
  | Stop st s1 => Stop st s1
  end.
Proof.
  unfold ModifyEnv.main, pbind, ModifyEnv.clearenv.
  destruct (ModifyEnv.put_args (tl argv) (ModifyEnv.set_environ [] s))
    as [u s1|st s1]; [|reflexivity].
  destruct (ModifyEnv.setenv ModifyEnv.GREET ModifyEnv.hello 0 s1)
    as [r s2|st s2]; [|reflexivity].
  unfold pwhen. destruct (r =? -1); [unfold ModifyEnv.errExit; reflexivity|].
  unfold pret.
  destruct (ModifyEnv.unsetenv ModifyEnv.BYE s2) as [r3 s3|st s3]; [|reflexivity].
  destruct (ModifyEnv.print_env (ModifyEnv.environ s3) s3); reflexivity.
Qed.

(** Every run of [main] of modify_env: it ends with [EXIT_SUCCESS] having
    printed the lines of [printed], or with [EXIT_FAILURE] having printed
    nothing. *)
Lemma modify_env_runs (argv : list (list byte)) (s : ModifyEnv.state) :
  (exists s',
     ModifyEnv.main argv s = Stop EXIT_SUCCESS s'
     /\ ModifyEnv.out s' = ModifyEnv.out s ++ ModifyEnv.printed (tl argv)
     /\ ModifyEnv.err s' = ModifyEnv.err s)
  \/ (exists s' msg e,
        ModifyEnv.main argv s = Stop EXIT_FAILURE s'
        /\ ModifyEnv.out s' = ModifyEnv.out s
        /\ ModifyEnv.err s' = ModifyEnv.err s ++ [DErrExit msg e]).
Proof.
  rewrite modify_env_main_eq.
  set (s0 := ModifyEnv.set_environ [] s).
  destruct (ModifyEnv.put_args (tl argv) s0) as [[] s1|st s1] eqn:Hargs.
  2:{ right. destruct (put_args_fails _ _ _ _ Hargs) as [-> [Ho [msg [e Hx]]]].
      exists s1, msg, e. split; [reflexivity|]. split; assumption. }
  destruct (put_args_env _ _ _ Hargs) as [He [Ho Hx]].
  cbn [ModifyEnv.environ ModifyEnv.out ModifyEnv.err s0 ModifyEnv.set_environ] in *.
  destruct (setenv_greet_goes s1) as [r [s2 [Hs [Ho2 [Hx2 He2]]]]].
  rewrite Hs.
  destruct (r =? -1) eqn:Hr.
  { right. unfold ModifyEnv.errExit. eexists; eexists; eexists.
    split; [reflexivity|]. cbn [ModifyEnv.out ModifyEnv.err].
    rewrite Ho2, Ho, Hx2, Hx. auto. }
  left.
  destruct (unsetenv_goes ModifyEnv.BYE s2) as [r3 [s3 [Hu [Ho3 [Hx3 He3]]]]].
  rewrite Hu.
  destruct (print_env_out (ModifyEnv.environ s3) s3) as [s4 [Hp [Ho4 Hx4]]].
  rewrite Hp. exists s4. split; [reflexivity|].
  unfold ModifyEnv.printed.
  rewrite Ho4, Ho3, Ho2, Ho, He3, (He2 eq_refl), He, Hx4, Hx3, Hx2, Hx.
  auto.
Qed.

(** *** Names and definitions *)

Lemma byte_eqb_eq (a b : byte) : Byte.eqb a b = true <-> a = b.
Proof.
  split; [apply Byte.byte_dec_bl | apply Byte.byte_dec_lb].
Qed.

Lemma defines_spec (n : list byte) :
  forall s : list byte,
  ModifyEnv.strchr_eq n = None ->
  (ModifyEnv.defines n s = true
   <-> ModifyEnv.strchr_eq s = Some (List.length n)
       /\ firstn (List.length n) s = n).
Proof.
  induction n as [|a n IH]; intros s Hn.
  - destruct s as [|b s]; simpl.
    + split; [discriminate | intros [H _]; discriminate H].
    + destruct (Byte.eqb b ModifyEnv.EQUALS); simpl.
      * tauto.
      * destruct (ModifyEnv.strchr_eq s); simpl;
          split; try discriminate; intros [H _]; discriminate H.
  - simpl in Hn. destruct (Byte.eqb a ModifyEnv.EQUALS) eqn:Ha; [discriminate|].
    destruct (ModifyEnv.strchr_eq n) eqn:Hn'; [discriminate|].
    destruct s as [|b s]; simpl.
    + split; [discriminate | intros [H _]; discriminate H].
    + rewrite andb_true_iff, byte_eqb_eq, (IH s eq_refl). split.
      * intros [-> [H1 H2]]. rewrite Ha, H1, H2. auto.
      * intros [H1 H2]. injection H2 as -> H2. rewrite Ha in H1.
        destruct (ModifyEnv.strchr_eq s) as [k|]; [|discriminate H1].
        simpl in H1. injection H1 as ->. auto.
Qed.

Lemma defines_one_name (n m x : list byte) :
  ModifyEnv.strchr_eq n = None -> ModifyEnv.strchr_eq m = None ->
  ModifyEnv.defines n x = true -> ModifyEnv.defines m x = true -> n = m.
Proof.
  intros Hn Hm H1 H2.
  apply (defines_spec n x Hn) in H1. apply (defines_spec m x Hm) in H2.
  destruct H1 as [H1 H1'], H2 as [H2 H2'].
  rewrite H1 in H2. injection H2 as H2. rewrite <- H2 in H2'. congruence.
Qed.

Lemma strchr_eq_name (s : list byte) :
  forall i, ModifyEnv.strchr_eq s = Some i ->
  ModifyEnv.strchr_eq (firstn i s) = None
  /\ ModifyEnv.defines (firstn i s) s = true.
Proof.
  induction s as [|b s IH]; intros i Hi; [discriminate|].
  simpl in Hi. destruct (Byte.eqb b ModifyEnv.EQUALS) eqn:Hb.
  - injection Hi as <-. simpl. rewrite Hb. auto.
  - destruct (ModifyEnv.strchr_eq s) as [k|]; [|discriminate].
    simpl in Hi. injection Hi as <-.
    destruct (IH k eq_refl) as [H1 H2].
    simpl. rewrite Hb, H1, H2, (Byte.byte_dec_lb eq_refl). auto.
Qed.

Lemma name_of_defines (n a : list byte) :
  ModifyEnv.strchr_eq n = None ->
  ModifyEnv.defines n a = true -> ModifyEnv.name_of a = n.
Proof.
  intros Hn Hd. unfold ModifyEnv.name_of.
  apply (defines_spec n a Hn) in Hd. destruct Hd as [H1 H2].
  rewrite H1. exact H2.
Qed.

(** *** How many definitions a name has *)

Lemma count_replace_first (n m a : list byte) (env : list (list byte)) :
  (forall e, ModifyEnv.defines m e = true ->
             ModifyEnv.defines n e = ModifyEnv.defines n a) ->
  List.length (filter (ModifyEnv.defines n) (ModifyEnv.replace_first m a env))
  = List.length (filter (ModifyEnv.defines n) env).
Proof.
  intros Hsame. induction env as [|e env IH]; [reflexivity|].
  simpl. destruct (ModifyEnv.defines m e) eqn:Hm.
  - simpl. rewrite <- (Hsame e Hm).
    destruct (ModifyEnv.defines n e); reflexivity.
  - simpl. destruct (ModifyEnv.defines n e); simpl; rewrite IH; reflexivity.
Qed.

Lemma count_none (n : list byte) (env : list (list byte)) :
  existsb (ModifyEnv.defines n) env = false ->
  filter (ModifyEnv.defines n) env = [].
Proof.
  induction env as [|e env IH]; [reflexivity|].
  simpl. destruct (ModifyEnv.defines n e); [discriminate | exact IH].
Qed.

Lemma count_some (n : list byte) (env : list (list byte)) :
  existsb (ModifyEnv.defines n) env = true ->
  (1 <= List.length (filter (ModifyEnv.defines n) env))%nat.
Proof.
  induction env as [|e env IH]; [discriminate|].
  simpl. destruct (ModifyEnv.defines n e); simpl; [lia | exact IH].
Qed.

Lemma filter_filter_le (P Q : list byte -> bool) (env : list (list byte)) :
  (List.length (filter P (filter Q env)) <= List.length (filter P env))%nat.
Proof.
  induction env as [|e env IH]; [reflexivity|].
  simpl. destruct (Q e); simpl; destruct (P e); simpl; lia.
Qed.

Lemma env_put_count (n a : list byte) (env : list (list byte)) :
  ModifyEnv.strchr_eq n = None ->
  (List.length (filter (ModifyEnv.defines n) env) <= 1)%nat ->
  (List.length (filter (ModifyEnv.defines n) (ModifyEnv.env_put env a)) <= 1)%nat.
Proof.
  intros Hn Hle. unfold ModifyEnv.env_put.
  destruct (ModifyEnv.strchr_eq a) as [i|] eqn:Hi.
  - destruct (strchr_eq_name a i Hi) as [Hm Hma].
    destruct (existsb (ModifyEnv.defines (firstn i a)) env) eqn:Hex.
    + rewrite count_replace_first; [assumption|].
      intros e He.
      destruct (ModifyEnv.defines n e) eqn:H1;
        destruct (ModifyEnv.defines n a) eqn:H2; try reflexivity.
      * rewrite (defines_one_name n (firstn i a) e Hn Hm H1 He) in H2. congruence.
      * rewrite (defines_one_name n (firstn i a) a Hn Hm H2 Hma) in H1. congruence.
    + rewrite filter_app, length_app. simpl.
      destruct (ModifyEnv.defines n a) eqn:H2; simpl; [|lia].
      rewrite (defines_one_name n (firstn i a) a Hn Hm H2 Hma).
      rewrite (count_none _ _ Hex). simpl. lia.
  - destruct a; [assumption|].
    pose proof (filter_filter_le (ModifyEnv.defines n)
                  (fun e => negb (ModifyEnv.defines (b :: a) e)) env).
    lia.
Qed.

Lemma fold_put_count (n : list byte) (strs : list (list byte)) :
  forall env,
  ModifyEnv.strchr_eq n = None ->
  (List.length (filter (ModifyEnv.defines n) env) <= 1)%nat ->
  (List.length (filter (ModifyEnv.defines n)
                       (fold_left ModifyEnv.env_put strs env)) <= 1)%nat.
Proof.
  induction strs as [|a strs IH]; intros env Hn Hle; [assumption|].
  simpl. apply IH; [assumption|]. apply env_put_count; assumption.
Qed.

Lemma greet_not_bye (e : list byte) :
  ModifyEnv.defines ModifyEnv.GREET e = true ->
  ModifyEnv.defines ModifyEnv.BYE e = false.
Proof.
  intros Hg. destruct (ModifyEnv.defines ModifyEnv.BYE e) eqn:Hb; [|reflexivity].
  assert (H : ModifyEnv.GREET = ModifyEnv.BYE)
    by (apply (defines_one_name _ _ e); auto).
  discriminate H.
Qed.

Lemma filter_greet_bye (env : list (list byte)) :
  filter (ModifyEnv.defines ModifyEnv.GREET)
         (filter (fun e => negb (ModifyEnv.defines ModifyEnv.BYE e)) env)
  = filter (ModifyEnv.defines ModifyEnv.GREET) env.
Proof.
  induction env as [|e env IH]; [reflexivity|].
  cbn [filter]. destruct (ModifyEnv.defines ModifyEnv.GREET e) eqn:Hg.
  - rewrite (greet_not_bye e Hg). cbn [negb filter]. rewrite Hg, IH. reflexivity.
  - destruct (ModifyEnv.defines ModifyEnv.BYE e); cbn [negb filter];
      rewrite ?Hg; exact IH.
Qed.

Lemma printed_greets_once (args : list (list byte)) :
  List.length (filter (ModifyEnv.defines ModifyEnv.GREET) (ModifyEnv.printed args))
  = 1%nat.
Proof.
  unfold ModifyEnv.printed. rewrite filter_greet_bye.
  pose proof (fold_put_count ModifyEnv.GREET (map cstr args) [] eq_refl) as Hle.
  specialize (Hle (Nat.le_0_l 1)).
  unfold ModifyEnv.env_greet.
  destruct (existsb (ModifyEnv.defines ModifyEnv.GREET)
                    (fold_left ModifyEnv.env_put (map cstr args) [])) eqn:Hex.
  - pose proof (count_some _ _ Hex). lia.
  - rewrite filter_app, (count_none _ _ Hex). reflexivity.
Qed.




(** *** The lines printed for well-formed arguments *)

Lemma exists_defines_names (n : list byte) (env : list (list byte)) :
  ModifyEnv.strchr_eq n = None ->
  ~ In n (map ModifyEnv.name_of env) ->
  existsb (ModifyEnv.defines n) env = false.
Proof.
  intros Hn Hnot. induction env as [|e env IH]; [reflexivity|].
  simpl in *. destruct (ModifyEnv.defines n e) eqn:Hd.
  - exfalso. apply Hnot. left. apply name_of_defines; assumption.
  - apply IH. tauto.
Qed.

Lemma fold_put_distinct (strs : list (list byte)) :
  forall env,
  Forall (fun a => ModifyEnv.strchr_eq a <> None) strs ->
  NoDup (map ModifyEnv.name_of strs) ->
  (forall a, In a strs -> ~ In (ModifyEnv.name_of a) (map ModifyEnv.name_of env)) ->
  fold_left ModifyEnv.env_put strs env = env ++ strs.
Proof.
  induction strs as [|a strs IH]; intros env Hall Hnd Hdis.
  { rewrite app_nil_r. reflexivity. }
  inversion Hall as [|? ? Ha Hall']; subst.
  simpl in Hnd. inversion Hnd as [|? ? Hnotin Hnd']; subst.
  cbn [fold_left].
  assert (Hput : ModifyEnv.env_put env a = env ++ [a]).
  { unfold ModifyEnv.env_put.
    destruct (ModifyEnv.strchr_eq a) as [i|] eqn:Hi; [|congruence].
    destruct (strchr_eq_name a i Hi) as [Hm _].
    rewrite exists_defines_names; [reflexivity | assumption |].
    specialize (Hdis a (or_introl eq_refl)).
    unfold ModifyEnv.name_of in Hdis. rewrite Hi in Hdis. exact Hdis. }
  rewrite Hput, IH; auto.
  - rewrite <- app_assoc. reflexivity.
  - intros x Hx. rewrite map_app, in_app_iff. simpl.
    intros [H | [H | []]].
    + apply (Hdis x (or_intror Hx) H).
    + apply Hnotin. rewrite H. apply in_map. exact Hx.
Qed.

Lemma filter_none_defined (n : list byte) (env : list (list byte)) :
  existsb (ModifyEnv.defines n) env = false ->
  filter (fun e => negb (ModifyEnv.defines n e)) env = env.
Proof.
  induction env as [|e env IH]; [reflexivity|].
  cbn [existsb filter]. destruct (ModifyEnv.defines n e); [discriminate|].
  intros H. cbn [negb orb] in *. rewrite (IH H). reflexivity.
Qed.

Lemma printed_distinct (args : list (list byte)) :
  Forall (fun a => ModifyEnv.strchr_eq a <> None) (map cstr args) ->
  NoDup (map ModifyEnv.name_of (map cstr args)) ->
  ~ In ModifyEnv.GREET (map ModifyEnv.name_of (map cstr args)) ->
  ~ In ModifyEnv.BYE (map ModifyEnv.name_of (map cstr args)) ->
  ModifyEnv.printed args = map cstr args ++ [bytes "GREET=Hello world"].
Proof.
  intros Hall Hnd Hg Hb. unfold ModifyEnv.printed.
  rewrite (fold_put_distinct (map cstr args) [] Hall Hnd) by (intros a _ []).
  cbn [app]. unfold ModifyEnv.env_greet.
  rewrite (exists_defines_names ModifyEnv.GREET _ eq_refl Hg).
  change (ModifyEnv.GREET ++ ModifyEnv.EQUALS :: ModifyEnv.hello)
    with (bytes "GREET=Hello world").
  apply filter_none_defined.
  rewrite existsb_app, (exists_defines_names ModifyEnv.BYE _ eq_refl Hb).
  reflexivity.
Qed.

Lemma putenv_has_memory (a : list byte) (s : ModifyEnv.state) :
  ModifyEnv.k_nomem s = [] ->
  exists s', ModifyEnv.putenv a s = Go 0 s' /\ ModifyEnv.k_nomem s' = [].
Proof.
  intros Hk. unfold ModifyEnv.putenv.
  destruct (ModifyEnv.strchr_eq a) as [i|] eqn:Hi.
  - unfold ModifyEnv.add_to_environ. rewrite Hk.
    destruct (existsb _ _); eexists; split; try reflexivity; exact Hk.
  - unfold pbind, pret, ModifyEnv.unsetenv.
    destruct a as [|b a]; [eexists; split; [reflexivity | exact Hk]|].
    rewrite Hi. eexists; split; [reflexivity | exact Hk].
Qed.

Lemma put_args_has_memory (args : list (list byte)) :
  forall s : ModifyEnv.state,
  ModifyEnv.k_nomem s = [] ->
  exists s', ModifyEnv.put_args args s = Go tt s' /\ ModifyEnv.k_nomem s' = [].
Proof.
  induction args as [|a args IH]; intros s Hk.
  { exists s. auto. }
  cbn [ModifyEnv.put_args]. unfold pbind at 1.
  destruct (putenv_has_memory (cstr a) s Hk) as [s1 [Hp Hk1]].
  rewrite Hp. unfold pbind at 1, pwhen. cbn [Z.eqb negb]. unfold pret at 1.
  apply IH. exact Hk1.
Qed.

Lemma modify_env_has_memory (argv : list (list byte)) (s : ModifyEnv.state) :
  ModifyEnv.k_nomem s = [] ->
  exists s', ModifyEnv.main argv s = Stop EXIT_SUCCESS s'.
Proof.
  intros Hk. rewrite modify_env_main_eq.
  destruct (put_args_has_memory (tl argv) (ModifyEnv.set_environ [] s) Hk)
    as [s1 [Hp Hk1]].
  rewrite Hp.
  change (ModifyEnv.setenv ModifyEnv.GREET ModifyEnv.hello 0)
    with (ModifyEnv.add_to_environ ModifyEnv.GREET
            (ModifyEnv.GREET ++ ModifyEnv.EQUALS :: ModifyEnv.hello) false).
  unfold ModifyEnv.add_to_environ. rewrite Hk1.
  assert (Hend : forall s2,
             exists s',
               match ModifyEnv.unsetenv ModifyEnv.BYE s2 with
               | Go _ s3 =>
                   match ModifyEnv.print_env (ModifyEnv.environ s3) s3 with
                   | Go _ s4 => Stop EXIT_SUCCESS s4
                   | Stop st s4 => Stop st s4
                   end
               | Stop st s3 => Stop st s3
               end = (Stop EXIT_SUCCESS s' : run ModifyEnv.state unit)).
  { intros s2.
    destruct (unsetenv_goes ModifyEnv.BYE s2) as [r3 [s3 [Hu _]]]. rewrite Hu.
    destruct (print_env_out (ModifyEnv.environ s3) s3) as [s4 [Hpr _]].
    rewrite Hpr. exists s4. reflexivity. }
  destruct (existsb _ _); change (0 =? -1) with false; cbv iota; apply Hend.
Qed.

(** X14.  With memory for every call, and arguments that are all of the
    form name=value, with names that differ from one another and from
    GREET and BYE, modify_env exits with [EXIT_SUCCESS] and prints
    exactly its arguments, in the order given, followed by the line
    "GREET=Hello world"; nothing of the environment it was started with
    is printed. *)
Theorem modify_env_prints_arguments (argv : list (list byte))
    (s : ModifyEnv.state) :
  ModifyEnv.k_nomem s = [] ->
  Forall (fun a => ModifyEnv.strchr_eq a <> None) (map cstr (tl argv)) ->
  NoDup (map ModifyEnv.name_of (map cstr (tl argv))) ->
  ~ In ModifyEnv.GREET (map ModifyEnv.name_of (map cstr (tl argv))) ->
  ~ In ModifyEnv.BYE (map ModifyEnv.name_of (map cstr (tl argv))) ->
  exists s',
    ModifyEnv.main argv s = Stop EXIT_SUCCESS s'
    /\ ModifyEnv.out s'
       = ModifyEnv.out s ++ map cstr (tl argv) ++ [bytes "GREET=Hello world"]
    /\ ModifyEnv.err s' = ModifyEnv.err s.
Proof.
  intros Hk Hall Hnd Hg Hb.
  destruct (modify_env_has_memory argv s Hk) as [s' Hm].
  exists s'. split; [exact Hm|].
  destruct (modify_env_runs argv s)
    as [[s1 [Hm1 [Ho Hx]]] | [s1 [msg [e [Hm1 _]]]]];
    rewrite Hm in Hm1; [|discriminate Hm1].
  injection Hm1 as <-.
  rewrite <- (printed_distinct (tl argv) Hall Hnd Hg Hb). auto.
Qed.

(** *** A greeting given on the command line *)

Lemma in_replace_first (m a : list byte) (env : list (list byte)) :
  existsb (ModifyEnv.defines m) env = true ->
  In a (ModifyEnv.replace_first m a env).
Proof.
  induction env as [|e env IH]; [discriminate|].
  simpl. destruct (ModifyEnv.defines m e); simpl; [auto|].
  intros H. right. apply IH. exact H.
Qed.

Lemma in_replace_first_other (m a g : list byte) (env : list (list byte)) :
  ModifyEnv.defines m g = false ->
  In g env -> In g (ModifyEnv.replace_first m a env).
Proof.
  intros Hg. induction env as [|e env IH]; [auto|].
  simpl. intros [-> | Hin].
  - rewrite Hg. left. reflexivity.
  - destruct (ModifyEnv.defines m e); simpl; auto.
Qed.

Lemma env_put_keeps (g x : list byte) (env : list (list byte)) :
  ModifyEnv.defines ModifyEnv.GREET g = true ->
  ModifyEnv.name_of x <> ModifyEnv.GREET ->
  In g env -> In g (ModifyEnv.env_put env x).
Proof.
  intros Hg Hx Hin. unfold ModifyEnv.env_put, ModifyEnv.name_of in *.
  destruct (ModifyEnv.strchr_eq x) as [i|] eqn:Hi.
  - destruct (strchr_eq_name x i Hi) as [Hm _].
    assert (Hmg : ModifyEnv.defines (firstn i x) g = false).
    { destruct (ModifyEnv.defines (firstn i x) g) eqn:Hd; [|reflexivity].
      exfalso. apply Hx.
      apply (defines_one_name (firstn i x) ModifyEnv.GREET g Hm eq_refl Hd Hg). }
    destruct (existsb _ _).
    + apply in_replace_first_other; assumption.
    + apply in_or_app. left. assumption.
  - destruct x as [|b x]; [assumption|].
    apply filter_In. split; [assumption|].
    apply negb_true_iff.
    destruct (ModifyEnv.defines (b :: x) g) eqn:Hd; [|reflexivity].
    exfalso. apply Hx.
    apply (defines_one_name (b :: x) ModifyEnv.GREET g Hi eq_refl Hd Hg).
Qed.

Lemma fold_put_keeps (g : list byte) (strs : list (list byte)) :
  forall env,
  ModifyEnv.defines ModifyEnv.GREET g = true ->
  Forall (fun x => ModifyEnv.name_of x <> ModifyEnv.GREET) strs ->
  In g env -> In g (fold_left ModifyEnv.env_put strs env).
Proof.
  induction strs as [|x strs IH]; intros env Hg Hall Hin; [assumption|].
  inversion Hall; subst. cbn [fold_left].
  apply IH; auto. apply env_put_keeps; assumption.
Qed.

Lemma env_put_in (g : list byte) (env : list (list byte)) :
  ModifyEnv.defines ModifyEnv.GREET g = true ->
  In g (ModifyEnv.env_put env g).
Proof.
  intros Hg. unfold ModifyEnv.env_put.
  pose proof (proj1 (defines_spec ModifyEnv.GREET g eq_refl) Hg) as [Hi _].
  rewrite Hi.
  destruct (existsb _ _) eqn:Hex.
  - apply in_replace_first. exact Hex.
  - apply in_or_app. right. left. reflexivity.
Qed.

Lemma filter_single (P : list byte -> bool) (g : list byte)
    (l : list (list byte)) :
  List.length (filter P l) = 1%nat -> In g l -> P g = true ->
  filter P l = [g].
Proof.
  intros Hlen Hin Hg.
  assert (Hin' : In g (filter P l)) by (apply filter_In; auto).
  destruct (filter P l) as [|x [|y r]]; try discriminate Hlen.
  destruct Hin' as [-> | []]. reflexivity.
Qed.

(** X15.  A greeting given on the command line is kept: when an argument
    defines GREET and no later argument is about GREET, a run that
    succeeds prints that argument as its only definition of GREET, and
    the default "Hello world" is not set. *)
Theorem modify_env_keeps_given_greeting (argv before after : list (list byte))
    (g : list byte) (s s' : ModifyEnv.state) :
  tl argv = before ++ g :: after ->
  ModifyEnv.defines ModifyEnv.GREET (cstr g) = true ->
  Forall (fun x => ModifyEnv.name_of (cstr x) <> ModifyEnv.GREET) after ->
  ModifyEnv.main argv s = Stop EXIT_SUCCESS s' ->
  exists lines,
    ModifyEnv.out s' = ModifyEnv.out s ++ lines
    /\ filter (ModifyEnv.defines ModifyEnv.GREET) lines = [cstr g].
Proof.
  intros Hargs Hg Hafter Hm.
  destruct (modify_env_runs argv s)
    as [[s1 [Hm1 [Ho _]]] | [s1 [msg [e [Hm1 _]]]]];
    rewrite Hm in Hm1; [|discriminate Hm1].
  injection Hm1 as <-.
  exists (ModifyEnv.printed (tl argv)). split; [assumption|].
  apply filter_single; [apply printed_greets_once | | assumption].
  unfold ModifyEnv.printed. apply filter_In. split.
  - assert (Hin : In (cstr g) (fold_left ModifyEnv.env_put (map cstr (tl argv)) [])).
    { rewrite Hargs, map_app, fold_left_app. cbn [map fold_left].
      apply fold_put_keeps; [assumption | | apply env_put_in; assumption].
      apply Forall_map. exact Hafter. }
    unfold ModifyEnv.env_greet. destruct (existsb _ _); [assumption|].
    apply in_or_app. left. assumption.
  - apply negb_true_iff. apply greet_not_bye. assumption.
Qed.

(* ================================================================== *)
(** ** bad_exclusive_open: what the check-then-create sequence does *)

Lemma descriptor_is_not_error (fds : list Z) :
  (BadExclusiveOpen.next_fd fds =? -1) = false.
Proof. apply Z.eqb_neq. unfold BadExclusiveOpen.next_fd. lia. Qed.

Lemma argc_two (prog path : list byte) (rest : list (list byte)) :
  (Z.of_nat (List.length (prog :: path :: rest)) <? 2) = false.
Proof. apply Z.ltb_ge. cbn [List.length]. lia. Qed.

Lemma argc_more (prog path : list byte) (rest : list (list byte)) :
  (Z.of_nat (List.length (prog :: path :: rest)) >? 2) = negb (Nat.eqb (List.length rest) 0).
Proof.
  destruct rest as [|r rest]; [reflexivity|].
  cbn [List.length Nat.eqb negb]. rewrite Z.gtb_ltb. apply Z.ltb_lt. lia.
Qed.

Ltac open_main :=
  unfold BadExclusiveOpen.main;
  rewrite ?argc_two, ?argc_more;
  cbn [BadExclusiveOpen.arg nth orb];
  match goal with
  | H : streq _ _ = false |- _ => rewrite H
  end;
  cbn [pwhen].

(** X16.  When the file named by [argv[1]] exists and can be opened, [main]
    reports that it exists and ends with [EXIT_SUCCESS]: the file is left
    as it was, nothing is slept, nothing is written to standard error,
    and no descriptor stays open that was not open before. *)
Theorem existing_file_is_only_reported
    (prog path : list byte) (rest : list (list byte))
    (s : BadExclusiveOpen.state) (c : BadExclusiveOpen.creator) :
  streq path (bytes "--help") = false ->
  BadExclusiveOpen.file s = Some c ->
  hd None (BadExclusiveOpen.k_open s) = None ->
  exists s',
    BadExclusiveOpen.main (prog :: path :: rest) s = Stop EXIT_SUCCESS s'
    /\ BadExclusiveOpen.file s' = Some c
    /\ BadExclusiveOpen.out s' =
       BadExclusiveOpen.out s
         ++ [BadExclusiveOpen.Printed BadExclusiveOpen.AlreadyExists
               (BadExclusiveOpen.pid s)]
    /\ incl (BadExclusiveOpen.fds s') (BadExclusiveOpen.fds s)
    /\ BadExclusiveOpen.slept s' = BadExclusiveOpen.slept s
    /\ BadExclusiveOpen.err s' = BadExclusiveOpen.err s.
Proof.
  intros Hh Hf Ho. open_main.
  destruct s as [f sched ko p fds sl en o er]. cbn in Hf, Ho. subst f.
  assert (Hincl : forall fd,
             incl (filter (fun k => negb (k =? fd)) (fd :: fds)) fds).
  { intros fd k Hk. apply filter_In in Hk. destruct Hk as [[<-|Hk] Hb].
    - rewrite Z.eqb_refl in Hb. discriminate.
    - exact Hk. }
  destruct sched as [|b0 [|b1 sched]];
    destruct ko as [|[e|] ko]; try discriminate;
    unfold pbind, pret; cbn;
    rewrite descriptor_is_not_error; cbn;
    eexists; (split; [reflexivity|]); cbn;
    repeat (split; [reflexivity|]);
    (split; [apply Hincl|]); split; reflexivity.
Qed.

(** X17.  When the file does not exist at the first [open] and no call
    fails, [main] ends with [EXIT_SUCCESS] having printed that it created
    the file exclusively, whoever created it: another process that gets
    to run between the first [open] and the second (during the sleep, or
    just before the second [open]) creates the file, the second [open]
    opens that file, and the message is the same.  The sleep happens only
    with a further argument. *)
Theorem creation_is_reported_whoever_created
    (prog path : list byte) (rest : list (list byte))
    (s : BadExclusiveOpen.state) :
  streq path (bytes "--help") = false ->
  BadExclusiveOpen.file s = None ->
  hd false (BadExclusiveOpen.k_sched s) = false ->
  hd None (BadExclusiveOpen.k_open s) = None ->
  exists s',
    BadExclusiveOpen.main (prog :: path :: rest) s = Stop EXIT_SUCCESS s'
    /\ BadExclusiveOpen.out s' =
       BadExclusiveOpen.out s
         ++ BadExclusiveOpen.Printed BadExclusiveOpen.NotYet
              (BadExclusiveOpen.pid s)
         :: (if Nat.eqb (List.length rest) 0 then []
             else [BadExclusiveOpen.Printed BadExclusiveOpen.DoneSleeping
                     (BadExclusiveOpen.pid s)])
         ++ [BadExclusiveOpen.Printed BadExclusiveOpen.CreatedExclusively
               (BadExclusiveOpen.pid s)]
    /\ BadExclusiveOpen.file s' =
       Some (if BadExclusiveOpen.raced
                  (if Nat.eqb (List.length rest) 0 then 1 else 2)
                  (tl (BadExclusiveOpen.k_sched s))
             then BadExclusiveOpen.AnotherProcess
             else BadExclusiveOpen.ThisProcess)
    /\ BadExclusiveOpen.slept s' =
       BadExclusiveOpen.slept s + (if Nat.eqb (List.length rest) 0 then 0 else 5)
    /\ BadExclusiveOpen.err s' = BadExclusiveOpen.err s.
Proof.
  intros Hh Hf Hs Ho. open_main.
  destruct s as [f sched ko p fds sl en o er]. cbn in Hf, Hs, Ho. subst f.
  destruct (Nat.eqb (List.length rest) 0);
    destruct sched as [|b0 [|b1 [|b2 sched]]]; cbn in Hs; try subst b0;
    destruct ko as [|[e|] ko]; try discriminate;
    try destruct b1; try destruct b2;
    unfold pbind, pret; cbn;
    rewrite ?descriptor_is_not_error; cbn;
    eexists; (split; [reflexivity|]); cbn;
    rewrite <- ?app_assoc, ?Z.add_0_r;
    repeat split; reflexivity.
Qed.

(** X18.  When the first [open] fails for a reason other than [ENOENT],
    [main] ends with [EXIT_FAILURE] through [errExit] with that errno: it
    prints nothing on standard output, does not sleep and does not make
    the second [open], so the file is as it was. *)
Theorem unexpected_open_error_is_fatal
    (prog path : list byte) (rest : list (list byte))
    (s : BadExclusiveOpen.state) (c : BadExclusiveOpen.creator) (e : Z) :
  streq path (bytes "--help") = false ->
  BadExclusiveOpen.file s = Some c ->
  hd None (BadExclusiveOpen.k_open s) = Some e ->
  e <> ENOENT ->
  exists s',
    BadExclusiveOpen.main (prog :: path :: rest) s = Stop EXIT_FAILURE s'
    /\ BadExclusiveOpen.err s' =
       BadExclusiveOpen.err s ++ [NErrExit "open" e]
    /\ BadExclusiveOpen.out s' = BadExclusiveOpen.out s
    /\ BadExclusiveOpen.file s' = Some c
    /\ BadExclusiveOpen.slept s' = BadExclusiveOpen.slept s
    /\ BadExclusiveOpen.k_open s' = tl (BadExclusiveOpen.k_open s)
    /\ BadExclusiveOpen.fds s' = BadExclusiveOpen.fds s.
Proof.
  intros Hh Hf Ho He. open_main.
  destruct s as [f sched ko p fds sl en o er]. cbn in Hf, Ho. subst f.
  destruct ko as [|[e'|] ko]; try discriminate.
  cbn in Ho. injection Ho as ->.
  apply Z.eqb_neq in He.
  destruct sched as [|b0 sched];
    unfold pbind, pret; cbn;
    change (-1 =? -1) with true; cbn;
    unfold BadExclusiveOpen.get_errno; cbn; rewrite He; cbn;
    eexists; (split; [reflexivity|]); cbn;
    repeat split; reflexivity.
Qed.

(** X19.  When the file does not exist at the first [open] and the second
    [open] fails, [main] ends with [EXIT_FAILURE] through [errExit]: the
    creation is not reported, and this process has not created the
    file. *)
Theorem failed_creation_is_not_reported
    (prog path : list byte) (rest : list (list byte))
    (s : BadExclusiveOpen.state) (e : Z) :
  streq path (bytes "--help") = false ->
  BadExclusiveOpen.file s = None ->
  hd false (BadExclusiveOpen.k_sched s) = false ->
  hd None (BadExclusiveOpen.k_open s) = Some e ->
  exists s',
    BadExclusiveOpen.main (prog :: path :: rest) s = Stop EXIT_FAILURE s'
    /\ BadExclusiveOpen.err s' =
       BadExclusiveOpen.err s ++ [NErrExit "open" e]
    /\ ~ In (BadExclusiveOpen.Printed BadExclusiveOpen.CreatedExclusively
               (BadExclusiveOpen.pid s))
            (skipn (List.length (BadExclusiveOpen.out s)) (BadExclusiveOpen.out s'))
    /\ BadExclusiveOpen.file s' <> Some BadExclusiveOpen.ThisProcess
    /\ BadExclusiveOpen.fds s' = BadExclusiveOpen.fds s.
Proof.
  intros Hh Hf Hs Ho. open_main.
  destruct s as [f sched ko p fds sl en o er]. cbn in Hf, Hs, Ho. subst f.
  destruct ko as [|[e'|] ko]; try discriminate.
  cbn in Ho. injection Ho as ->.
  assert (Hskip : forall l : list BadExclusiveOpen.line,
             skipn (List.length o) (o ++ l) = l).
  { intros l. rewrite skipn_app, skipn_all, Nat.sub_diag. reflexivity. }
  destruct (Nat.eqb (List.length rest) 0);
    destruct sched as [|b0 [|b1 [|b2 sched]]]; cbn in Hs; try subst b0;
    try destruct b1; try destruct b2;
    unfold pbind, pret; cbn;
    change (-1 =? -1) with true; cbn;
    eexists; (split; [reflexivity|]); cbn;
    rewrite <- ?app_assoc; rewrite ?Hskip;
    (split; [reflexivity|]);
    (split; [cbn; intros H; repeat (destruct H as [H|H]; [discriminate|]);
             exact H|]);
    (split; [discriminate|reflexivity]).
Qed.

(* ================================================================== *)
(** ** t_readv: one scatter read into three buffers *)

Lemma length_not_error (n : nat) : (Z.of_nat n =? -1) = false.
Proof. apply Z.eqb_neq. lia. Qed.

(** The run of [main] when the file opens and [readv] does not fail. *)
Lemma t_readv_main_reads (STAT_SIZE : nat) (prog path : list byte)
    (s : TReadv.state) (content : list byte) :
  streq path (bytes "--help") = false ->
  TReadv.file s = inl content ->
  TReadv.k_readv s = None ->
  TReadv.main STAT_SIZE [prog; path] s =
  Stop EXIT_SUCCESS
    (TReadv.mk_state
       (TReadv.file s) (TReadv.k_readv s) (TReadv.k_deliver s)
       (TReadv.scatter (TReadv.delivered STAT_SIZE s content)
          (TReadv.iov STAT_SIZE) (TReadv.bufs s))
       true (TReadv.errno s)
       (TReadv.out s
          ++ (if Z.of_nat (List.length (TReadv.delivered STAT_SIZE s content))
                 <? TReadv.totRequired STAT_SIZE
              then [TReadv.Fewer] else [])
          ++ [TReadv.Totals (TReadv.totRequired STAT_SIZE)
                (Z.of_nat (List.length (TReadv.delivered STAT_SIZE s content)))])
       (TReadv.err s)).
Proof.
  intros Hh Hf Hr. unfold TReadv.main.
  change (Z.of_nat (List.length [prog; path]) =? 2) with true.
  cbn [negb orb TReadv.arg nth]. rewrite Hh. cbn [pwhen].
  destruct s as [f kr kd bs op en o er]. cbn in Hf, Hr. subst f kr.
  unfold pbind at 1. unfold pret at 1.
  unfold pbind at 1. unfold TReadv.open. cbn [TReadv.file].
  change (3 =? -1) with false. cbn [pwhen]. unfold pbind at 1. unfold pret at 1.
  unfold pbind at 1. unfold TReadv.readv.
  cbn [TReadv.file TReadv.k_readv TReadv.opened TReadv.k_deliver TReadv.bufs
       TReadv.errno TReadv.out TReadv.err andb].
  change (3 =? 3) with true. cbv iota.
  unfold TReadv.delivered. cbn [TReadv.k_deliver].
  set (data := firstn _ content).
  rewrite length_not_error. cbn [pwhen].
  unfold pbind, pret, TReadv.printf, TReadv.exit.
  destruct (Z.of_nat (List.length data) <? TReadv.totRequired STAT_SIZE);
    cbn; rewrite <- ?app_assoc; reflexivity.
Qed.

Lemma t_readv_total (STAT_SIZE : nat) :
  TReadv.total (TReadv.iov STAT_SIZE)
  = (STAT_SIZE + TReadv.INT_SIZE + TReadv.STR_SIZE)%nat.
Proof. unfold TReadv.total, TReadv.iov. cbn [fold_right TReadv.iov_len]. lia. Qed.

Lemma t_readv_totRequired (STAT_SIZE : nat) :
  TReadv.totRequired STAT_SIZE
  = Z.of_nat (TReadv.total (TReadv.iov STAT_SIZE)).
Proof. rewrite t_readv_total. unfold TReadv.totRequired. lia. Qed.

Lemma delivered_length (STAT_SIZE : nat) (s : TReadv.state)
    (content : list byte) :
  List.length (TReadv.delivered STAT_SIZE s content)
  = Nat.min (match TReadv.k_deliver s with
             | Some k => Nat.min k (TReadv.total (TReadv.iov STAT_SIZE))
             | None => TReadv.total (TReadv.iov STAT_SIZE)
             end) (List.length content).
Proof. unfold TReadv.delivered. apply length_firstn. Qed.

Lemma delivered_bounded (STAT_SIZE : nat) (s : TReadv.state)
    (content : list byte) :
  (List.length (TReadv.delivered STAT_SIZE s content)
   <= TReadv.total (TReadv.iov STAT_SIZE))%nat.
Proof. rewrite delivered_length. destruct (TReadv.k_deliver s); lia. Qed.

(** X20.  When the file opens and [readv] does not fail, [main] ends with
    [EXIT_SUCCESS] and reports the number of bytes requested,
    [sizeof(struct stat) + sizeof(int) + STR_SIZE], and the number read,
    which is never more than requested nor more than the file holds;
    the line about fewer bytes comes before it exactly when the number
    read is smaller than the number requested. *)
Theorem t_readv_reports_request_and_read (STAT_SIZE : nat)
    (prog path : list byte) (s : TReadv.state) (content : list byte) :
  streq path (bytes "--help") = false ->
  TReadv.file s = inl content ->
  TReadv.k_readv s = None ->
  exists (s' : TReadv.state) (n : nat),
    TReadv.main STAT_SIZE [prog; path] s = Stop EXIT_SUCCESS s'
    /\ (n <= STAT_SIZE + TReadv.INT_SIZE + TReadv.STR_SIZE)%nat
    /\ (n <= List.length content)%nat
    /\ (TReadv.k_deliver s = None ->
        n = Nat.min (STAT_SIZE + TReadv.INT_SIZE + TReadv.STR_SIZE)
                    (List.length content))
    /\ TReadv.out s' =
       TReadv.out s
         ++ (if (n <? STAT_SIZE + TReadv.INT_SIZE + TReadv.STR_SIZE)%nat
             then [TReadv.Fewer] else [])
         ++ [TReadv.Totals
               (Z.of_nat (STAT_SIZE + TReadv.INT_SIZE + TReadv.STR_SIZE))
               (Z.of_nat n)]
    /\ TReadv.err s' = TReadv.err s.
Proof.
  intros Hh Hf Hr.
  rewrite (t_readv_main_reads STAT_SIZE prog path s content Hh Hf Hr).
  eexists. exists (List.length (TReadv.delivered STAT_SIZE s content)).
  split; [reflexivity|].
  pose proof (delivered_bounded STAT_SIZE s content) as Hb.
  pose proof (delivered_length STAT_SIZE s content) as Hl.
  rewrite t_readv_total in Hb, Hl.
  split; [exact Hb|]. split; [lia|].
  split; [intros Hk; rewrite Hk in Hl; exact Hl|].
  split; [|reflexivity].
  cbn [TReadv.out]. rewrite t_readv_totRequired, t_readv_total.
  f_equal. f_equal.
  set (n := List.length _). set (t := (_ + _ + _)%nat).
  destruct (Nat.ltb_spec n t) as [H|H].
  - replace (Z.of_nat n <? Z.of_nat t) with true; [reflexivity|].
    symmetry. apply Z.ltb_lt. lia.
  - replace (Z.of_nat n <? Z.of_nat t) with false; [reflexivity|].
    symmetry. apply Z.ltb_ge. lia.
Qed.

Lemma store_length (d b : list byte) (n : nat) :
  List.length b = n ->
  List.length (TReadv.store (firstn n d) b) = n.
Proof.
  intros Hb. unfold TReadv.store.
  rewrite length_app, length_skipn, length_firstn. lia.
Qed.

Lemma store_gathers (d b rest : list byte) (n : nat) :
  List.length b = n ->
  TReadv.store (firstn n d) b ++ TReadv.store (skipn n d) rest
  = TReadv.store d (b ++ rest).
Proof.
  intros Hb. unfold TReadv.store.
  rewrite length_firstn, length_skipn, skipn_app, Hb.
  destruct (Nat.le_gt_cases (List.length d) n) as [H|H].
  - rewrite (firstn_all2 d) by lia. rewrite (skipn_all2 d) by lia.
    replace (Nat.min n (List.length d)) with (List.length d) by lia.
    replace (List.length d - n)%nat with O by lia.
    cbn [app skipn]. rewrite <- app_assoc. reflexivity.
  - replace (Nat.min n (List.length d)) with n by lia.
    rewrite (skipn_all2 (n := n) b) by lia.
    rewrite (skipn_all2 (n := List.length d) b) by lia. cbn [app].
    rewrite app_nil_r, app_assoc, firstn_skipn. reflexivity.
Qed.

Lemma store_all (d b : list byte) (n : nat) :
  (List.length d <= n)%nat ->
  TReadv.store (firstn n d) b = TReadv.store d b.
Proof. intros H. rewrite firstn_all2 by lia. reflexivity. Qed.

(** X21.  The scatter read fills the three buffers in the order of [iov]:
    with [myStruct], [x] and [str] of the sizes [main] passes for them,
    each buffer keeps its size, and the three taken one after the other
    hold the bytes read, in the order of the file and from its start,
    followed by what the buffers held there before. *)
Theorem t_readv_fills_buffers_in_order (STAT_SIZE : nat)
    (prog path : list byte) (s : TReadv.state)
    (content myStruct x str : list byte) :
  streq path (bytes "--help") = false ->
  TReadv.file s = inl content ->
  TReadv.k_readv s = None ->
  TReadv.bufs s = [myStruct; x; str] ->
  List.length myStruct = STAT_SIZE ->
  List.length x = TReadv.INT_SIZE ->
  List.length str = TReadv.STR_SIZE ->
  exists (s' : TReadv.state) (n : nat) (myStruct' x' str' : list byte),
    TReadv.main STAT_SIZE [prog; path] s = Stop EXIT_SUCCESS s'
    /\ In (TReadv.Totals (TReadv.totRequired STAT_SIZE) (Z.of_nat n))
          (TReadv.out s')
    /\ TReadv.bufs s' = [myStruct'; x'; str']
    /\ List.length myStruct' = STAT_SIZE
    /\ List.length x' = TReadv.INT_SIZE
    /\ List.length str' = TReadv.STR_SIZE
    /\ myStruct' ++ x' ++ str'
       = firstn n content ++ skipn n (myStruct ++ x ++ str).
Proof.
  intros Hh Hf Hr Hb H0 H1 H2.
  rewrite (t_readv_main_reads STAT_SIZE prog path s content Hh Hf Hr).
  pose proof (delivered_bounded STAT_SIZE s content) as Hbd.
  pose proof (delivered_length STAT_SIZE s content) as Hl.
  rewrite t_readv_total in Hbd.
  set (d := TReadv.delivered STAT_SIZE s content) in *.
  eexists. exists (List.length d).
  exists (TReadv.store (firstn STAT_SIZE d) myStruct).
  exists (TReadv.store (firstn TReadv.INT_SIZE (skipn STAT_SIZE d)) x).
  exists (TReadv.store
            (firstn TReadv.STR_SIZE
               (skipn TReadv.INT_SIZE (skipn STAT_SIZE d))) str).
  split; [reflexivity|].
  split; [cbn [TReadv.out]; apply in_or_app; right; apply in_or_app; right;
          left; reflexivity|].
  split; [cbn [TReadv.bufs]; rewrite Hb; reflexivity|].
  split; [apply store_length; exact H0|].
  split; [apply store_length; exact H1|].
  split; [apply store_length; exact H2|].
  rewrite (store_all (skipn TReadv.INT_SIZE (skipn STAT_SIZE d)) str)
    by (rewrite !length_skipn; lia).
  rewrite (store_gathers (skipn STAT_SIZE d) x str TReadv.INT_SIZE H1).
  rewrite (store_gathers d myStruct (x ++ str) STAT_SIZE H0).
  unfold TReadv.store. f_equal.
  unfold d, TReadv.delivered. set (w := match TReadv.k_deliver s with
                                        | Some k => _
                                        | None => _
                                        end).
  rewrite length_firstn.
  destruct (Nat.le_gt_cases w (List.length content)) as [H|H].
  - rewrite Nat.min_l by exact H. reflexivity.
  - rewrite Nat.min_r by lia. rewrite !firstn_all2 by lia. reflexivity.
Qed.

(** X22.  When the file cannot be opened, or [readv] fails, [main] ends
    with [EXIT_FAILURE] through [errExit] naming the call that failed,
    with its errno: nothing is printed on standard output and the
    buffers are not touched. *)
Theorem t_readv_failed_call_is_fatal (STAT_SIZE : nat)
    (prog path : list byte) (s : TReadv.state) (msg : string) (e : Z) :
  streq path (bytes "--help") = false ->
  TReadv.failing s = Some (msg, e) ->
  exists s',
    TReadv.main STAT_SIZE [prog; path] s = Stop EXIT_FAILURE s'
    /\ TReadv.err s' = TReadv.err s ++ [NErrExit msg e]
    /\ TReadv.out s' = TReadv.out s
    /\ TReadv.bufs s' = TReadv.bufs s.
Proof.
  intros Hh Hfail. unfold TReadv.main.
  change (Z.of_nat (List.length [prog; path]) =? 2) with true.
  cbn [negb orb TReadv.arg nth]. rewrite Hh. cbn [pwhen].
  destruct s as [f kr kd bs op en o er]. unfold TReadv.failing in Hfail.
  cbn [TReadv.file TReadv.k_readv] in Hfail.
  destruct f as [content|e0].
  - destruct kr as [e1|]; [|discriminate]. injection Hfail as <- <-.
    unfold pbind, pret, TReadv.open, TReadv.readv. cbn.
    eexists. split; [reflexivity|]. cbn. repeat split; reflexivity.
  - injection Hfail as <- <-.
    unfold pbind, pret, TReadv.open. cbn.
    eexists. split; [reflexivity|]. cbn. repeat split; reflexivity.
Qed.

(* ================================================================== *)
(** ** Sample runs *)

(** One client sends "hello world" in two segments; the server copies the
    eleven bytes and waits for the next client. *)
Example run_hello_world :
  exists w',
    main sample_buf sock_path sample_size 9 garbage_addr garbage_buf
         (boot [] None [AcConn hello_conn] [])
    = Blocked w'
    /\ w_stdout w' = bytes "hello world"
    /\ w_stderr w' = [].
Proof. eexists. split; [vm_compute; reflexivity|]. split; reflexivity. Qed.

(** Two clients, "A" then "BB". *)
Example run_two_clients :
  w_stdout
    (final (main sample_buf sock_path sample_size 9 garbage_addr garbage_buf
                 (boot [] None
                       [AcConn (client [bytes "A"]); AcConn (client [bytes "BB"])]
                       [])))
  = bytes "ABB".
Proof. vm_compute. reflexivity. Qed.

(** A stale entry at the path is removed and the socket bound. *)
Example run_stale_entry :
  exists w',
    setup sock_path sample_size garbage_addr (boot [sock_path] None [] [])
    = Ret 3 w'
    /\ w_fs w' = [sock_path]
    /\ w_stderr w' = [].
Proof. eexists. split; [vm_compute; reflexivity|]. split; reflexivity. Qed.

(* ================================================================== *)
(** ** The properties at concrete inputs *)

(** C1 at a client that sends "hello world". *)
Lemma relay_pass_copies_stream_witness :
  w_stdout (final (serve sample_buf 12 3 garbage_buf
                         (listening [AcConn hello_conn] [])))
  = bytes "hello world".
Proof.
  pose (o := serve sample_buf 12 3 garbage_buf (listening [AcConn hello_conn] [])).
  destruct (relay_pass_copies_stream sample_buf 12 3 garbage_buf
              (match o with Ret b _ => b | _ => [] end)
              (listening [AcConn hello_conn] []) (final o) hello_conn []
              (bytes "hello world")) as [H _].
  - unfold sample_buf. lia.
  - reflexivity.
  - reflexivity.
  - vm_compute. reflexivity.
  - exact H.
Defined.

(** C2 at a connection that fails after two bytes: the server exits. *)
Lemma read_error_aborts_server_witness :
  exists w',
    main sample_buf sock_path sample_size 9 garbage_addr garbage_buf
         (boot [] None [AcConn reset_conn; AcConn hello_conn] [])
    = Exit EXIT_FAILURE w'.
Proof.
  pose (w := boot [] None [AcConn reset_conn; AcConn hello_conn] []).
  pose (tr := w_trace (final (main sample_buf sock_path sample_size 9
                                   garbage_addr garbage_buf w))).
  destruct (read_error_aborts_server sample_buf sock_path sample_size 9
              garbage_addr garbage_buf w (removelast tr) [] 4 sample_buf [])
    as [_ [_ [w' [ds [Hm _]]]]].
  - vm_compute. reflexivity.
  - exists w'. exact Hm.
Defined.

(** C3: with a path array of four bytes the path is too long; the process
    exits, and descriptor 3, the socket, is open at that moment. *)
Lemma too_long_path_socket_is_open :
  path_too_long sock_path 4 = true
  /\ socket_open (boot [] None [] []) = false
  /\ exists w',
       main sample_buf sock_path 4 9 garbage_addr garbage_buf
            (boot [] None [] [])
       = Exit EXIT_FAILURE w'
       /\ w_trace w' = [EvSocket AF_UNIX SOCK_STREAM 0 3]
       /\ fd_lookup 3 (w_fds w') = Some FSock
       /\ socket_open w' = true.
Proof.
  split; [reflexivity|]. split; [reflexivity|].
  eexists. split; [vm_compute; reflexivity|].
  repeat split; reflexivity.
Qed.

Lemma too_long_path_fails_after_socket_witness :
  exists w',
    main sample_buf sock_path 4 9 garbage_addr garbage_buf (boot [] None [] [])
    = Exit EXIT_FAILURE w'
    /\ w_fs w' = [].
Proof.
  destruct (too_long_path_fails_after_socket sample_buf sock_path 4 9
              garbage_addr garbage_buf (boot [] None [] []))
    as [w' [r [Hm [_ [_ [Hfs _]]]]]].
  - reflexivity.
  - exists w'. split; [exact Hm | exact Hfs].
Defined.

(** C4: an entry that cannot be removed (EACCES); the process exits, and
    descriptor 3, the socket, is open at that moment. *)
Lemma failed_removal_socket_is_open :
  socket_open (boot [sock_path] (Some 13) [] []) = false
  /\ exists w',
       main sample_buf sock_path sample_size 9 garbage_addr garbage_buf
            (boot [sock_path] (Some 13) [] [])
       = Exit EXIT_FAILURE w'
       /\ w_trace w' = [EvSocket AF_UNIX SOCK_STREAM 0 3; EvRemove sock_path (-1)]
       /\ w_stderr w' = [DErrExit "remove-/tmp/us_xfr" 13]
       /\ fd_lookup 3 (w_fds w') = Some FSock
       /\ socket_open w' = true.
Proof.
  split; [reflexivity|].
  eexists. split; [vm_compute; reflexivity|].
  repeat split; reflexivity.
Qed.

Lemma stale_path_removal_witness :
  (exists sfd w',
     setup sock_path sample_size garbage_addr (boot [] None [] []) = Ret sfd w'
     /\ w_fs w' = [sock_path])
  /\ (exists w',
        main sample_buf sock_path sample_size 9 garbage_addr garbage_buf
             (boot [sock_path] (Some 13) [] [])
        = Exit EXIT_FAILURE w'
        /\ w_fs w' = [sock_path]).
Proof.
  split.
  - destruct (stale_path_removal sample_buf sock_path sample_size 9
                garbage_addr garbage_buf (boot [] None [] []))
      as [_ [H _]].
    + unfold sample_size. lia.
    + reflexivity.
    + reflexivity.
    + destruct H as [sfd [w' [Hs [_ [Hfs _]]]]]; try reflexivity.
      exists sfd, w'. split; [exact Hs | exact Hfs].
  - destruct (stale_path_removal sample_buf sock_path sample_size 9
                garbage_addr garbage_buf (boot [sock_path] (Some 13) [] []))
      as [_ [_ H]].
    + unfold sample_size. lia.
    + reflexivity.
    + reflexivity.
    + destruct (H 13) as [sfd [w' [Hm [_ [_ [_ [Hfs _]]]]]]];
        try reflexivity; try discriminate.
      exists w'. split; [exact Hm | exact Hfs].
Defined.

(** C5 at a sink that takes two of the first four bytes. *)
Lemma short_write_terminates_server_witness :
  exists w',
    main sample_buf sock_path sample_size 9 garbage_addr garbage_buf
         (boot [] None [AcConn hello_conn] [WrShort 2])
    = Exit EXIT_FAILURE w'.
Proof.
  pose (w := boot [] None [AcConn hello_conn] [WrShort 2]).
  pose (tr := w_trace (final (main sample_buf sock_path sample_size 9
                                   garbage_addr garbage_buf w))).
  destruct (short_write_terminates_server sample_buf sock_path sample_size 9
              garbage_addr garbage_buf w (removelast tr) []
              STDOUT_FILENO (bytes "hell") 2)
    as [_ [_ [_ [w' [c [cfd [ds [Hm _]]]]]]]].
  - vm_compute. reflexivity.
  - vm_compute. split; [discriminate | reflexivity].
  - exists w'. exact Hm.
Defined.

(** C6 at a connection whose [close] fails with EIO, with another client
    waiting. *)
Lemma close_failure_is_logged_witness :
  exists b' w',
    serve sample_buf 9 3 garbage_buf
          (listening [AcConn unclosable_conn; AcConn hello_conn] [])
    = Ret b' w'
    /\ k_accept w' = [AcConn hello_conn].
Proof.
  pose (w := listening [AcConn unclosable_conn; AcConn hello_conn] []).
  pose (w1 := final (sys_accept 3 w)).
  pose (w2 := final (transfer sample_buf 9 4 garbage_buf w1)).
  destruct (close_failure_is_logged sample_buf 9 3 4 garbage_buf (bytes "hizz")
              w w1 w2 unclosable_conn [AcConn hello_conn])
    as [r [w' [Hs [_ [_ [_ [_ [_ [Hq _]]]]]]]]].
  - unfold sample_buf. lia.
  - reflexivity.
  - reflexivity.
  - vm_compute. reflexivity.
  - vm_compute. reflexivity.
  - exists (bytes "hizz"), w'. split; [exact Hs | exact Hq].
Defined.

(** C7 at a client that sends nothing. *)
Lemma empty_client_is_served_witness :
  exists w',
    serve sample_buf 1 3 garbage_buf (listening [AcConn (client [])] [])
    = Ret garbage_buf w'
    /\ w_stdout w' = [].
Proof.
  destruct (empty_client_is_served sample_buf 0 3 garbage_buf
              (listening [AcConn (client [])] []) (client []) [])
    as [cfd [r [w' [Hs [Hout _]]]]]; try reflexivity.
  exists w'. split; [exact Hs | exact Hout].
Defined.

(** C8 at the two clients "A" and "BB". *)
Lemma connections_are_served_in_sequence_witness :
  exists w',
    accept_loop sample_buf 6 3 garbage_buf
                (listening [AcConn (client [bytes "A"]);
                            AcConn (client [bytes "BB"])] [])
    = Blocked w'
    /\ w_stdout w' = bytes "ABB".
Proof.
  destruct (connections_are_served_in_sequence sample_buf
              [client [bytes "A"]; client [bytes "BB"]] 3 3 garbage_buf
              (listening [AcConn (client [bytes "A"]);
                          AcConn (client [bytes "BB"])] []))
    as [w' [Hl [Hout _]]].
  - unfold sample_buf. lia.
  - reflexivity.
  - reflexivity.
  - repeat constructor.
  - reflexivity.
  - repeat constructor.
  - exists w'. split; [exact Hl | exact Hout].
Defined.

(** C9 at a sink that fails with EPIPE and one that takes two bytes. *)
Lemma failed_write_handled_as_short_write_witness :
  exists s w1' w2',
    main sample_buf sock_path sample_size 9 garbage_addr garbage_buf
         (boot [] None [AcConn hello_conn] [WrFail 32])
    = Exit s w1'
    /\ main sample_buf sock_path sample_size 9 garbage_addr garbage_buf
            (boot [] None [AcConn hello_conn] [WrShort 2])
       = Exit s w2'.
Proof.
  pose (wa := boot [] None [AcConn hello_conn] [WrFail 32]).
  pose (wb := boot [] None [AcConn hello_conn] [WrShort 2]).
  pose (ta := w_trace (final (main sample_buf sock_path sample_size 9
                                   garbage_addr garbage_buf wa))).
  pose (tb := w_trace (final (main sample_buf sock_path sample_size 9
                                   garbage_addr garbage_buf wb))).
  destruct (failed_write_handled_as_short_write sample_buf sock_path
              sample_size 9 9 garbage_addr garbage_addr garbage_buf garbage_buf
              wa wb (removelast ta) [] (removelast tb) []
              STDOUT_FILENO STDOUT_FILENO (bytes "hell") (bytes "hell") 2)
    as [_ [_ [s [d [w1' [w2' [ds1 [ds2 [H1 [H2 _]]]]]]]]]].
  - vm_compute. reflexivity.
  - vm_compute. reflexivity.
  - vm_compute. split; [discriminate | reflexivity].
  - exists s, w1', w2'. split; [exact H1 | exact H2].
Defined.

(** C10 at the path of us_xfr.h and the array size of Linux. *)
Lemma bind_address_holds_path_witness :
  cstr (sun_path (server_addr sock_path sample_size garbage_addr)) = sock_path.
Proof.
  destruct (bind_address_holds_path sock_path sample_size garbage_addr)
    as [_ [_ [_ [_ [H _]]]]].
  - unfold sample_size. lia.
  - vm_compute. lia.
  - exact H.
Defined.

(** X2 at a kernel that refuses [bind] with EADDRINUSE. *)
Lemma setup_failure_ends_server_witness :
  exists w',
    main sample_buf sock_path sample_size 9 garbage_addr garbage_buf
         (refusing (Some 98) None [AcConn hello_conn])
    = Exit EXIT_FAILURE w'.
Proof.
  pose (w := refusing (Some 98) None [AcConn hello_conn]).
  pose (tr := w_trace (final (main sample_buf sock_path sample_size 9
                                   garbage_addr garbage_buf w))).
  destruct (setup_failure_ends_server sample_buf sock_path sample_size 9
              garbage_addr garbage_buf w (removelast tr) []
              (EvBind 3 (server_addr sock_path sample_size garbage_addr) (-1)))
    as [_ [_ [w' [ds [Hm _]]]]].
  - vm_compute. reflexivity.
  - reflexivity.
  - exists w'. exact Hm.
Defined.

(** X3 at a first [accept] that fails with EMFILE. *)
Lemma accept_error_aborts_server_witness :
  exists w',
    main sample_buf sock_path sample_size 9 garbage_addr garbage_buf
         (boot [] None [AcFail 24; AcConn hello_conn] [])
    = Exit EXIT_FAILURE w'.
Proof.
  pose (w := boot [] None [AcFail 24; AcConn hello_conn] []).
  pose (tr := w_trace (final (main sample_buf sock_path sample_size 9
                                   garbage_addr garbage_buf w))).
  destruct (accept_error_aborts_server sample_buf sock_path sample_size 9
              garbage_addr garbage_buf w (removelast tr) [] 3)
    as [_ [w' [ds [Hm _]]]].
  - vm_compute. reflexivity.
  - exists w'. exact Hm.
Defined.


(** X7 at a path array of four bytes, too short for the path. *)
Lemma bind_path_is_bounded_copy_witness :
  cstr (sun_path (server_addr sock_path 4 garbage_addr))
  = firstn (4 - 1) (cstr sock_path).
Proof.
  destruct (bind_path_is_bounded_copy sock_path 4 garbage_addr)
    as [_ [_ [H _]]].
  - lia.
  - exact H.
Defined.

(** X8 at a connection on which [close] fails. *)
Lemma pass_leaves_no_descriptor_witness :
  fd_lookup 4 (w_fds (final (serve sample_buf 12 3 garbage_buf
                                   (listening [AcConn unclosable_conn] []))))
  = None.
Proof.
  pose (o := serve sample_buf 12 3 garbage_buf
                   (listening [AcConn unclosable_conn] [])).
  rewrite (pass_leaves_no_descriptor sample_buf 12 3 garbage_buf
             (match o with Ret b _ => b | _ => [] end)
             (listening [AcConn unclosable_conn] []) (final o)).
  - reflexivity.
  - unfold sample_buf. lia.
  - vm_compute. reflexivity.
Defined.

(** X9 at a client that sends "hi" and goes silent, with another client
    queued behind it. *)
Lemma silent_client_blocks_server_witness :
  exists w',
    accept_loop sample_buf 4 3 garbage_buf
                (listening [AcConn silent_conn; AcConn hello_conn] [])
    = Blocked w'
    /\ w_stdout w' = bytes "hi"
    /\ k_accept w' = [AcConn hello_conn].
Proof.
  destruct (silent_client_blocks_server sample_buf 3 3 garbage_buf
              (listening [AcConn silent_conn; AcConn hello_conn] [])
              silent_conn [AcConn hello_conn])
    as [w' [Hl [Hout [_ Hq]]]].
  - unfold sample_buf. lia.
  - reflexivity.
  - reflexivity.
  - split; reflexivity.
  - reflexivity.
  - vm_compute. lia.
  - exists w'. split; [exact Hl|]. split; [exact Hout | exact Hq].
Defined.

(** X10 at a client that sends "hello world" to a buffer of four bytes. *)
Lemma pass_keeps_buffer_size_witness :
  List.length
    (match serve sample_buf 12 3 garbage_buf
                 (listening [AcConn hello_conn] []) with
     | Ret b _ => b
     | _ => []
     end)
  = sample_buf.
Proof.
  pose (o := serve sample_buf 12 3 garbage_buf
                   (listening [AcConn hello_conn] [])).
  apply (pass_keeps_buffer_size sample_buf 12 3 garbage_buf
           (match o with Ret b _ => b | _ => [] end)
           (listening [AcConn hello_conn] []) (final o)).
  - reflexivity.
  - vm_compute. reflexivity.
Defined.

(** X11 at "hello world" sent in two segments to a buffer of four bytes
    and in one segment to a buffer of a hundred. *)
Lemma sink_independent_of_chunking_witness :
  w_stdout (final (serve 4 12 3 garbage_buf
                         (listening [AcConn hello_conn] [])))
  = w_stdout (final (serve 100 12 3 (bytes "")
                           (listening [AcConn (client [bytes "hello world"])]
                                      []))).
Proof.
  destruct (sink_independent_of_chunking 4 100 12 12 3 3 garbage_buf (bytes "")
              (listening [AcConn hello_conn] [])
              (listening [AcConn (client [bytes "hello world"])] [])
              hello_conn (client [bytes "hello world"]) [] [])
    as [b1 [b2 [w1' [w2' [out [H1 [H2 [Ho1 [Ho2 _]]]]]]]]].
  - lia.
  - lia.
  - reflexivity.
  - reflexivity.
  - reflexivity.
  - reflexivity.
  - split; reflexivity.
  - split; reflexivity.
  - reflexivity.
  - reflexivity.
  - reflexivity.
  - vm_compute. lia.
  - vm_compute. lia.
  - rewrite H1, H2. cbn [final]. rewrite Ho1, Ho2. reflexivity.
Defined.

(** X14 at the arguments A=1 and B=2, with an environment that is
    cleared. *)
Lemma modify_env_prints_arguments_witness :
  exists s',
    ModifyEnv.main [bytes "modify_env"; bytes "A=1"; bytes "B=2"]
                   (ModifyEnv.start [bytes "OLD=x"; bytes "BYE=now"])
    = Stop EXIT_SUCCESS s'
    /\ ModifyEnv.out s'
       = [bytes "A=1"; bytes "B=2"; bytes "GREET=Hello world"].
Proof.
  destruct (modify_env_prints_arguments
              [bytes "modify_env"; bytes "A=1"; bytes "B=2"]
              (ModifyEnv.start [bytes "OLD=x"; bytes "BYE=now"]))
    as [s' [Hm [Hout _]]].
  - reflexivity.
  - vm_compute. repeat (constructor; [discriminate|]). constructor.
  - vm_compute. constructor.
    + intros [H|[]]. discriminate.
    + constructor; [intros [] | constructor].
  - vm_compute. intros [H|[H|[]]]; discriminate.
  - vm_compute. intros [H|[H|[]]]; discriminate.
  - exists s'. split; [exact Hm | exact Hout].
Defined.

(** X15 at a greeting given before another argument. *)
Lemma modify_env_keeps_given_greeting_witness :
  exists lines,
    ModifyEnv.out
      (last_state
         (ModifyEnv.main [bytes "modify_env"; bytes "GREET=Hi"; bytes "A=1"]
                         (ModifyEnv.start [])))
    = lines
    /\ filter (ModifyEnv.defines ModifyEnv.GREET) lines = [bytes "GREET=Hi"].
Proof.
  destruct (modify_env_keeps_given_greeting
              [bytes "modify_env"; bytes "GREET=Hi"; bytes "A=1"]
              [] [bytes "A=1"] (bytes "GREET=Hi") (ModifyEnv.start [])
              (last_state
                 (ModifyEnv.main
                    [bytes "modify_env"; bytes "GREET=Hi"; bytes "A=1"]
                    (ModifyEnv.start []))))
    as [lines [Hout Hf]].
  - reflexivity.
  - reflexivity.
  - constructor; [vm_compute; discriminate | constructor].
  - vm_compute. reflexivity.
  - exists lines. split; [exact Hout | exact Hf].
Defined.

(** X16 at a file that exists. *)
Lemma existing_file_is_only_reported_witness :
  exists s',
    BadExclusiveOpen.main
      [bytes "bad_exclusive_open"; bytes "tfile"]
      (BadExclusiveOpen.mk_state (Some BadExclusiveOpen.AnotherProcess)
         [] [] 100 [] 0 0 [] [])
    = Stop EXIT_SUCCESS s'
    /\ BadExclusiveOpen.out s'
       = [BadExclusiveOpen.Printed BadExclusiveOpen.AlreadyExists 100].
Proof.
  destruct (existing_file_is_only_reported
              (bytes "bad_exclusive_open") (bytes "tfile") []
              (BadExclusiveOpen.mk_state (Some BadExclusiveOpen.AnotherProcess)
                 [] [] 100 [] 0 0 [] [])
              BadExclusiveOpen.AnotherProcess)
    as [s' [Hm [_ [Hout _]]]].
  - reflexivity.
  - reflexivity.
  - reflexivity.
  - exists s'. split; [exact Hm | exact Hout].
Defined.

(** X17 at a run with a further argument, during whose sleep another
    process creates the file. *)
Lemma creation_is_reported_whoever_created_witness :
  exists s',
    BadExclusiveOpen.main
      [bytes "bad_exclusive_open"; bytes "tfile"; bytes "sleep"]
      (BadExclusiveOpen.mk_state None [false; true] [] 100 [] 0 0 [] [])
    = Stop EXIT_SUCCESS s'
    /\ BadExclusiveOpen.out s'
       = [BadExclusiveOpen.Printed BadExclusiveOpen.NotYet 100;
          BadExclusiveOpen.Printed BadExclusiveOpen.DoneSleeping 100;
          BadExclusiveOpen.Printed BadExclusiveOpen.CreatedExclusively 100]
    /\ BadExclusiveOpen.file s' = Some BadExclusiveOpen.AnotherProcess.
Proof.
  destruct (creation_is_reported_whoever_created
              (bytes "bad_exclusive_open") (bytes "tfile") [bytes "sleep"]
              (BadExclusiveOpen.mk_state None [false; true] [] 100 [] 0 0 [] []))
    as [s' [Hm [Hout [Hfile _]]]].
  - reflexivity.
  - reflexivity.
  - reflexivity.
  - reflexivity.
  - exists s'. split; [exact Hm|]. split; [exact Hout | exact Hfile].
Defined.

(** X18 at a file that exists and cannot be opened for writing (EACCES). *)
Lemma unexpected_open_error_is_fatal_witness :
  exists s',
    BadExclusiveOpen.main
      [bytes "bad_exclusive_open"; bytes "tfile"]
      (BadExclusiveOpen.mk_state (Some BadExclusiveOpen.AnotherProcess)
         [] [Some 13] 100 [] 0 0 [] [])
    = Stop EXIT_FAILURE s'
    /\ BadExclusiveOpen.err s' = [NErrExit "open" 13].
Proof.
  destruct (unexpected_open_error_is_fatal
              (bytes "bad_exclusive_open") (bytes "tfile") []
              (BadExclusiveOpen.mk_state (Some BadExclusiveOpen.AnotherProcess)
                 [] [Some 13] 100 [] 0 0 [] [])
              BadExclusiveOpen.AnotherProcess 13)
    as [s' [Hm [Herr _]]].
  - reflexivity.
  - reflexivity.
  - reflexivity.
  - discriminate.
  - exists s'. split; [exact Hm | exact Herr].
Defined.

(** X19 at a directory in which the file cannot be created (EACCES). *)
Lemma failed_creation_is_not_reported_witness :
  exists s',
    BadExclusiveOpen.main
      [bytes "bad_exclusive_open"; bytes "tfile"]
      (BadExclusiveOpen.mk_state None [] [Some 13] 100 [] 0 0 [] [])
    = Stop EXIT_FAILURE s'
    /\ BadExclusiveOpen.err s' = [NErrExit "open" 13].
Proof.
  destruct (failed_creation_is_not_reported
              (bytes "bad_exclusive_open") (bytes "tfile") []
              (BadExclusiveOpen.mk_state None [] [Some 13] 100 [] 0 0 [] [])
              13)
    as [s' [Hm [Herr _]]].
  - reflexivity.
  - reflexivity.
  - reflexivity.
  - reflexivity.
  - exists s'. split; [exact Hm | exact Herr].
Defined.

(** X20 at a file of five bytes and a [struct stat] of 144 bytes. *)
Lemma t_readv_reports_request_and_read_witness :
  exists s',
    TReadv.main 144 [bytes "t_readv"; bytes "tfile"]
      (TReadv.mk_state (inl (bytes "hello")) None None
         [repeat NUL 144; repeat NUL 4; repeat NUL 100] false 0 [] [])
    = Stop EXIT_SUCCESS s'
    /\ TReadv.out s' = [TReadv.Fewer; TReadv.Totals 248 5].
Proof.
  destruct (t_readv_reports_request_and_read 144
              (bytes "t_readv") (bytes "tfile")
              (TReadv.mk_state (inl (bytes "hello")) None None
                 [repeat NUL 144; repeat NUL 4; repeat NUL 100] false 0 [] [])
              (bytes "hello"))
    as [s' [n [Hm [_ [_ [Hn [Hout _]]]]]]].
  - reflexivity.
  - reflexivity.
  - reflexivity.
  - exists s'. split; [exact Hm|].
    rewrite Hout, (Hn eq_refl). reflexivity.
Defined.

(** X21 at a file of six bytes and a [struct stat] of two: the first two
    bytes go to [myStruct], the next four to [x], and [str] is left as it
    was. *)
Lemma t_readv_fills_buffers_in_order_witness :
  exists s' n myStruct' x' str',
    TReadv.main 2 [bytes "t_readv"; bytes "tfile"]
      (TReadv.mk_state (inl (bytes "abcdef")) None None
         [bytes ".."; bytes "...."; repeat NUL 100] false 0 [] [])
    = Stop EXIT_SUCCESS s'
    /\ TReadv.bufs s' = [myStruct'; x'; str']
    /\ myStruct' ++ x' ++ str'
       = firstn n (bytes "abcdef")
           ++ skipn n (bytes ".." ++ bytes "...." ++ repeat NUL 100).
Proof.
  destruct (t_readv_fills_buffers_in_order 2
              (bytes "t_readv") (bytes "tfile")
              (TReadv.mk_state (inl (bytes "abcdef")) None None
                 [bytes ".."; bytes "...."; repeat NUL 100] false 0 [] [])
              (bytes "abcdef") (bytes "..") (bytes "....") (repeat NUL 100))
    as [s' [n [m' [x' [str' [Hm [_ [Hb [_ [_ [_ Hcat]]]]]]]]]]].
  - reflexivity.
  - reflexivity.
  - reflexivity.
  - reflexivity.
  - reflexivity.
  - reflexivity.
  - reflexivity.
  - exists s', n, m', x', str'.
    split; [exact Hm|]. split; [exact Hb | exact Hcat].
Defined.

(** X22 at a file that does not exist. *)
Lemma t_readv_failed_call_is_fatal_witness :
  exists s',
    TReadv.main 144 [bytes "t_readv"; bytes "tfile"]
      (TReadv.mk_state (inr ENOENT) None None
         [repeat NUL 144; repeat NUL 4; repeat NUL 100] false 0 [] [])
    = Stop EXIT_FAILURE s'
    /\ TReadv.err s' = [NErrExit "open" ENOENT].
Proof.
  destruct (t_readv_failed_call_is_fatal 144
              (bytes "t_readv") (bytes "tfile")
              (TReadv.mk_state (inr ENOENT) None None
                 [repeat NUL 144; repeat NUL 4; repeat NUL 100] false 0 [] [])
              "open"%string ENOENT)
    as [s' [Hm [Herr _]]].
  - reflexivity.
  - reflexivity.
  - exists s'. split; [exact Hm | exact Herr].
Defined.
